(** * ProjectizeSlack: task extraction, approval and retry queue

    A shallow embedding of the JavaScript sources of the Slack bot:

    - [Js]                  the JavaScript values and string operations the
                            modelled functions rely on;
    - [Parser]              src/utils/parser.js ([extractQuotedText]);
    - [Validation]          the validation helpers ([validateTask],
                            [validateTaskBatch]);
    - [ClaudeService]       the field-level validation of extracted tasks;
    - [WorkspaceMatcher]    the destination-matching heuristic;
    - [Queue], [SupabaseService], [LocalStorageService]
                            the queue entries and the two queue stores;
    - [MotionService]       the sync client ([createTask],
                            [createMultipleTasks]);
    - [Batch]               handlers/batch.js ([handleBatch],
                            [handleTaskApproval], [processRetryQueue]),
                            over a store that answers every request;
    - [Fallible]            the same handlers over a store whose requests
                            may fail;
    - [App]                 the button handler [approve_tasks] of the
                            local-storage application.

    Strings are sequences of UTF-16 code units, as in JavaScript.  The
    outside world (the Motion REST API, the Slack Web API, the clock) is an
    oracle threaded through the handlers as explicit state. *)

From Stdlib Require Import Ascii String.
From Stdlib Require Import List ZArith NArith Bool Lia PeanoNat.
From Stdlib Require Import DecimalString Permutation Sorted.
From Equations Require Import Equations.
Import ListNotations.
Local Open Scope list_scope.

Set Implicit Arguments.
Set Warnings "-register-all".

(* ===================================================================== *)
(** * Part I: definitions *)
(* ===================================================================== *)

(** ** JavaScript strings and values *)

Module Js.

(** A string is a list of UTF-16 code units. *)
Definition jsstring := list N.

(** A string literal of the source (ASCII only). *)
Definition str (s : string) : jsstring :=
  map N_of_ascii (list_ascii_of_string s).

Fixpoint eqb (s t : jsstring) : bool :=
  match s, t with
  | [], [] => true
  | c :: s', d :: t' => N.eqb c d && eqb s' t'
  | _, _ => false
  end.

(** ECMAScript WhiteSpace and LineTerminator: what [String.prototype.trim]
    strips and what [\s] matches in a regular expression. *)
Definition isWhiteSpace (c : N) : bool :=
  (N.eqb c 9 || N.eqb c 10 || N.eqb c 11 || N.eqb c 12 || N.eqb c 13
   || N.eqb c 32 || N.eqb c 160 || N.eqb c 0x1680
   || (N.leb 0x2000 c && N.leb c 0x200A)
   || N.eqb c 0x2028 || N.eqb c 0x2029 || N.eqb c 0x202F
   || N.eqb c 0x205F || N.eqb c 0x3000 || N.eqb c 0xFEFF)%N.

(** [\w] in a regular expression: [A-Za-z0-9_]. *)
Definition isWordChar (c : N) : bool :=
  ((N.leb 65 c && N.leb c 90) || (N.leb 97 c && N.leb c 122)
   || (N.leb 48 c && N.leb c 57) || N.eqb c 95)%N.

Fixpoint trimStart (s : jsstring) : jsstring :=
  match s with
  | c :: s' => if isWhiteSpace c then trimStart s' else s
  | [] => []
  end.

Definition trimEnd (s : jsstring) : jsstring := rev (trimStart (rev s)).

(** [s.trim()] *)
Definition trim (s : jsstring) : jsstring := trimEnd (trimStart s).

(** [s.startsWith(p)] *)
Fixpoint startsWith (s p : jsstring) : bool :=
  match p, s with
  | [], _ => true
  | d :: p', c :: s' => N.eqb c d && startsWith s' p'
  | _ :: _, [] => false
  end.

(** [s.includes(sub)] *)
Fixpoint includes (s sub : jsstring) : bool :=
  startsWith s sub ||
  match s with
  | [] => false
  | _ :: s' => includes s' sub
  end.

(** [s.split(sep)] for a one-character separator. *)
Fixpoint split (sep : N) (s : jsstring) : list jsstring :=
  match s with
  | [] => [[]]
  | c :: s' =>
      if N.eqb c sep then [] :: split sep s'
      else match split sep s' with
           | l :: ls => (c :: l) :: ls
           | [] => [[c]]
           end
  end.

(** [s.split(/\s+/)]: the fields between maximal runs of white space. *)
Fixpoint splitWhiteSpace (s : jsstring) : list jsstring :=
  match s with
  | [] => [[]]
  | c :: s' =>
      if isWhiteSpace c then
        match s' with
        | c' :: _ =>
            if isWhiteSpace c' then splitWhiteSpace s'
            else [] :: splitWhiteSpace s'
        | [] => [] :: splitWhiteSpace s'
        end
      else match splitWhiteSpace s' with
           | l :: ls => (c :: l) :: ls
           | [] => [[c]]
           end
  end.

(** [parts.join(sep)] *)
Fixpoint join (sep : jsstring) (parts : list jsstring) : jsstring :=
  match parts with
  | [] => []
  | [p] => p
  | p :: ps => p ++ sep ++ join sep ps
  end.

(** [arr.includes(x)] on an array of strings. *)
Definition mem (x : jsstring) (l : list jsstring) : bool :=
  existsb (eqb x) l.

(** [[...new Set(words)]]: the first occurrence of each word, in order. *)
Fixpoint dedupe (seen : list jsstring) (l : list jsstring) : list jsstring :=
  match l with
  | [] => []
  | x :: l' => if mem x seen then dedupe seen l' else x :: dedupe (x :: seen) l'
  end.

(** A stable sort: [x] is placed before the first element it is not
    after, so elements that compare equal keep their order, as
    [Array.prototype.sort] does. *)
Section Sort.
Variable A : Type.
Variable le : A -> A -> bool.

Fixpoint insertBy (x : A) (l : list A) : list A :=
  match l with
  | [] => [x]
  | y :: l' => if le x y then x :: l else y :: insertBy x l'
  end.

Fixpoint sortBy (l : list A) : list A :=
  match l with
  | [] => []
  | x :: l' => insertBy x (sortBy l')
  end.

(** Every element is before all the elements that follow it. *)
Definition inOrder (l : list A) : Prop :=
  StronglySorted (fun a b => le a b = true) l.
End Sort.

(** Decimal rendering of a number in a template literal. *)
Definition decimal (z : Z) : jsstring := str (NilZero.string_of_int (Z.to_int z)).

(** A JSON value, plus [undefined] for a property that is absent.  Numbers
    are carried as integers: the modelled code only tests them for
    truthiness and compares them. *)
Inductive JsValue : Type :=
| JUndefined
| JNull
| JBool (b : bool)
| JNum (z : Z)
| JStr (s : jsstring)
| JArr (items : list JsValue)
| JObj (fields : list (jsstring * JsValue)).

(** ToBoolean *)
Definition truthy (v : JsValue) : bool :=
  match v with
  | JUndefined | JNull => false
  | JBool b => b
  | JNum z => negb (Z.eqb z 0)
  | JStr s => match s with [] => false | _ => true end
  | JArr _ | JObj _ => true
  end.

(** [typeof v === 'string'] *)
Definition isString (v : JsValue) : bool :=
  match v with JStr _ => true | _ => false end.

(** [typeof v === 'object'] *)
Definition isObject (v : JsValue) : bool :=
  match v with JNull | JArr _ | JObj _ => true | _ => false end.

(** [a || b] *)
Definition or_else (a b : JsValue) : JsValue := if truthy a then a else b.

Fixpoint lookup (key : jsstring) (fields : list (jsstring * JsValue)) : JsValue :=
  match fields with
  | [] => JUndefined
  | (k, v) :: rest => if eqb k key then v else lookup key rest
  end.

(** [v.key] for an own data property; [None] is the TypeError raised by a
    property access on [null] or [undefined].  An object is given by the
    list of its own properties (keys distinct). *)
Definition get (v : JsValue) (key : jsstring) : option JsValue :=
  match v with
  | JUndefined | JNull => None
  | JObj fields => Some (lookup key fields)
  | JStr s => Some (if eqb key (str "length") then JNum (Z.of_nat (length s)) else JUndefined)
  | JArr items => Some (if eqb key (str "length") then JNum (Z.of_nat (length items)) else JUndefined)
  | JBool _ | JNum _ => Some JUndefined
  end.

(** [['high', 'medium', 'low'].includes(v)]: strict equality with one of
    the three strings. *)
Definition isLevel (v : JsValue) : bool :=
  match v with
  | JStr s => mem s [str "high"; str "medium"; str "low"]
  | _ => false
  end.

(** The abstract operations of the language whose full tables are not
    part of the repository: Unicode case mapping, and the coercions of an
    arbitrary value to a number and to a string. *)
Class Builtins : Type := {
  toLowerCase : jsstring -> jsstring;
  ToNumber : JsValue -> option Z;
  ToString : JsValue -> jsstring
}.

(** [v > n] for a number [n]; [undefined] coerces to NaN, which compares
    false. *)
Definition gt `{Builtins} (v : JsValue) (n : Z) : bool :=
  match v with
  | JNum z => Z.ltb n z
  | JUndefined => false
  | _ => match ToNumber v with Some z => Z.ltb n z | None => false end
  end.

(** [`${v}`] *)
Definition interpolate `{Builtins} (v : JsValue) : jsstring :=
  match v with
  | JStr s => s
  | JNum z => decimal z
  | _ => ToString v
  end.

(** A thrown exception and its [message]. *)
Inductive Error : Type :=
| TypeError (message : jsstring)
| ErrorOf (message : jsstring).

Definition message (e : Error) : jsstring :=
  match e with TypeError m | ErrorOf m => m end.

End Js.
Import Js.

(** ** src/utils/parser.js *)

Module Parser.

Definition GT : N := 62%N.
Definition LF : N := 10%N.

(** [line.replace(/^>\s*/, '')] *)
Definition stripQuoteMarker (line : jsstring) : jsstring :=
  match line with
  | c :: rest => if N.eqb c GT then trimStart rest else line
  | [] => []
  end.

Definition extractQuotedText (text : JsValue) : jsstring :=
  match text with
  | JStr s =>
      if negb (truthy text) then []
      else
        let lines := split LF s in
        let quotedLines :=
          filter (fun line => negb (Nat.eqb (length line) 0))
            (map (fun line => trim (stripQuoteMarker line))
               (filter (fun line => startsWith (trim line) [GT]) lines)) in
        join (str " ") quotedLines
  | _ => []
  end.

End Parser.

(** ** Validation helpers: [validateTask] and [validateTaskBatch] *)

Module Validation.

Record Result : Type := { valid : bool; errors : list jsstring }.

Section WithBuiltins.
Context `{Builtins}.

Definition prop (task : JsValue) (key : string) : option JsValue :=
  get task (str key).

(** [None] is the TypeError of reading a property of a [null] or
    [undefined] task. *)
Definition validateTask (task : JsValue) : option Result :=
  match prop task "title", prop task "assignee", prop task "confidence",
        prop task "priority", prop task "due_date" with
  | Some title, Some assignee, Some confidence, Some priority, Some due_date =>
      let e1 :=
        match title with
        | JStr s =>
            if negb (truthy title) then [str "Task title is required"]
            else if Nat.ltb (length (trim s)) 3
                 then [str "Task title must be at least 3 characters"]
                 else []
        | _ => [str "Task title is required"]
        end in
      let e2 :=
        if truthy assignee && negb (isString assignee)
        then [str "Assignee must be a string"] else [] in
      let e3 :=
        if truthy confidence && negb (isLevel confidence)
        then [str "Confidence must be high, medium, or low"] else [] in
      let e4 :=
        if truthy priority && negb (isLevel priority)
        then [str "Priority must be high, medium, or low"] else [] in
      let e5 :=
        if truthy due_date &&
           match get due_date (str "length") with
           | Some len => gt len 100
           | None => false
           end
        then [str "Due date string is too long"] else [] in
      let errs := e1 ++ e2 ++ e3 ++ e4 ++ e5 in
      Some {| valid := Nat.eqb (length errs) 0; errors := errs |}
  | _, _, _, _, _ => None
  end.

(** A task is individually valid when [validateTask] returns, with
    [valid] set. *)
Definition individuallyValid (task : JsValue) : Prop :=
  exists r, validateTask task = Some r /\ valid r = true.

(** The [forEach] of [validateTaskBatch]: [index] is the position of the
    head of [tasks] in the batch. *)
Fixpoint collectErrors (index : nat) (tasks : list JsValue) : option (list jsstring) :=
  match tasks with
  | [] => Some []
  | task :: rest =>
      match validateTask task with
      | None => None
      | Some validation =>
          match collectErrors (S index) rest with
          | None => None
          | Some more =>
              if negb (valid validation)
              then Some ((str "Task " ++ decimal (Z.of_nat (index + 1)) ++ str ": "
                           ++ join (str ", ") (errors validation)) :: more)
              else Some more
          end
      end
  end.

Definition validateTaskBatch (tasks : JsValue) : option Result :=
  match tasks with
  | JArr items =>
      if Nat.eqb (length items) 0 then
        Some {| valid := false; errors := [str "At least one task is required"] |}
      else if Nat.ltb 10 (length items) then
        Some {| valid := false; errors := [str "Maximum 10 tasks allowed per batch"] |}
      else
        match collectErrors 0 items with
        | Some allErrors =>
            Some {| valid := Nat.eqb (length allErrors) 0; errors := allErrors |}
        | None => None
        end
  | _ => Some {| valid := false; errors := [str "Tasks must be an array"] |}
  end.

End WithBuiltins.

End Validation.

(** ** The extracted task, as [ClaudeService.validateTask] builds it *)

Record Task : Type := {
  title : jsstring;
  assignee : JsValue;
  due_date : JsValue;
  confidence : JsValue;
  context : JsValue;
  priority : JsValue;
  estimated_time : JsValue
}.

(** ** ClaudeService: field-level validation of a parsed task object *)

Module ClaudeService.

(** [['high', 'medium', 'low'].includes(v) ? v : 'medium'] *)
Definition levelOrMedium (v : JsValue) : JsValue :=
  if negb (isLevel v) then JStr (str "medium") else v.

(** [task.key] of a task that is an object. *)
Definition field (task : JsValue) (key : string) : JsValue :=
  match get task (str key) with Some v => v | None => JUndefined end.

(** The outer [None] is the TypeError of reading a property of [null] or
    [undefined]; [Some None] is the [null] returned for a dropped task. *)
Definition validateTask (task : JsValue) : option (option Task) :=
  match get task (str "title"), get task (str "assignee"), get task (str "due_date"),
        get task (str "confidence"), get task (str "context"),
        get task (str "priority"), get task (str "estimated_time") with
  | Some t, Some a, Some d, Some c, Some x, Some p, Some e =>
      match t with
      | JStr s =>
          if negb (truthy t) then Some None
          else
            Some (Some {|
              title := trim s;
              assignee := or_else a (JStr (str "infer_from_context"));
              due_date := or_else d JNull;
              confidence := levelOrMedium (or_else c (JStr (str "medium")));
              context := or_else x (JStr []);
              priority := levelOrMedium (or_else p (JStr (str "medium")));
              estimated_time := or_else e JNull
            |})
      | _ => Some None
      end
  | _, _, _, _, _, _, _ => None
  end.

End ClaudeService.

(** ** WorkspaceMatcherService: the destination-matching heuristic *)

Record Workspace : Type := { ws_id : jsstring; ws_name : jsstring }.
Record Project : Type := { p_id : jsstring; p_name : jsstring }.

Module WorkspaceMatcher.

Record Score : Type := { total : nat; reasoning : jsstring }.

Record WorkspaceMatch : Type := {
  wm_workspace : Workspace;
  wm_score : Score;
  wm_reasoning : jsstring
}.

Record Match : Type := {
  workspace : Workspace;
  project : option Project;
  match_confidence : jsstring;
  match_reasoning : jsstring
}.

(** [arr.sort((a, b) => key(b) - key(a))]: highest key first. *)
Definition sortDescending (A : Type) (key : A -> nat) : list A -> list A :=
  sortBy (fun a b => Nat.leb (key b) (key a)).

Definition stopWords : list jsstring :=
  map str ["the"; "and"; "for"; "are"; "but"; "not"; "you"; "all"; "can"; "had";
           "her"; "was"; "one"; "our"; "out"; "day"; "get"; "has"; "him"; "his";
           "how"; "its"; "may"; "new"; "now"; "old"; "see"; "two"; "who"; "boy";
           "did"; "she"; "use"; "way"; "will"; "need"; "have"; "this"; "that";
           "with"; "they"]%string.

Definition personalKeywords : list jsstring :=
  map str ["personal"; "home"; "health"; "doctor"; "appointment"; "family";
           "vacation"; "shopping"; "errands"]%string.

Definition workKeywords : list jsstring :=
  map str ["client"; "project"; "meeting"; "deadline"; "business"; "company";
           "team"; "development"; "marketing"]%string.

Definition isStopWord (word : jsstring) : bool := mem word stopWords.

Definition isPersonalTask (text : jsstring) : bool :=
  existsb (fun keyword => includes text keyword) personalKeywords.

Definition isWorkTask (text : jsstring) : bool :=
  existsb (fun keyword => includes text keyword) workKeywords.

Definition QUOTE : N := 34%N.

Section WithBuiltins.
Context `{Builtins}.

(** [text.replace(/[^\w\s]/g, ' ')] *)
Definition blankPunctuation (text : jsstring) : jsstring :=
  map (fun c => if isWordChar c || isWhiteSpace c then c else 32%N) text.

Definition extractKeywords (text : jsstring) : list jsstring :=
  let words :=
    filter (fun word => negb (isStopWord word))
      (filter (fun word => Nat.ltb 2 (length word))
         (splitWhiteSpace (blankPunctuation (toLowerCase text)))) in
  dedupe [] words.

(** One addend of the score: its points and its reason when the test
    holds, nothing otherwise. *)
Definition bonus (test : bool) (points : nat) (reason : jsstring)
  : nat * list jsstring :=
  if test then (points, [reason]) else (0, []).

(** The loop over the keywords: five points and a reason for each
    keyword the name contains. *)
Definition keywordMatches (name : jsstring) (keywords : list jsstring)
  : nat * list jsstring :=
  fold_left
    (fun acc keyword =>
       if includes name keyword
       then (fst acc + 5,
             snd acc ++ [str "keyword match: " ++ [QUOTE] ++ keyword ++ [QUOTE]])
       else acc)
    keywords (0, []).

Definition calculateWorkspaceScore (taskText : jsstring) (w : Workspace) : Score :=
  let workspaceName := toLowerCase (ws_name w) in
  let keywords := extractKeywords taskText in
  let '(s0, r0) := keywordMatches workspaceName keywords in
  let '(s1, r1) :=
    bonus (includes taskText (str "nastygram") && includes workspaceName (str "nastygram"))
      10 (str "project context match: nastygram") in
  let '(s2, r2) :=
    bonus (includes taskText (str "labcorp") && includes workspaceName (str "health"))
      8 (str "health-related task") in
  let '(s3, r3) :=
    bonus (isPersonalTask taskText && includes workspaceName (str "personal"))
      3 (str "personal task classification") in
  let '(s4, r4) :=
    bonus (isWorkTask taskText &&
           (includes workspaceName (str "dkc") || includes workspaceName (str "dkdev")))
      3 (str "work task classification") in
  let score := s0 + s1 + s2 + s3 + s4 in
  let '(s5, r5) :=
    bonus (includes workspaceName (str "personal") && Nat.eqb score 0)
      1 (str "default personal workspace") in
  let reasons := r0 ++ r1 ++ r2 ++ r3 ++ r4 ++ r5 in
  {| total := score + s5;
     reasoning := match join (str ", ") reasons with
                  | [] => str "no specific matches"
                  | joined => joined
                  end |}.

Definition projectScore (taskText : jsstring) (p : Project) : nat :=
  fst (keywordMatches (toLowerCase (p_name p)) (extractKeywords taskText)).

Definition findBestProject (taskText : jsstring) (projects : list Project)
  : option Project :=
  match sortDescending (projectScore taskText) projects with
  | best :: _ => if Nat.ltb 0 (projectScore taskText best) then Some best else None
  | [] => None
  end.

(** The confidence label of a winning score. *)
Definition confidenceLabel (score : nat) : jsstring :=
  if Nat.ltb 3 score then str "high"
  else if Nat.ltb 1 score then str "medium"
  else str "low".

(** [`${task.title} ${task.context || ''}`.toLowerCase()] *)
Definition taskTextOf (task : Task) : jsstring :=
  toLowerCase (title task ++ str " " ++ interpolate (or_else (context task) (JStr []))).

(** [getProjects id] is the answer of the sync client to the one
    project listing [findBestMatch] asks for: [Some projects] for a
    successful listing, [None] for a failed one.  [findBestMatch]
    returns [None] for the TypeError it raises on an empty list of
    workspaces. *)
Definition findBestMatch (getProjects : jsstring -> option (list Project))
    (task : Task) (workspaces : list Workspace) : option Match :=
  let taskText := taskTextOf task in
  let workspaceMatches :=
    sortDescending (fun m => total (wm_score m))
      (map (fun w =>
              let score := calculateWorkspaceScore taskText w in
              {| wm_workspace := w; wm_score := score; wm_reasoning := reasoning score |})
         workspaces) in
  match workspaceMatches with
  | [] => None
  | bestMatch :: _ =>
      let suggestedProject :=
        match getProjects (ws_id (wm_workspace bestMatch)) with
        | Some projects =>
            if Nat.ltb 0 (length projects) then findBestProject taskText projects
            else None
        | None => None
        end in
      Some {| workspace := wm_workspace bestMatch;
              project := suggestedProject;
              match_confidence := confidenceLabel (total (wm_score bestMatch));
              match_reasoning := wm_reasoning bestMatch |}
  end.

End WithBuiltins.

End WorkspaceMatcher.

(** ** The queue entry and the two queue stores *)

Definition Time := N.

Inductive Status : Type := pending | processing | editing | completed | failed.

Definition Status_eqb (a b : Status) : bool :=
  match a, b with
  | pending, pending | processing, processing | editing, editing
  | completed, completed | failed, failed => true
  | _, _ => false
  end.

Record Suggestion : Type := {
  s_task : Task;
  s_workspace : Workspace;
  s_project : option Project;
  s_confidence : jsstring;
  s_reasoning : jsstring
}.

(** A row of [task_queue] (an element of tasks.json for the local store).
    [None] is a field that is [null] or absent. *)
Record QueueEntry : Type := {
  id : jsstring;
  slack_message_ts : jsstring;
  slack_channel_id : jsstring;
  slack_user_id : jsstring;
  extracted_tasks : list Task;
  workspace_suggestions : option (list Suggestion);
  retry_count : option nat;
  status : Status;
  error_message : option jsstring;
  created_at : Time;
  last_attempt : option Time
}.

(** The partial object passed to [updateTaskQueue]. *)
Record Updates : Type := {
  u_status : option Status;
  u_error_message : option jsstring;
  u_retry_count : option nat;
  u_extracted_tasks : option (list Task);
  u_workspace_suggestions : option (list Suggestion)
}.


Module Queue.

Definition override (A : Type) (new : option A) (old : A) : A :=
  match new with Some a => a | None => old end.

Definition overrideOpt (A : Type) (new : option A) (old : option A) : option A :=
  match new with Some a => Some a | None => old end.

(** [{ ...entry, ...updates, last_attempt: now }] *)
Definition merge (entry : QueueEntry) (updates : Updates) (now : Time) : QueueEntry :=
  {| id := id entry;
     slack_message_ts := slack_message_ts entry;
     slack_channel_id := slack_channel_id entry;
     slack_user_id := slack_user_id entry;
     extracted_tasks := override (u_extracted_tasks updates) (extracted_tasks entry);
     workspace_suggestions :=
       overrideOpt (u_workspace_suggestions updates) (workspace_suggestions entry);
     retry_count := overrideOpt (u_retry_count updates) (retry_count entry);
     status := override (u_status updates) (status entry);
     error_message := overrideOpt (u_error_message updates) (error_message entry);
     created_at := created_at entry;
     last_attempt := Some now |}.

(** [entry.retry_count || 0] *)
Definition retries (entry : QueueEntry) : nat :=
  match retry_count entry with Some n => n | None => 0 end.

Definition hasKey (messageTs channelId : jsstring) (entry : QueueEntry) : bool :=
  Js.eqb (slack_message_ts entry) messageTs && Js.eqb (slack_channel_id entry) channelId.

Definition hasId (i : jsstring) (entry : QueueEntry) : bool := Js.eqb (id entry) i.

(** [a] was created no later than [b]. *)
Definition olderOrSame (a b : QueueEntry) : Prop := (created_at a <= created_at b)%N.

(** A list of entries in creation order, oldest first. *)
Definition inCreationOrder (entries : list QueueEntry) : Prop :=
  StronglySorted olderOrSame entries.

End Queue.

(** The relational store: the queries of [SupabaseService] on the rows of
    [task_queue]. *)
Module SupabaseService.

(** [.eq('status', 'pending').lt('retry_count', 3)]: a row whose
    [retry_count] is NULL does not satisfy the comparison. *)
Definition isRetryable (row : QueueEntry) : bool :=
  Status_eqb (status row) pending &&
  match retry_count row with Some n => Nat.ltb n 3 | None => false end.

(** [.order('created_at', { ascending: true })] *)
Definition oldestFirst (rows : list QueueEntry) : list QueueEntry :=
  sortBy (fun a b => N.leb (created_at a) (created_at b)) rows.

Definition getPendingTasks (rows : list QueueEntry) (limit : nat) : list QueueEntry :=
  firstn limit (oldestFirst (filter isRetryable rows)).

(** [.update({...updates, last_attempt: now}).eq('id', id)]: every row
    with that id is rewritten. *)
Definition updateRows (i : jsstring) (updates : Updates) (now : Time)
    (rows : list QueueEntry) : list QueueEntry :=
  map (fun row => if Queue.hasId i row then Queue.merge row updates now else row) rows.

(** [.select().single()]: the row, when exactly one was selected. *)
Definition single (A : Type) (rows : list A) : option A :=
  match rows with [row] => Some row | _ => None end.

End SupabaseService.

(** The flat-file store: the operations of [LocalStorageService] on the
    array kept in tasks.json. *)
Module LocalStorageService.

Definition isRetryable (t : QueueEntry) : bool :=
  Status_eqb (status t) pending && Nat.ltb (Queue.retries t) 3.

(** [tasks.filter(...).slice(0, limit)] *)
Definition getPendingTasks (tasks : list QueueEntry) (limit : nat) : list QueueEntry :=
  firstn limit (filter isRetryable tasks).

(** [tasks.find(...)]: the first element with that key. *)
Definition getTaskByMessage (tasks : list QueueEntry) (messageTs channelId : jsstring)
  : option QueueEntry :=
  find (Queue.hasKey messageTs channelId) tasks.

(** [tasks.findIndex(t => t.id === id)] followed by the replacement of
    that element; [None] when no element has the id. *)
Fixpoint updateFirst (i : jsstring) (updates : Updates) (now : Time)
    (tasks : list QueueEntry) : option (list QueueEntry * QueueEntry) :=
  match tasks with
  | [] => None
  | t :: rest =>
      if Queue.hasId i t then
        let t' := Queue.merge t updates now in Some (t' :: rest, t')
      else
        match updateFirst i updates now rest with
        | Some (rest', t') => Some (t :: rest', t')
        | None => None
        end
  end.

(** The object passed to [addToTaskQueue] by the mention handler. *)
Record TaskData : Type := {
  td_slack_message_ts : jsstring;
  td_slack_channel_id : jsstring;
  td_slack_user_id : jsstring;
  td_extracted_tasks : list Task;
  td_workspace_suggestions : list Suggestion
}.

(** [{ id: Date.now().toString(), ...taskData, created_at: now,
       status: 'pending' }] pushed at the end of the array. *)
Definition addToTaskQueue (tasks : list QueueEntry) (taskData : TaskData) (now : Time)
  : list QueueEntry * QueueEntry :=
  let newTask :=
    {| id := decimal (Z.of_N now);
       slack_message_ts := td_slack_message_ts taskData;
       slack_channel_id := td_slack_channel_id taskData;
       slack_user_id := td_slack_user_id taskData;
       extracted_tasks := td_extracted_tasks taskData;
       workspace_suggestions := Some (td_workspace_suggestions taskData);
       retry_count := None;
       status := pending;
       error_message := None;
       created_at := now;
       last_attempt := None |} in
  (tasks ++ [newTask], newTask).

End LocalStorageService.

(** ** The outside world and the state of the bot *)

(** The options object of [createTask]; [JUndefined] is an absent key. *)
Record Options : Type := {
  opt_workspaceId : JsValue;
  opt_projectId : JsValue;
  opt_assigneeId : JsValue
}.

Definition noOptions : Options :=
  {| opt_workspaceId := JUndefined; opt_projectId := JUndefined;
     opt_assigneeId := JUndefined |}.

(** What [mapPriority] finds for a priority: one of the three levels, or,
    for the keys [constructor] and [__proto__], what the lookup reaches
    on the prototype of the object literal [priorityMap]. *)
Inductive MappedPriority : Type :=
| Level (level : jsstring)
| ObjectConstructor
| ObjectPrototype.

(** The body of [POST /tasks]. *)
Record MotionTask : Type := {
  mt_name : jsstring;
  mt_description : JsValue;
  mt_workspaceId : JsValue;
  mt_projectId : JsValue;
  mt_assigneeId : JsValue;
  mt_priority : MappedPriority;
  mt_status : jsstring;
  mt_dueDate : option jsstring
}.

(** The answer to a request: the [id] of [response.data], or the rejection
    with its message and, when a response arrived, its HTTP status. *)
Inductive HttpResponse : Type :=
| HttpOk (dataId : JsValue)
| HttpError (message : jsstring) (httpStatus : option Z).

(** The texts the handlers send to the chat, by template. *)
Inductive Notice : Type :=
| CouldNotFind (action : jsstring)
    (** Could not find tasks to [action]. They may have already been processed. *)
| ErrorProcessing            (** Error processing tasks. *)
| TasksCancelled             (** Tasks cancelled. *)
| Creating (n : nat)         (** Creating [n] task(s) in Motion... *)
| SuccessfullyCreated (successful failedCount : nat)
    (** Successfully created [successful] task(s) in Motion!
        and, when [failedCount > 0], [failedCount] task(s) failed to sync. *)
| FailedTasks (lines : list (jsstring * jsstring))
    (** Failed tasks: one line [title: error] per failed task *)
| QueuedForRetry
    (** Failed to sync tasks to Motion. They've been queued for retry. *)
| ErrorCreating (message : jsstring)   (** Error creating tasks: [message] *)
| CouldNotFindToCreate       (** Could not find tasks to create. *)
| TasksAlready (created : bool)
    (** Tasks already created. / Tasks already being processed. *)
| NoSuggestions              (** No workspace suggestions available. *)
| SyncFailed (error : jsstring)
    (** Failed to sync tasks to Motion. Error: [error] *).

(** A call of the Slack client. *)
Inductive SlackCall : Type :=
| Ack
| PostMessage (channel : jsstring) (text : Notice) (thread_ts : option jsstring)
| ChatUpdate (channel ts : jsstring) (text : Notice).

(** The result of running a piece of code: a value, or an exception. *)
Inductive Outcome (A : Type) : Type :=
| Returned (a : A)
| Thrown (e : Error).
Arguments Returned {A} a.
Arguments Thrown {A} e.

(** What the bot does not control: the Motion REST API, the Slack Web API,
    the clock and the process environment.  A request changes the world and
    yields the answer the world gives. *)
Class Environment : Type := {
  World : Type;
  motionPostTask : MotionTask -> World -> HttpResponse * World;
  slackCall : SlackCall -> World -> Outcome jsstring * World;
  dateNow : World -> Time * World;
  (** [parseDueDate(s).toISOString()], which reads the calendar *)
  parseDueDate : JsValue -> World -> option jsstring;
  (** [process.env.MOTION_WORKSPACE_ID] *)
  MOTION_WORKSPACE_ID : JsValue;
  (** the message of the error [.single()] reports when it did not select
      exactly one row *)
  singleRowError : jsstring
}.

Record ChannelMapping : Type := {
  cm_slack_channel_id : jsstring;
  cm_slack_workspace_id : jsstring;
  cm_motion_project_id : JsValue
}.

Record HistoryRecord : Type := {
  h_slack_message_ts : jsstring;
  h_slack_channel_id : jsstring;
  h_extracted_tasks : list Task;
  h_motion_task_ids : list JsValue;
  h_success : bool
}.

(** The result of [createTask] and of the callback of [createMultipleTasks]. *)
Inductive CreateResult : Type :=
| Created (motionTaskId : JsValue) (at_ : Time)
| Failed (operation error : jsstring) (httpStatus : option Z)
         (taskData : Task) (options : Options) (timestamp : Time)
| Caught (error : jsstring) (task : Task).

(** [r.success] *)
Definition success (r : CreateResult) : bool :=
  match r with Created _ _ => true | _ => false end.

Definition errorOf (r : CreateResult) : jsstring :=
  match r with
  | Created _ _ => []
  | Failed _ e _ _ _ _ => e
  | Caught e _ => e
  end.

(** The object [createMultipleTasks] returns. *)
Record BatchResult : Type := {
  batch_success : bool;
  batch_total : nat;
  batch_successful : nat;
  batch_failed : nat;
  batch_results : list CreateResult;
  batch_failed_tasks : list CreateResult
}.

Section Bot.
Context `{Builtins} `{Environment}.

(** The state a handler runs in: the world, the stored tables, and the
    requests sent so far (most recent last). *)
Record Sys : Type := {
  world : World;
  task_queue : list QueueEntry;
  channel_mappings : list ChannelMapping;
  task_history : list HistoryRecord;
  slack_calls : list SlackCall;
  motion_requests : list MotionTask
}.

Definition withWorld (s : Sys) (w : World) : Sys :=
  {| world := w; task_queue := task_queue s; channel_mappings := channel_mappings s;
     task_history := task_history s; slack_calls := slack_calls s;
     motion_requests := motion_requests s |}.

Definition withQueue (s : Sys) (q : list QueueEntry) : Sys :=
  {| world := world s; task_queue := q; channel_mappings := channel_mappings s;
     task_history := task_history s; slack_calls := slack_calls s;
     motion_requests := motion_requests s |}.

(** *** A state and exception monad for the asynchronous code *)

Definition M (A : Type) : Type := Sys -> Outcome A * Sys.

Definition ret (A : Type) (a : A) : M A := fun s => (Returned a, s).

Definition throw (A : Type) (e : Error) : M A := fun s => (Thrown e, s).

Definition bind (A B : Type) (m : M A) (k : A -> M B) : M B :=
  fun s =>
    match m s with
    | (Returned a, s') => k a s'
    | (Thrown e, s') => (Thrown e, s')
    end.

(** [try { m } catch (e) { handler e }] *)
Definition tryCatch (A : Type) (m : M A) (handler : Error -> M A) : M A :=
  fun s =>
    match m s with
    | (Returned a, s') => (Returned a, s')
    | (Thrown e, s') => handler e s'
    end.

Definition getQueue : M (list QueueEntry) := fun s => (Returned (task_queue s), s).

Definition putQueue (q : list QueueEntry) : M unit :=
  fun s => (Returned tt, withQueue s q).

(** [new Date()] *)
Definition now : M Time :=
  fun s => let (t, w) := dateNow (world s) in (Returned t, withWorld s w).

(** A call of the Slack client: recorded, then answered by the world.
    The value is the [ts] of the response. *)
Definition slack (call : SlackCall) : M jsstring :=
  fun s =>
    let (answer, w) := slackCall call (world s) in
    (answer,
     {| world := w; task_queue := task_queue s; channel_mappings := channel_mappings s;
        task_history := task_history s; slack_calls := slack_calls s ++ [call];
        motion_requests := motion_requests s |}).

(** [this.client.post('/tasks', motionTask)] *)
Definition post (motionTask : MotionTask) : M HttpResponse :=
  fun s =>
    let (answer, w) := motionPostTask motionTask (world s) in
    (Returned answer,
     {| world := w; task_queue := task_queue s; channel_mappings := channel_mappings s;
        task_history := task_history s; slack_calls := slack_calls s;
        motion_requests := motion_requests s ++ [motionTask] |}).

Fixpoint mapM (A B : Type) (f : A -> M B) (l : list A) : M (list B) :=
  match l with
  | [] => ret []
  | a :: l' => bind (f a) (fun b => bind (mapM f l') (fun bs => ret (b :: bs)))
  end.

End Bot.

Arguments ret {_ A} a.
Arguments throw {_ A} e.
Arguments bind {_ A B} m k.
Arguments tryCatch {_ A} m handler.
Arguments mapM {_ A B} f l.

Notation "x <- m ;; k" := (bind m (fun x => k))
  (at level 61, m at next level, right associativity).
Notation "m ;;; k" := (bind m (fun _ => k))
  (at level 61, right associativity).

(** ** MotionService: the sync client *)

Module MotionService.
Section WithEnvironment.
Context `{Builtins} `{Environment}.

(** [priorityMap[priority.toLowerCase()] || 'MEDIUM']; a value that is
    not a string has no [toLowerCase].  The lookup also reaches the
    properties the object literal inherits: of those, [constructor] and
    [__proto__] are the two whose names are their own lower case, and
    both are truthy. *)
Definition mapPriority (p : JsValue) : M MappedPriority :=
  match p with
  | JStr s =>
      let key := toLowerCase s in
      ret (if Js.eqb key (str "high") then Level (str "HIGH")
           else if Js.eqb key (str "medium") then Level (str "MEDIUM")
           else if Js.eqb key (str "low") then Level (str "LOW")
           else if Js.eqb key (str "constructor") then ObjectConstructor
           else if Js.eqb key (str "__proto__") then ObjectPrototype
           else Level (str "MEDIUM"))
  | _ => throw (TypeError (str "priority.toLowerCase is not a function"))
  end.

(** The [error] field [handleError] reports. *)
Definition errorText (message : jsstring) (httpStatus : option Z) : jsstring :=
  match httpStatus with
  | Some 429%Z => str "Rate limit exceeded"
  | Some 401%Z => str "Invalid API key or authentication failed"
  | Some 403%Z => str "Insufficient permissions"
  | Some 404%Z => str "Resource not found"
  | _ => message
  end.

Definition handleError (operation message : jsstring) (httpStatus : option Z)
    (taskData : Task) (options : Options) : M CreateResult :=
  timestamp <- now ;;
  ret (Failed operation (errorText message httpStatus) httpStatus
         taskData options timestamp).

(** [const { key = fallback } = options] *)
Definition orDefault (v fallback : JsValue) : JsValue :=
  match v with JUndefined => fallback | _ => v end.

Definition createTask (taskData : Task) (options : Options) : M CreateResult :=
  let workspaceId := orDefault (opt_workspaceId options) MOTION_WORKSPACE_ID in
  let projectId := orDefault (opt_projectId options) JNull in
  let assigneeId := orDefault (opt_assigneeId options) JNull in
  mapped <- mapPriority (or_else (priority taskData) (JStr (str "medium"))) ;;
  dueDate <- (fun s =>
                (Returned (if truthy (due_date taskData)
                           then parseDueDate (due_date taskData) (world s)
                           else None), s)) ;;
  let motionTask :=
    {| mt_name := title taskData;
       mt_description := or_else (context taskData) (JStr []);
       mt_workspaceId := workspaceId;
       mt_projectId := projectId;
       mt_assigneeId := assigneeId;
       mt_priority := mapped;
       mt_status := str "TODO";
       mt_dueDate := dueDate |} in
  response <- post motionTask ;;
  match response with
  | HttpOk dataId => created <- now ;; ret (Created dataId created)
  | HttpError message httpStatus =>
      handleError (str "createTask") message httpStatus taskData options
  end.

(** The callback mapped over a batch. *)
Definition createInBatch (options : Options) (task : Task) : M CreateResult :=
  tryCatch (createTask task options) (fun error => ret (Caught (message error) task)).

Definition batchSize : nat := 10.

(** The loop [for (i = 0; i < tasks.length; i += batchSize)]: [tasks] is
    what remains from index [i] on, [results] what was pushed so far.
    The callbacks of one batch are started together by [batch.map] and
    run concurrently, each after a wait of 100 ms more than the one
    before it; their requests may then be held by the interceptor of
    [setupRateLimiting] and leave in another order than the tasks.  The
    model runs the callbacks one after the other in index order, which is
    one of the schedules the runtime allows; what is proved of the
    requests of a batch is stated up to their order ([requested]).  The
    results are collected in index order by [Promise.all] under every
    schedule; the waits themselves are not modelled. *)
Equations? createBatches (tasks : list Task) (options : Options)
    (results : list CreateResult) : M (list CreateResult)
    by wf (length tasks) lt :=
  createBatches [] options results := ret results;
  createBatches (task :: rest) options results :=
    batchResults <- mapM (createInBatch options) (firstn batchSize (task :: rest)) ;;
    createBatches (skipn batchSize (task :: rest)) options (results ++ batchResults).
Proof.
  change (length (skipn 9 rest) < S (length rest)).
  rewrite length_skipn. lia.
Qed.

Definition createMultipleTasks (tasks : list Task) (options : Options) : M BatchResult :=
  results <- createBatches tasks options [] ;;
  let successful := filter (fun r => success r) results in
  let failedResults := filter (fun r => negb (success r)) results in
  ret {| batch_success := Nat.eqb (length failedResults) 0;
         batch_total := length results;
         batch_successful := length successful;
         batch_failed := length failedResults;
         batch_results := results;
         batch_failed_tasks := failedResults |}.

End WithEnvironment.
End MotionService.

(** ** handlers/batch.js: approval, rejection and the retry sweep, on the
    relational store

    The methods of the store are those of a store that answers every
    request: a method throws on the row count of [.single()] only.  The
    handlers over methods that also throw on an error of the store itself
    are in [Fallible], further down. *)

Inductive Action : Type := approve | reject.

Definition actionName (a : Action) : jsstring :=
  match a with approve => str "approve" | reject => str "reject" end.

Module Batch.
Section WithEnvironment.
Context `{Builtins} `{Environment}.

(** [supabaseService.updateTaskQueue(id, updates)] *)
Definition updateTaskQueue (i : jsstring) (updates : Updates) : M QueueEntry :=
  stamp <- now ;;
  rows <- getQueue ;;
  let rows' := SupabaseService.updateRows i updates stamp rows in
  putQueue rows' ;;;
  match SupabaseService.single (filter (Queue.hasId i) rows') with
  | Some row => ret row
  | None => throw (ErrorOf (str "Failed to update task queue: " ++ singleRowError))
  end.

(** [supabaseService.getPendingTasks(limit)] *)
Definition getPendingTasks (limit : nat) : M (list QueueEntry) :=
  rows <- getQueue ;;
  ret (SupabaseService.getPendingTasks rows limit).

(** [supabaseService.getChannelMapping(channelId, workspaceId)]: the
    mapping, or [null] when [.single()] did not select exactly one. *)
Definition getChannelMapping (channelId workspaceId : jsstring)
  : M (option ChannelMapping) :=
  fun s =>
    (Returned
       (SupabaseService.single
          (filter (fun m => Js.eqb (cm_slack_channel_id m) channelId
                            && Js.eqb (cm_slack_workspace_id m) workspaceId)
             (channel_mappings s))), s).

(** [supabaseService.addTaskHistory(historyData)] *)
Definition addTaskHistory (record : HistoryRecord) : M unit :=
  fun s =>
    (Returned tt,
     {| world := world s; task_queue := task_queue s;
        channel_mappings := channel_mappings s;
        task_history := task_history s ++ [record];
        slack_calls := slack_calls s; motion_requests := motion_requests s |}).

(** [(queuedTasks.retry_count || 0) + 1] *)
Definition nextRetry (entry : QueueEntry) : nat := Queue.retries entry + 1.

Definition motionTaskIds (results : list CreateResult) : list JsValue :=
  flat_map (fun r => match r with Created i _ => [i] | _ => [] end) results.

(** [`${ft.task.title}: ${ft.error}`]: only the result built by the
    callback of [createMultipleTasks] has a [task] with a [title]; the
    result of [handleError] has none, and reading its title raises a
    TypeError. *)
Definition failedLine (ft : CreateResult) : M (jsstring * jsstring) :=
  match ft with
  | Caught e t => ret (title t, e)
  | _ => throw (TypeError (str "Cannot read properties of undefined (reading 'title')"))
  end.

Definition handleTaskRejection (queuedTasks : QueueEntry)
    (channelId messageTs : jsstring) : M unit :=
  tryCatch
    (updateTaskQueue (id queuedTasks)
       {| u_status := Some failed;
          u_error_message := Some (str "Rejected by user");
          u_retry_count := None; u_extracted_tasks := None;
          u_workspace_suggestions := None |} ;;;
     slack (PostMessage channelId TasksCancelled (Some messageTs)) ;;;
     ret tt)
    (fun _ => ret tt).

Definition handleTaskApproval (queuedTasks : QueueEntry)
    (channelId messageTs : jsstring) : M unit :=
  tryCatch
    (updateTaskQueue (id queuedTasks)
       {| u_status := Some processing; u_error_message := None;
          u_retry_count := None; u_extracted_tasks := None;
          u_workspace_suggestions := None |} ;;;
     processingTs <-
       slack (PostMessage channelId (Creating (length (extracted_tasks queuedTasks)))
                (Some messageTs)) ;;
     channelMapping <- getChannelMapping channelId (str "workspace") ;;
     let motionOptions :=
       {| opt_workspaceId := MOTION_WORKSPACE_ID;
          opt_projectId :=
            match channelMapping with
            | Some m => or_else (cm_motion_project_id m) JNull
            | None => JNull
            end;
          opt_assigneeId := JUndefined |} in
     motionResult <-
       MotionService.createMultipleTasks (extracted_tasks queuedTasks) motionOptions ;;
     if batch_success motionResult then
       updateTaskQueue (id queuedTasks)
         {| u_status := Some completed; u_error_message := None;
            u_retry_count := None; u_extracted_tasks := None;
            u_workspace_suggestions := None |} ;;;
       addTaskHistory
         {| h_slack_message_ts := messageTs;
            h_slack_channel_id := channelId;
            h_extracted_tasks := extracted_tasks queuedTasks;
            h_motion_task_ids := motionTaskIds (batch_results motionResult);
            h_success := true |} ;;;
       slack (ChatUpdate channelId processingTs
                (SuccessfullyCreated (batch_successful motionResult)
                   (batch_failed motionResult))) ;;;
       if Nat.ltb 0 (batch_failed motionResult) then
         lines <- mapM failedLine (batch_failed_tasks motionResult) ;;
         slack (PostMessage channelId (FailedTasks lines) (Some messageTs)) ;;;
         ret tt
       else ret tt
     else
       updateTaskQueue (id queuedTasks)
         {| u_status := Some failed;
            u_error_message := Some (str "Motion API error");
            u_retry_count := Some (nextRetry queuedTasks);
            u_extracted_tasks := None; u_workspace_suggestions := None |} ;;;
       slack (ChatUpdate channelId processingTs QueuedForRetry) ;;;
       ret tt)
    (fun error =>
       updateTaskQueue (id queuedTasks)
         {| u_status := Some failed;
            u_error_message := Some (message error);
            u_retry_count := Some (nextRetry queuedTasks);
            u_extracted_tasks := None; u_workspace_suggestions := None |} ;;;
       slack (PostMessage channelId (ErrorCreating (message error)) (Some messageTs)) ;;;
       ret tt).

(** The query of [handleBatch]: the pending row with that key, when
    there is exactly one. *)
Definition pendingByKey (messageTs channelId : jsstring) (rows : list QueueEntry)
  : option QueueEntry :=
  SupabaseService.single
    (filter (fun row => Queue.hasKey messageTs channelId row
                        && Status_eqb (status row) pending) rows).

(** [supabaseService.supabase]: the default export of supabase.js is
    [new SupabaseService()], and the class gives its instances no
    [supabase] property (the client is a constant of that module), so the
    read yields [undefined], here [None]. *)
Definition supabaseOfService : option unit := None.

(** [handleBatch] builds its query on [supabaseService.supabase]: the
    call of [.from] on [undefined] raises a TypeError inside the [try]. *)
Definition handleBatch (action : Action) (messageTs channelId : jsstring) : M unit :=
  tryCatch
    (match supabaseOfService with
     | None =>
         throw (TypeError (str "Cannot read properties of undefined (reading 'from')"))
     | Some _ =>
         rows <- getQueue ;;
         match pendingByKey messageTs channelId rows with
         | None =>
             slack (PostMessage channelId (CouldNotFind (actionName action))
                      (Some messageTs)) ;;;
             ret tt
         | Some queuedTasks =>
             match action with
             | reject => handleTaskRejection queuedTasks channelId messageTs
             | approve => handleTaskApproval queuedTasks channelId messageTs
             end
         end
     end)
    (fun _ =>
       slack (PostMessage channelId ErrorProcessing (Some messageTs)) ;;;
       ret tt).

(** The body of the loop of [processRetryQueue] for one entry of the
    list read at the start of the sweep. *)
Definition retryOne (task : QueueEntry) : M unit :=
  if Nat.leb 3 (Queue.retries task) then
    updateTaskQueue (id task)
      {| u_status := Some failed;
         u_error_message := Some (str "Max retries exceeded");
         u_retry_count := None; u_extracted_tasks := None;
         u_workspace_suggestions := None |} ;;;
    ret tt
  else
    tryCatch
      (motionResult <-
         MotionService.createMultipleTasks (extracted_tasks task) noOptions ;;
       if batch_success motionResult then
         updateTaskQueue (id task)
           {| u_status := Some completed; u_error_message := None;
              u_retry_count := None; u_extracted_tasks := None;
              u_workspace_suggestions := None |} ;;;
         ret tt
       else
         updateTaskQueue (id task)
           {| u_status := Some pending;
              u_error_message := Some (str "Motion sync failed");
              u_retry_count := Some (Queue.retries task + 1);
              u_extracted_tasks := None; u_workspace_suggestions := None |} ;;;
         ret tt)
      (fun error =>
         updateTaskQueue (id task)
           {| u_status := Some pending;
              u_error_message := Some (message error);
              u_retry_count := Some (Queue.retries task + 1);
              u_extracted_tasks := None; u_workspace_suggestions := None |} ;;;
         ret tt).

Fixpoint retryEach (pendingTasks : list QueueEntry) : M unit :=
  match pendingTasks with
  | [] => ret tt
  | task :: rest => retryOne task ;;; retryEach rest
  end.

(** One sweep of the background retry processor. *)
Definition processRetryQueue : M unit :=
  tryCatch
    (pendingTasks <- getPendingTasks 5 ;;
     retryEach pendingTasks)
    (fun _ => ret tt).

End WithEnvironment.
End Batch.

(** ** The button handler [approve_tasks] of the local-storage application *)

Module App.
Section WithEnvironment.
Context `{Builtins} `{Environment}.

(** [localStorageService.getTaskByMessage(messageTs, channelId)] *)
Definition getTaskByMessage (messageTs channelId : jsstring) : M (option QueueEntry) :=
  tasks <- getQueue ;;
  ret (LocalStorageService.getTaskByMessage tasks messageTs channelId).

(** [localStorageService.updateTaskQueue(id, updates)] *)
Definition updateTaskQueue (i : jsstring) (updates : Updates) : M QueueEntry :=
  tasks <- getQueue ;;
  if existsb (Queue.hasId i) tasks then
    stamp <- now ;;
    match LocalStorageService.updateFirst i updates stamp tasks with
    | Some (tasks', updated) => putQueue tasks' ;;; ret updated
    | None => throw (ErrorOf (str "Task with id " ++ i ++ str " not found"))
    end
  else throw (ErrorOf (str "Task with id " ++ i ++ str " not found")).

(** [localStorageService.addTaskHistory]: the record is only printed. *)
Definition addTaskHistory (record : HistoryRecord) : M unit := ret tt.

(** The loop over the tasks of the entry: the task at index [i] is
    created in the workspace of the suggestion at index [i], and
    skipped when there is none. *)
Fixpoint createSuggested (tasks : list Task) (suggestions : list Suggestion)
  : M (list CreateResult) :=
  match tasks with
  | [] => ret []
  | task :: rest =>
      match suggestions with
      | [] => createSuggested rest []
      | suggestion :: more =>
          result <-
            MotionService.createTask task
              {| opt_workspaceId := JStr (ws_id (s_workspace suggestion));
                 opt_projectId :=
                   match s_project suggestion with
                   | Some p => or_else (JStr (p_id p)) JNull
                   | None => JNull
                   end;
                 opt_assigneeId := JUndefined |} ;;
          results <- createSuggested rest more ;;
          ret (result :: results)
      end
  end.

Definition approve_tasks (messageTs channelId : jsstring) : M unit :=
  slack Ack ;;;
  tryCatch
    (stored <- getTaskByMessage messageTs channelId ;;
     match stored with
     | None =>
         slack (PostMessage channelId CouldNotFindToCreate (Some messageTs)) ;;;
         ret tt
     | Some storedTask =>
         if negb (Status_eqb (status storedTask) pending) then
           slack (PostMessage channelId
                    (TasksAlready (Status_eqb (status storedTask) completed))
                    (Some messageTs)) ;;;
           ret tt
         else
           updateTaskQueue (id storedTask)
             {| u_status := Some processing; u_error_message := None;
                u_retry_count := None; u_extracted_tasks := None;
                u_workspace_suggestions := None |} ;;;
           processingTs <-
             slack (PostMessage channelId
                      (Creating (length (extracted_tasks storedTask)))
                      (Some messageTs)) ;;
           let workspaceSuggestions :=
             match workspace_suggestions storedTask with
             | Some l => l
             | None => []
             end in
           if Nat.eqb (length workspaceSuggestions) 0 then
             slack (ChatUpdate channelId processingTs NoSuggestions) ;;;
             ret tt
           else
             motionResults <-
               createSuggested (extracted_tasks storedTask) workspaceSuggestions ;;
             let successful := length (filter (fun r => success r) motionResults) in
             let failedCount :=
               length (filter (fun r => negb (success r)) motionResults) in
             if Nat.ltb 0 successful then
               updateTaskQueue (id storedTask)
                 {| u_status := Some completed; u_error_message := None;
                    u_retry_count := None; u_extracted_tasks := None;
                    u_workspace_suggestions := None |} ;;;
               addTaskHistory
                 {| h_slack_message_ts := messageTs;
                    h_slack_channel_id := channelId;
                    h_extracted_tasks := extracted_tasks storedTask;
                    h_motion_task_ids := Batch.motionTaskIds motionResults;
                    h_success := true |} ;;;
               slack (ChatUpdate channelId processingTs
                        (SuccessfullyCreated successful failedCount)) ;;;
               ret tt
             else
               updateTaskQueue (id storedTask)
                 {| u_status := Some failed;
                    u_error_message := Some (str "Motion API error");
                    u_retry_count := None; u_extracted_tasks := None;
                    u_workspace_suggestions := None |} ;;;
               slack (ChatUpdate channelId processingTs
                        (SyncFailed (str "Unknown error"))) ;;;
               ret tt
     end)
    (fun _ => ret tt).

End WithEnvironment.
End App.

(** ** Vocabulary for the properties of the handlers *)

Section Vocabulary.
Context `{Builtins} `{Environment}.

(** [r] is the result of the callback of [createMultipleTasks] on [task],
    run in some state of the bot. *)
Definition producedBy (options : Options) (task : Task) (r : CreateResult) : Prop :=
  exists s s', MotionService.createInBatch options task s = (Returned r, s').

(** Every run of [m] relates the state it starts in to the state it ends
    in by [I], whether it returns or throws. *)
Definition keeps (I : Sys -> Sys -> Prop) (A : Type) (m : M A) : Prop :=
  forall s, I s (snd (m s)).

(** A run that sends nothing to Motion and leaves the stored tables as
    they are. *)
Definition quiet (s s' : Sys) : Prop :=
  task_queue s' = task_queue s
  /\ channel_mappings s' = channel_mappings s
  /\ task_history s' = task_history s
  /\ motion_requests s' = motion_requests s.

(** No entry with id [i] is pending. *)
Definition nonePending (i : jsstring) (s : Sys) : Prop :=
  Forall (fun e => Queue.hasId i e = true -> status e <> pending) (task_queue s).

(** A run that does not bring an entry with id [i] back to pending. *)
Definition staysNotPending (i : jsstring) (s s' : Sys) : Prop :=
  nonePending i s -> nonePending i s'.

(** A run after which the queue has the same entries, under the same ids,
    none of them newly marked [failed]. *)
Definition noNewFailure (s s' : Sys) : Prop :=
  Forall2 (fun e e' => id e' = id e /\ (status e' = failed -> status e = failed))
    (task_queue s) (task_queue s').

End Vocabulary.

(** ** A concrete world, for running the code on examples *)

Module Scenario.

(** Case mapping restricted to ASCII letters. *)
Definition asciiLower (s : jsstring) : jsstring :=
  map (fun c => if (N.leb 65 c && N.leb c 90)%N then (c + 32)%N else c) s.

Definition builtins : Builtins :=
  {| toLowerCase := asciiLower;
     ToNumber := fun v => match v with
                          | JNum z => Some z
                          | JBool true => Some 1%Z
                          | JBool false | JNull => Some 0%Z
                          | _ => None
                          end;
     ToString := fun v => match v with
                          | JStr s => s
                          | JNum z => decimal z
                          | JBool true => str "true"
                          | JBool false => str "false"
                          | JNull => str "null"
                          | JUndefined => str "undefined"
                          | JArr _ => []
                          | JObj _ => str "[object Object]"
                          end |}.

(** A world with a clock and a script for the Motion API: the answers to
    the successive [POST /tasks] requests, [true] for an accepted request
    and [false] for a refused one; once the script is used up, every
    request is refused.  Slack answers every call. *)
Record ScriptedWorld : Type := { clock : N; script : list bool }.

Definition environment : Environment :=
  {| World := ScriptedWorld;
     motionPostTask := fun _ w =>
       match script w with
       | true :: rest =>
           (HttpOk (JStr (str "motion-" ++ decimal (Z.of_N (clock w)))),
            {| clock := clock w; script := rest |})
       | false :: rest =>
           (HttpError (str "Network Error") None, {| clock := clock w; script := rest |})
       | [] => (HttpError (str "Network Error") None, w)
       end;
     slackCall := fun _ w => (Returned (decimal (Z.of_N (clock w))), w);
     dateNow := fun w => (clock w, {| clock := clock w + 1; script := script w |});
     parseDueDate := fun _ _ => None;
     MOTION_WORKSPACE_ID := JStr (str "ws-1");
     singleRowError := str "JSON object requested, multiple (or no) rows returned" |}.

Definition report : Task :=
  {| title := str "Finish the report";
     assignee := JStr (str "Jenny");
     due_date := JStr (str "Friday");
     confidence := JStr (str "high");
     context := JStr [];
     priority := JStr (str "medium");
     estimated_time := JNull |}.

(** A pending entry of [task_queue] holding the one task. *)
Definition entry (i : string) (created : N) (retry : option nat) : QueueEntry :=
  {| id := str i;
     slack_message_ts := str "1700000000.000100";
     slack_channel_id := str "C1";
     slack_user_id := str "U1";
     extracted_tasks := [report];
     workspace_suggestions := None;
     retry_count := retry;
     status := pending;
     error_message := None;
     created_at := created;
     last_attempt := None |}.

Definition suggestion : Suggestion :=
  {| s_task := report;
     s_workspace := {| ws_id := str "ws-1"; ws_name := str "Work" |};
     s_project := None;
     s_confidence := str "low";
     s_reasoning := str "no specific matches" |}.

(** The state of the bot with the given queue, in a world where Motion
    follows the given script. *)
Definition start (answers : list bool) (queue : list QueueEntry)
  : @Sys environment :=
  @Build_Sys environment {| clock := 1000; script := answers |} queue [] [] [] [].

(** The statuses and retry counters of the queue. *)
Definition summary (s : @Sys environment) : list (Status * option nat) :=
  map (fun e => (status e, retry_count e)) (task_queue s).

End Scenario.

(** ** More of the local-storage application: storing, rejecting and
    editing a batch of tasks *)

Module AppActions.
Section WithEnvironment.
Context `{Builtins} `{Environment}.

(** [localStorageService.addToTaskQueue(taskData)]: the array is read, the
    clock is read once for the id and once for the creation time, and the
    new entry is pushed at the end. *)
Definition addToTaskQueue (taskData : LocalStorageService.TaskData) : M QueueEntry :=
  tasks <- getQueue ;;
  idStamp <- now ;;
  created <- now ;;
  let newTask :=
    {| id := decimal (Z.of_N idStamp);
       slack_message_ts := LocalStorageService.td_slack_message_ts taskData;
       slack_channel_id := LocalStorageService.td_slack_channel_id taskData;
       slack_user_id := LocalStorageService.td_slack_user_id taskData;
       extracted_tasks := LocalStorageService.td_extracted_tasks taskData;
       workspace_suggestions :=
         Some (LocalStorageService.td_workspace_suggestions taskData);
       retry_count := None;
       status := pending;
       error_message := None;
       created_at := created;
       last_attempt := None |} in
  putQueue (tasks ++ [newTask]) ;;;
  ret newTask.


End WithEnvironment.
End AppActions.

(** The edit commands of a reply and their application to the tasks of an
    entry and to the suggestions stored beside them. *)
Module TaskEdits.

Inductive EditAction : Type :=
| Remove | ChangeAssignee | ChangeDueDate | ChangeWorkspace
| UnknownAction.

(** A parsed command; [taskIndex] is 0-based. *)
Record EditCommand : Type := {
  action : EditAction;
  taskIndex : Z;
  newValue : jsstring
}.

(** A suggestion of the working copy, with the mark [needsUpdate] a
    workspace change puts on it. *)
Record EditedSuggestion : Type := {
  suggestion : Suggestion;
  needsUpdate : bool
}.

(** [arr[i] = x] for an index within the array. *)
Fixpoint setAt (A : Type) (i : nat) (x : A) (l : list A) : list A :=
  match l, i with
  | [], _ => []
  | _ :: rest, 0 => x :: rest
  | y :: rest, S i' => y :: setAt i' x rest
  end.

Definition withAssignee (t : Task) (v : JsValue) : Task :=
  {| title := title t; assignee := v; due_date := due_date t;
     confidence := confidence t; context := context t; priority := priority t;
     estimated_time := estimated_time t |}.

Definition withDueDate (t : Task) (v : JsValue) : Task :=
  {| title := title t; assignee := assignee t; due_date := v;
     confidence := confidence t; context := context t; priority := priority t;
     estimated_time := estimated_time t |}.

(** [applyEditCommand(command, tasks, suggestions)]: a removed task is
    replaced by [null] ([None]) in the copy of the tasks. *)
Definition applyEditCommand (command : EditCommand)
    (tasks : list (option Task)) (suggestions : list EditedSuggestion)
  : list (option Task) * list EditedSuggestion :=
  let i := taskIndex command in
  if (Z.ltb i 0 || Z.leb (Z.of_nat (length tasks)) i)%bool then (tasks, suggestions)
  else
    let n := Z.to_nat i in
    match action command with
    | Remove => (setAt n None tasks, suggestions)
    | ChangeAssignee =>
        match nth_error tasks n with
        | Some (Some t) =>
            (setAt n (Some (withAssignee t (JStr (newValue command)))) tasks, suggestions)
        | _ => (tasks, suggestions)
        end
    | ChangeDueDate =>
        match nth_error tasks n with
        | Some (Some t) =>
            (setAt n (Some (withDueDate t (JStr (newValue command)))) tasks, suggestions)
        | _ => (tasks, suggestions)
        end
    | ChangeWorkspace =>
        match nth_error suggestions n with
        | Some s =>
            (tasks,
             setAt n {| suggestion := suggestion s; needsUpdate := true |} suggestions)
        | None => (tasks, suggestions)
        end
    | UnknownAction => (tasks, suggestions)
    end.

(** The loop of [handleTaskEditReply] over the commands. *)
Definition applyAll (commands : list EditCommand)
    (tasks : list (option Task)) (suggestions : list EditedSuggestion)
  : list (option Task) * list EditedSuggestion :=
  fold_left (fun acc command => applyEditCommand command (fst acc) (snd acc))
    commands (tasks, suggestions).

(** [editedTasks.filter(task => task !== null)] *)
Fixpoint validTasks (editedTasks : list (option Task)) : list Task :=
  match editedTasks with
  | [] => []
  | Some t :: rest => t :: validTasks rest
  | None :: rest => validTasks rest
  end.

(** [editedSuggestions.filter((_, index) => editedTasks[index] !== null)]:
    a suggestion is dropped when the task at its index was removed; one
    beyond the end of the tasks is kept. *)
Fixpoint validSuggestions (editedTasks : list (option Task))
    (editedSuggestions : list EditedSuggestion) : list EditedSuggestion :=
  match editedSuggestions, editedTasks with
  | [], _ => []
  | s :: rest, None :: tasks => validSuggestions tasks rest
  | s :: rest, Some _ :: tasks => s :: validSuggestions tasks rest
  | s :: rest, [] => s :: validSuggestions [] rest
  end.

(** The working copies [handleTaskEditReply] starts from, the commands
    applied, and the two filters: the [validTasks] and [validSuggestions]
    the handler holds before it writes anything.  What it then writes is
    not part of this: with no task left it marks the entry failed and
    writes neither list; otherwise it writes both, and after a
    [change_workspace] command it may replace the suggestions by
    regenerated ones in a second write. *)
Definition editStored (commands : list EditCommand) (storedTask : QueueEntry)
  : list Task * list EditedSuggestion :=
  let editedTasks := map (@Some Task) (extracted_tasks storedTask) in
  let editedSuggestions :=
    map (fun s => {| suggestion := s; needsUpdate := false |})
      (match workspace_suggestions storedTask with Some l => l | None => [] end) in
  let edited := applyAll commands editedTasks editedSuggestions in
  (validTasks (fst edited), validSuggestions (fst edited) (snd edited)).

End TaskEdits.

(** ** Vocabulary for the further properties *)

Section MoreVocabulary.
Context `{Builtins} `{Environment}.

(** A run that keeps the ids of the queue and leaves every entry whose id
    is not [i] as it is. *)
Definition onlyId (i : jsstring) (s s' : Sys) : Prop :=
  Forall2 (fun e e' => id e' = id e /\ (Queue.hasId i e = false -> e' = e))
    (task_queue s) (task_queue s').

(** Every entry with id [i] is completed, or failed with retry count [n]. *)
Definition settled (i : jsstring) (n : nat) (s : Sys) : Prop :=
  Forall (fun e => Queue.hasId i e = true ->
                   status e = completed \/ (status e = failed /\ retry_count e = Some n))
    (task_queue s).

(** A run that keeps the entries with id [i] settled. *)
Definition staysSettled (i : jsstring) (n : nat) (s s' : Sys) : Prop :=
  settled i n s -> settled i n s'.

(** A run that keeps the ids of the queue and leaves every entry whose id
    is not in [ids] as it is. *)
Definition onlyIds (ids : list jsstring) (s s' : Sys) : Prop :=
  Forall2 (fun e e' => id e' = id e /\ (Js.mem (id e) ids = false -> e' = e))
    (task_queue s) (task_queue s').

(** A run that says nothing to Slack and writes neither history nor
    channel mapping. *)
Definition silent (s s' : Sys) : Prop :=
  slack_calls s' = slack_calls s
  /\ task_history s' = task_history s
  /\ channel_mappings s' = channel_mappings s.

(** A run that keeps the retry counts bounded. *)
Definition staysBounded (s s' : Sys) : Prop :=
  Forall (fun e => Queue.retries e <= 3) (task_queue s) ->
  Forall (fun e => Queue.retries e <= 3) (task_queue s').

(** The updates a sweep writes for an entry it read with its retry count
    below the limit. *)
Definition sweepUpdate (task : QueueEntry) (updates : Updates) : Prop :=
  u_extracted_tasks updates = None
  /\ u_workspace_suggestions updates = None
  /\ ((u_status updates = Some completed /\ u_retry_count updates = None)
      \/ (u_status updates = Some pending
          /\ u_retry_count updates = Some (Queue.retries task + 1))).



(** Whenever [m] returns, it returns in a state where [Q] holds. *)
Definition ensures (A : Type) (m : M A) (Q : Sys -> Prop) : Prop :=
  forall s, match m s with
            | (Returned _, s') => Q s'
            | (Thrown _, _) => True
            end.

(** A run that keeps what identifies an entry and what it carries: the
    queue has the same entries, each with the id, the key, the user, the
    tasks, the suggestions and the creation time it had. *)
Definition sameBatches (s s' : Sys) : Prop :=
  Forall2 (fun e e' =>
             id e' = id e
             /\ slack_message_ts e' = slack_message_ts e
             /\ slack_channel_id e' = slack_channel_id e
             /\ slack_user_id e' = slack_user_id e
             /\ extracted_tasks e' = extracted_tasks e
             /\ workspace_suggestions e' = workspace_suggestions e
             /\ created_at e' = created_at e)
    (task_queue s) (task_queue s').

End MoreVocabulary.

(** ** Vocabulary for the edits of a batch *)

Module EditVocabulary.

(** The elements of [l] at the positions [mask] keeps. *)
Fixpoint select (A : Type) (mask : list bool) (l : list A) : list A :=
  match mask, l with
  | true :: mask', x :: l' => x :: select mask' l'
  | false :: mask', _ :: l' => select mask' l'
  | _, _ => []
  end.

(** [t] is [t0] up to its assignee and its due date. *)
Definition edited (t0 t : Task) : Prop :=
  title t = title t0
  /\ confidence t = confidence t0
  /\ context t = context t0
  /\ priority t = priority t0
  /\ estimated_time t = estimated_time t0.

(** A working copy of the tasks of an entry: as many slots as the entry
    has tasks, each either emptied or holding its task, edited. *)
Definition workingCopy (stored : list Task) (editedTasks : list (option Task)) : Prop :=
  Forall2 (fun t0 slot => match slot with
                          | Some t => edited t0 t
                          | None => True
                          end) stored editedTasks.

(** The slots of a working copy that still hold a task. *)
Definition keptSlots (editedTasks : list (option Task)) : list bool :=
  map (fun slot => match slot with Some _ => true | None => false end) editedTasks.

End EditVocabulary.

(** ** Vocabulary for the requests sent to Motion *)

Section RequestVocabulary.
Context `{Builtins} `{Environment}.

(** The priority of the task is absent, empty, or a string. *)
Definition usablePriority (task : Task) : bool :=
  negb (truthy (priority task)) || isString (priority task).

(** [r] is a request for [task] under [options]. *)
Definition requestFor (options : Options) (task : Task) (r : MotionTask) : Prop :=
  mt_name r = title task
  /\ mt_description r = or_else (context task) (JStr [])
  /\ mt_workspaceId r = MotionService.orDefault (opt_workspaceId options) MOTION_WORKSPACE_ID
  /\ mt_projectId r = MotionService.orDefault (opt_projectId options) JNull
  /\ mt_assigneeId r = MotionService.orDefault (opt_assigneeId options) JNull
  /\ mt_status r = str "TODO".

(** From [s] to [s'], one request was sent for each task of [tasks] that
    has a usable priority, in the order of the tasks, and no other: what
    the schedule of the model gives.  The order is that of the model, not
    of the code; see [requested]. *)
Definition sent (options : Options) (tasks : list Task) (s s' : Sys) : Prop :=
  exists requests,
    motion_requests s' = motion_requests s ++ requests
    /\ Forall2 (requestFor options) (filter usablePriority tasks) requests.

(** [r] answers for [task]: the result of the callback's own handler when
    the task has no usable priority, the result of [createTask] when it
    has one. *)
Definition answers (task : Task) (r : CreateResult) : Prop :=
  match r with
  | Caught _ t => usablePriority task = false /\ t = task
  | Created _ _ => usablePriority task = true
  | Failed _ _ _ t _ _ => usablePriority task = true /\ t = task
  end.

End RequestVocabulary.

(** ** Vocabulary for what an approval reports *)

Section ReportVocabulary.
Context `{Builtins} `{Environment}.

Definition noticeOf (call : SlackCall) : option Notice :=
  match call with
  | Ack => None
  | PostMessage _ text _ => Some text
  | ChatUpdate _ _ text => Some text
  end.

(** A call that is not the list of failed tasks and, when it announces
    the creation, announces all the tasks of the entry and no failure. *)
Definition plainCall (queuedTasks : QueueEntry) (call : SlackCall) : Prop :=
  match noticeOf call with
  | Some (FailedTasks _) => False
  | Some (SuccessfullyCreated successful failedCount) =>
      successful = length (extracted_tasks queuedTasks) /\ failedCount = 0
  | _ => True
  end.

(** A record of success for the message, with the tasks of the entry and
    one Motion id for each. *)
Definition fullRecord (queuedTasks : QueueEntry) (channelId messageTs : jsstring)
    (record : HistoryRecord) : Prop :=
  h_success record = true
  /\ h_slack_message_ts record = messageTs
  /\ h_slack_channel_id record = channelId
  /\ h_extracted_tasks record = extracted_tasks queuedTasks
  /\ length (h_motion_task_ids record) = length (extracted_tasks queuedTasks).

(** From [s] to [s'], only plain calls went to Slack and only full records
    into the history. *)
Definition reports (queuedTasks : QueueEntry) (channelId messageTs : jsstring)
    (s s' : Sys) : Prop :=
  exists calls records,
    slack_calls s' = slack_calls s ++ calls
    /\ task_history s' = task_history s ++ records
    /\ Forall (plainCall queuedTasks) calls
    /\ Forall (fullRecord queuedTasks channelId messageTs) records.

(** What is known of a batch result that reports success. *)
Definition wholeBatch (tasks : list Task) (r : BatchResult) : Prop :=
  batch_success r = true ->
  batch_failed r = 0
  /\ batch_successful r = length tasks
  /\ length (Batch.motionTaskIds (batch_results r)) = length tasks.

End ReportVocabulary.

(** ** src/utils/parser.js and the validation utilities: texts for Slack *)

Module Texts.

(** [s.substring(0, n)] for an integer [n]; a negative [n] counts as 0. *)
Definition substringTo (n : Z) (s : jsstring) : jsstring := firstn (Z.to_nat n) s.

(** [truncateText(text, maxLength)] for a string and an integer. *)
Definition truncateText (text : jsstring) (maxLength : Z) : jsstring :=
  if negb (truthy (JStr text)) || Z.leb (Z.of_nat (length text)) maxLength
  then text
  else substringTo (maxLength - 3) text ++ str "...".

(** [s.replace(/c/g, by)] for a one-character pattern and a replacement
    without [$]. *)
Definition replaceAll (c : N) (by_ : jsstring) (s : jsstring) : jsstring :=
  flat_map (fun d => if N.eqb d c then by_ else [d]) s.

Definition AMP : N := 38%N.
Definition LT : N := 60%N.

(** [sanitizeForSlack(text)] for a string. *)
Definition sanitizeForSlack (text : jsstring) : jsstring :=
  if negb (truthy (JStr text)) then []
  else trim (replaceAll Parser.GT (str "&gt;")
               (replaceAll LT (str "&lt;")
                  (replaceAll AMP (str "&amp;") text))).

(** [sanitizeInput(input, maxLength)]: [replace(/[<>]/g, '')] drops the
    two characters. *)
Definition sanitizeInput (input : JsValue) (maxLength : Z) : jsstring :=
  match input with
  | JStr s =>
      filter (fun c => negb (N.eqb c LT || N.eqb c Parser.GT))
        (substringTo maxLength (trim s))
  | _ => []
  end.

End Texts.

(** ** Vocabulary for the report of a batch validation *)

Section ValidationVocabulary.
Context `{Builtins}.

(** The task is an object [validateTask] finds valid. *)
Definition passes (task : JsValue) : bool :=
  match Validation.validateTask task with
  | Some r => Validation.valid r
  | None => false
  end.

(** [null] or [undefined]. *)
Definition nullish (v : JsValue) : Prop := v = JNull \/ v = JUndefined.

End ValidationVocabulary.

(** ** The validation utilities: the in-memory rate limiter *)

Module RateLimit.

(** [rateLimitCheck.cache]: a [Map] from keys to arrays of timestamps,
    in insertion order. *)
Definition Cache : Type := list (jsstring * list Z).

(** [`${userId}:${action}`] for two strings. *)
Definition keyOf (userId action : jsstring) : jsstring := userId ++ str ":" ++ action.

(** [cache.has(key)] *)
Definition has (key : jsstring) (cache : Cache) : bool :=
  existsb (fun entry => Js.eqb (fst entry) key) cache.

(** [cache.get(key)] for a key the cache has. *)
Fixpoint get (key : jsstring) (cache : Cache) : list Z :=
  match cache with
  | [] => []
  | (k, v) :: rest => if Js.eqb k key then v else get key rest
  end.

(** [cache.set(key, value)] *)
Fixpoint set (key : jsstring) (value : list Z) (cache : Cache) : Cache :=
  match cache with
  | [] => [(key, value)]
  | (k, v) :: rest =>
      if Js.eqb k key then (k, value) :: rest else (k, v) :: set key value rest
  end.

(** The object returned: [{ allowed: true, remaining }] or
    [{ allowed: false, retryAfter }]; [retryAfter] is [None] for the NaN
    computed from an empty array. *)
Inductive Verdict : Type :=
| Allowed (remaining : Z)
| Denied (retryAfter : option Z).

Definition allowed (v : Verdict) : bool :=
  match v with Allowed _ => true | Denied _ => false end.

(** [Math.ceil(x / 1000)] for an integer [x]. *)
Definition ceilSeconds (x : Z) : Z := (- ((- x) / 1000))%Z.

(** [rateLimitCheck(userId, action, windowMs, maxRequests)] called when
    [Date.now()] is [now], with the cache passed explicitly. *)
Definition rateLimitCheck (cache : Cache) (userId action : jsstring)
    (now windowMs maxRequests : Z) : Verdict * Cache :=
  let key := keyOf userId action in
  let cache1 := if has key cache then cache else set key [] cache in
  let requests := get key cache1 in
  let validRequests := filter (fun timestamp => Z.ltb (now - timestamp) windowMs) requests in
  if Z.leb maxRequests (Z.of_nat (length validRequests)) then
    (Denied match validRequests with
            | first :: _ => Some (ceilSeconds (first + windowMs - now))
            | [] => None
            end,
     cache1)
  else
    let validRequests' := validRequests ++ [now] in
    (Allowed (maxRequests - Z.of_nat (length validRequests')),
     set key validRequests' cache1).

(** A call of the limiter: who, what, and the time of the clock. *)
Record Call : Type := { userId : jsstring; action : jsstring; at_ : Z }.

(** The calls served one after the other with the same window and limit,
    each with what it was answered. *)
Fixpoint serve (windowMs maxRequests : Z) (cache : Cache) (calls : list Call)
  : list (Call * Verdict) :=
  match calls with
  | [] => []
  | c :: rest =>
      let (v, cache') :=
        rateLimitCheck cache (userId c) (action c) (at_ c) windowMs maxRequests in
      (c, v) :: serve windowMs maxRequests cache' rest
  end.

(** The times of the calls of the log that were allowed under [key]. *)
Definition grantedTimes (key : jsstring) (log : list (Call * Verdict)) : list Z :=
  map (fun entry => at_ (fst entry))
    (filter (fun entry => allowed (snd entry)
                          && Js.eqb (keyOf (userId (fst entry)) (action (fst entry))) key)
       log).

(** The timestamps that are less than [windowMs] before [now]. *)
Definition within (windowMs now : Z) (times : list Z) : list Z :=
  filter (fun timestamp => Z.ltb (now - timestamp) windowMs) times.

(** The clock does not go back from one call to the next. *)
Definition clockAdvances (calls : list Call) : Prop :=
  StronglySorted (fun a b => (at_ a <= at_ b)%Z) calls.

(** The cache agrees with the log of the allowed calls on what lies
    within the window of the time [now]. *)
Definition agrees (windowMs : Z) (cache : Cache) (log : list (Call * Verdict)) (now : Z)
  : Prop :=
  forall key,
    within windowMs now (get key cache) = within windowMs now (grantedTimes key log).

End RateLimit.

(** ** The loops around the heuristic and around the field validation *)

Module Pipeline.
Section WithBuiltins.
Context `{Builtins}.

(** [suggestWorkspaceAndProject(extractedTasks, allWorkspaces)]:
    [getProjects n] answers the project listing of the [n]-th call of
    [findBestMatch]; [None] is the TypeError [findBestMatch] raises. *)
Fixpoint suggestWorkspaceAndProject
    (getProjects : nat -> jsstring -> option (list Project)) (call : nat)
    (extractedTasks : list Task) (allWorkspaces : list Workspace)
  : option (list Suggestion) :=
  match extractedTasks with
  | [] => Some []
  | task :: rest =>
      match WorkspaceMatcher.findBestMatch (getProjects call) task allWorkspaces with
      | None => None
      | Some suggestion =>
          match suggestWorkspaceAndProject getProjects (S call) rest allWorkspaces with
          | None => None
          | Some suggestions =>
              Some ({| s_task := task;
                       s_workspace := WorkspaceMatcher.workspace suggestion;
                       s_project := WorkspaceMatcher.project suggestion;
                       s_confidence := WorkspaceMatcher.match_confidence suggestion;
                       s_reasoning := WorkspaceMatcher.match_reasoning suggestion |}
                    :: suggestions)
          end
      end
  end.

(** [Array.isArray(parsed) ? parsed : [parsed]] *)
Definition parsedTasks (parsed : JsValue) : list JsValue :=
  match parsed with
  | JArr items => items
  | _ => [parsed]
  end.

(** [.map(task => this.validateTask(task)).filter(task => task !== null)];
    [None] is a TypeError of [validateTask]. *)
Fixpoint cleanEach (tasks : list JsValue) : option (list Task) :=
  match tasks with
  | [] => Some []
  | task :: rest =>
      match ClaudeService.validateTask task with
      | None => None
      | Some cleaned =>
          match cleanEach rest with
          | None => None
          | Some more =>
              Some match cleaned with
                   | Some cleanTask => cleanTask :: more
                   | None => more
                   end
          end
      end
  end.

(** The [validTasks] of [extractTasks], from the parsed answer. *)
Definition validTasks (parsed : JsValue) : option (list Task) :=
  cleanEach (filter (fun task => truthy task && isObject task) (parsedTasks parsed)).

End WithBuiltins.
End Pipeline.

(** ** Vocabulary for the loop of the approval button *)

Section SuggestedVocabulary.
Context `{Builtins} `{Environment}.

(** The options the loop builds from a suggestion. *)
Definition optionsOf (suggestion : Suggestion) : Options :=
  {| opt_workspaceId := JStr (ws_id (s_workspace suggestion));
     opt_projectId :=
       match s_project suggestion with
       | Some p => or_else (JStr (p_id p)) JNull
       | None => JNull
       end;
     opt_assigneeId := JUndefined |}.

(** The tasks that have a suggestion at their index, with it, up to the
    first task without a usable priority. *)
Fixpoint sentPairs (tasks : list Task) (suggestions : list Suggestion)
  : list (Task * Suggestion) :=
  match tasks, suggestions with
  | task :: rest, suggestion :: more =>
      if usablePriority task then (task, suggestion) :: sentPairs rest more else []
  | _, _ => []
  end.

End SuggestedVocabulary.

(** ** A world in which Motion accepts every request *)

Module Agreeable.

(** The world is a clock; Motion and Slack answer every call. *)
Definition environment : Environment :=
  {| World := N;
     motionPostTask := fun _ w => (HttpOk (JStr (str "motion-" ++ decimal (Z.of_N w))), w);
     slackCall := fun _ w => (Returned (decimal (Z.of_N w)), w);
     dateNow := fun w => (w, (w + 1)%N);
     parseDueDate := fun _ _ => None;
     MOTION_WORKSPACE_ID := JStr (str "ws-1");
     singleRowError := str "JSON object requested, multiple (or no) rows returned" |}.

(** The state of the bot with the given queue. *)
Definition start (queue : list QueueEntry) : @Sys environment :=
  @Build_Sys environment 1000%N queue [] [] [] [].

End Agreeable.

(** ** handlers/batch.js over a store whose requests may fail

    The operations of [Batch] are those of a store that answers every
    request: they fail on the row count alone.  Each method of
    [SupabaseService] also throws when the store reports an error of its
    own (the network, a permission, a constraint): [if (error) throw new
    Error(...)].  Below, whether the next request fails in that way is
    asked of the world, and the handlers of batch.js are run over the
    methods that may throw. *)

Class StoreFaults `{Environment} : Type := {
  (** What the store has to say to the next request: [Some message] is
      the [error.message] of a request it fails. *)
  storeFault : World -> option jsstring * World
}.

Module Fallible.
Section WithEnvironment.
Context `{Builtins} `{Environment} `{!StoreFaults}.

(** One request of a method: [if (error) throw new Error(failure +
    error.message)], and the answer of the query otherwise.  A request
    that fails leaves the tables as they are. *)
Definition request (A : Type) (failure : jsstring) (query : M A) : M A :=
  fun s =>
    let (fault, w) := storeFault (world s) in
    match fault with
    | Some message => (Thrown (ErrorOf (failure ++ message)), withWorld s w)
    | None => query (withWorld s w)
    end.

(** [supabaseService.updateTaskQueue(id, updates)] *)
Definition updateTaskQueue (i : jsstring) (updates : Updates) : M QueueEntry :=
  request (str "Failed to update task queue: ") (Batch.updateTaskQueue i updates).

(** [supabaseService.getPendingTasks(limit)] *)
Definition getPendingTasks (limit : nat) : M (list QueueEntry) :=
  request (str "Failed to get pending tasks: ") (Batch.getPendingTasks limit).

(** [supabaseService.getChannelMapping(channelId, workspaceId)]: the
    error of a row count other than one (code PGRST116) is let through
    and gives [null]; any other error is thrown. *)
Definition getChannelMapping (channelId workspaceId : jsstring)
  : M (option ChannelMapping) :=
  request (str "Failed to get channel mapping: ")
    (Batch.getChannelMapping channelId workspaceId).

(** [supabaseService.addTaskHistory(historyData)] *)
Definition addTaskHistory (record : HistoryRecord) : M unit :=
  request (str "Failed to add task history: ") (Batch.addTaskHistory record).

Definition handleTaskRejection (queuedTasks : QueueEntry)
    (channelId messageTs : jsstring) : M unit :=
  tryCatch
    (updateTaskQueue (id queuedTasks)
       {| u_status := Some failed;
          u_error_message := Some (str "Rejected by user");
          u_retry_count := None; u_extracted_tasks := None;
          u_workspace_suggestions := None |} ;;;
     slack (PostMessage channelId TasksCancelled (Some messageTs)) ;;;
     ret tt)
    (fun _ => ret tt).

Definition handleTaskApproval (queuedTasks : QueueEntry)
    (channelId messageTs : jsstring) : M unit :=
  tryCatch
    (updateTaskQueue (id queuedTasks)
       {| u_status := Some processing; u_error_message := None;
          u_retry_count := None; u_extracted_tasks := None;
          u_workspace_suggestions := None |} ;;;
     processingTs <-
       slack (PostMessage channelId (Creating (length (extracted_tasks queuedTasks)))
                (Some messageTs)) ;;
     channelMapping <- getChannelMapping channelId (str "workspace") ;;
     let motionOptions :=
       {| opt_workspaceId := MOTION_WORKSPACE_ID;
          opt_projectId :=
            match channelMapping with
            | Some m => or_else (cm_motion_project_id m) JNull
            | None => JNull
            end;
          opt_assigneeId := JUndefined |} in
     motionResult <-
       MotionService.createMultipleTasks (extracted_tasks queuedTasks) motionOptions ;;
     if batch_success motionResult then
       updateTaskQueue (id queuedTasks)
         {| u_status := Some completed; u_error_message := None;
            u_retry_count := None; u_extracted_tasks := None;
            u_workspace_suggestions := None |} ;;;
       addTaskHistory
         {| h_slack_message_ts := messageTs;
            h_slack_channel_id := channelId;
            h_extracted_tasks := extracted_tasks queuedTasks;
            h_motion_task_ids := Batch.motionTaskIds (batch_results motionResult);
            h_success := true |} ;;;
       slack (ChatUpdate channelId processingTs
                (SuccessfullyCreated (batch_successful motionResult)
                   (batch_failed motionResult))) ;;;
       if Nat.ltb 0 (batch_failed motionResult) then
         lines <- mapM Batch.failedLine (batch_failed_tasks motionResult) ;;
         slack (PostMessage channelId (FailedTasks lines) (Some messageTs)) ;;;
         ret tt
       else ret tt
     else
       updateTaskQueue (id queuedTasks)
         {| u_status := Some failed;
            u_error_message := Some (str "Motion API error");
            u_retry_count := Some (Batch.nextRetry queuedTasks);
            u_extracted_tasks := None; u_workspace_suggestions := None |} ;;;
       slack (ChatUpdate channelId processingTs QueuedForRetry) ;;;
       ret tt)
    (fun error =>
       updateTaskQueue (id queuedTasks)
         {| u_status := Some failed;
            u_error_message := Some (message error);
            u_retry_count := Some (Batch.nextRetry queuedTasks);
            u_extracted_tasks := None; u_workspace_suggestions := None |} ;;;
       slack (PostMessage channelId (ErrorCreating (message error)) (Some messageTs)) ;;;
       ret tt).

(** The body of the loop of [processRetryQueue] for one entry of the
    list read at the start of the sweep. *)
Definition retryOne (task : QueueEntry) : M unit :=
  if Nat.leb 3 (Queue.retries task) then
    updateTaskQueue (id task)
      {| u_status := Some failed;
         u_error_message := Some (str "Max retries exceeded");
         u_retry_count := None; u_extracted_tasks := None;
         u_workspace_suggestions := None |} ;;;
    ret tt
  else
    tryCatch
      (motionResult <-
         MotionService.createMultipleTasks (extracted_tasks task) noOptions ;;
       if batch_success motionResult then
         updateTaskQueue (id task)
           {| u_status := Some completed; u_error_message := None;
              u_retry_count := None; u_extracted_tasks := None;
              u_workspace_suggestions := None |} ;;;
         ret tt
       else
         updateTaskQueue (id task)
           {| u_status := Some pending;
              u_error_message := Some (str "Motion sync failed");
              u_retry_count := Some (Queue.retries task + 1);
              u_extracted_tasks := None; u_workspace_suggestions := None |} ;;;
         ret tt)
      (fun error =>
         updateTaskQueue (id task)
           {| u_status := Some pending;
              u_error_message := Some (message error);
              u_retry_count := Some (Queue.retries task + 1);
              u_extracted_tasks := None; u_workspace_suggestions := None |} ;;;
         ret tt).

Fixpoint retryEach (pendingTasks : list QueueEntry) : M unit :=
  match pendingTasks with
  | [] => ret tt
  | task :: rest => retryOne task ;;; retryEach rest
  end.

(** One sweep of the background retry processor. *)
Definition processRetryQueue : M unit :=
  tryCatch
    (pendingTasks <- getPendingTasks 5 ;;
     retryEach pendingTasks)
    (fun _ => ret tt).

End WithEnvironment.
End Fallible.

(** Stores that answer every request, for the two concrete worlds. *)
Definition steadyScenario : @StoreFaults Scenario.environment :=
  {| storeFault := fun w => (None, w) |}.

Definition steadyAgreeable : @StoreFaults Agreeable.environment :=
  {| storeFault := fun w => (None, w) |}.

(** A store that fails every request of the scripted world. *)
Definition failingScenario : @StoreFaults Scenario.environment :=
  {| storeFault := fun w => (Some (str "fetch failed"), w) |}.

(** A store of the scripted world that is lost once the clock has moved:
    it answers the requests made at the time of the start, and fails
    every later one. *)
Definition lostAfterStart (w : Scenario.ScriptedWorld)
  : option jsstring * Scenario.ScriptedWorld :=
  if N.leb (Scenario.clock w) 1000 then (None, w) else (Some (str "fetch failed"), w).

Definition lostScenario : @StoreFaults Scenario.environment :=
  @Build_StoreFaults Scenario.environment lostAfterStart.

(** ** Requests that leave in no particular order *)

Section UnorderedRequests.
Context `{Builtins} `{Environment}.

(** From [s] to [s'], one request was sent for each task of [tasks] that
    has a usable priority, and no other; the requests of a batch are
    started together, so nothing is said of the order in which they
    left. *)
Definition requested (options : Options) (tasks : list Task) (s s' : Sys) : Prop :=
  exists requests expected,
    motion_requests s' = motion_requests s ++ requests
    /\ Forall2 (requestFor options) (filter usablePriority tasks) expected
    /\ Permutation expected requests.

End UnorderedRequests.

(** ** Where an approval may leave a row *)

Section ApprovalReach.
Context `{Environment}.

(** From [s] to [s'] the ids of the queue are kept, every entry whose id
    is not [i] is left as it is, and every entry with id [i] is as it
    was, or processing, or completed, or failed with retry count [n]. *)
Definition onTheWay (i : jsstring) (n : nat) (s s' : Sys) : Prop :=
  Forall2 (fun e e' =>
             id e' = id e
             /\ (Queue.hasId i e = false -> e' = e)
             /\ (Queue.hasId i e = true ->
                 e' = e
                 \/ status e' = processing
                 \/ status e' = completed
                 \/ (status e' = failed /\ retry_count e' = Some n)))
    (task_queue s) (task_queue s').

End ApprovalReach.

(* ===================================================================== *)
(** * Part II: properties *)
(* ===================================================================== *)

(** ** Lists and strings *)

Lemma filter_none (A : Type) (f : A -> bool) (l : list A) :
  Forall (fun x => f x = false) l -> filter f l = [].
Proof.
  induction 1 as [|x l Hx _ IH]; simpl.
  - reflexivity.
  - rewrite Hx. exact IH.
Qed.

Lemma eqb_refl (s : jsstring) : Js.eqb s s = true.
Proof.
  induction s as [|c s IH]; simpl.
  - reflexivity.
  - rewrite N.eqb_refl. exact IH.
Qed.

Lemma eqb_eq (s t : jsstring) : Js.eqb s t = true <-> s = t.
Proof.
  split.
  - revert t. induction s as [|c s IH]; intros [|d t]; simpl; try discriminate.
    + reflexivity.
    + intros E. apply andb_true_iff in E. destruct E as [E1 E2].
      apply N.eqb_eq in E1. apply IH in E2. congruence.
  - intros ->. apply eqb_refl.
Qed.

(** ** The quoted lines of a message (C8) *)

Section ExtractQuotedText.
Import Parser.

(** [trim] strips the white space on both sides only. *)
Example trim_example : trim (str "  > a ") = str "> a".
Proof. reflexivity. Qed.

(** The text of the claim is cut in two lines, both quoted. *)
Example split_example :
  split LF (str "> a" ++ [LF] ++ str "> b") = [str "> a"; str "> b"].
Proof. reflexivity. Qed.

Lemma extractQuotedText_no_quoted_line (s : jsstring) :
  Forall (fun line => startsWith (trim line) [GT] = false) (split LF s) ->
  extractQuotedText (JStr s) = [].
Proof.
  intros Hlines. unfold extractQuotedText.
  destruct (negb (truthy (JStr s))); [reflexivity|].
  rewrite (filter_none _ Hlines). reflexivity.
Qed.

End ExtractQuotedText.

(** C8, as the code has it.  A line counts as quoted when it starts with
    [>] once the white space around it is trimmed: for every string none of
    whose lines is quoted in that sense, [extractQuotedText] returns the
    empty string; and on the two quoted lines ["> a"] and ["> b"] it
    returns ["a b"]. *)
Theorem extractQuotedText_quoted_lines :
  (forall s : jsstring,
      Forall (fun line => startsWith (trim line) [Parser.GT] = false)
        (split Parser.LF s) ->
      Parser.extractQuotedText (JStr s) = [])
  /\ Parser.extractQuotedText (JStr (str "> a" ++ [Parser.LF] ++ str "> b")) = str "a b".
Proof.
  split.
  - exact extractQuotedText_no_quoted_line.
  - reflexivity.
Qed.

Lemma extractQuotedText_quoted_lines_witness :
  Forall (fun line => startsWith (trim line) [Parser.GT] = false)
    (split Parser.LF (str "no quote here"))
  /\ Parser.extractQuotedText (JStr (str "no quote here")) = [].
Proof.
  assert (Hlines : Forall (fun line => startsWith (trim line) [Parser.GT] = false)
                     (split Parser.LF (str "no quote here"))).
  { repeat constructor. }
  split.
  - exact Hlines.
  - exact (proj1 extractQuotedText_quoted_lines (str "no quote here") Hlines).
Defined.

(** C8 as stated fails on an indented quote marker: no line of [" >a"]
    starts with the character [>] (its only line starts with a space), yet
    the line is kept, and since the marker is only removed at the very
    start of a line the result is [">a"], not the empty string. *)
Lemma extractQuotedText_indented_marker :
  Forall (fun line => startsWith line [Parser.GT] = false)
    (split Parser.LF (str " >a"))
  /\ Parser.extractQuotedText (JStr (str " >a")) = str ">a"
  /\ Parser.extractQuotedText (JStr (str " >a")) <> [].
Proof.
  split; [|split].
  - repeat constructor.
  - reflexivity.
  - discriminate.
Qed.

(** ** Batch validation (C5) *)

Section ValidateTaskBatch.
Context `{Builtins}.
Import Validation.

Lemma collectErrors_all_valid (items : list JsValue) :
  Forall individuallyValid items ->
  forall index, collectErrors index items = Some [].
Proof.
  induction 1 as [|task rest [r [Hr Hvalid]] _ IH]; intros index; simpl.
  - reflexivity.
  - rewrite Hr, IH, Hvalid. reflexivity.
Qed.

Lemma validateTaskBatch_accepts (items : list JsValue) :
  1 <= length items <= 10 ->
  Forall individuallyValid items ->
  validateTaskBatch (JArr items) = Some {| valid := true; errors := [] |}.
Proof.
  intros [Hlo Hhi] Hall. unfold validateTaskBatch.
  destruct (Nat.eqb_spec (length items) 0) as [E|_]; [lia|].
  destruct (Nat.ltb_spec 10 (length items)) as [E|_]; [lia|].
  rewrite (collectErrors_all_valid Hall). reflexivity.
Qed.

Lemma validateTaskBatch_rejects (items : list JsValue) :
  length items = 0 \/ 10 < length items ->
  exists message,
    validateTaskBatch (JArr items) = Some {| valid := false; errors := [message] |}
    /\ message <> [].
Proof.
  intros Hlen. unfold validateTaskBatch.
  destruct (Nat.eqb_spec (length items) 0) as [E|NE].
  - eexists. split; [reflexivity | discriminate].
  - destruct (Nat.ltb_spec 10 (length items)) as [E|NE'].
    + eexists. split; [reflexivity | discriminate].
    + lia.
Qed.

(** Anything that is not an array is rejected as well. *)
Lemma validateTaskBatch_not_array (v : JsValue) :
  (forall items, v <> JArr items) ->
  validateTaskBatch v = Some {| valid := false; errors := [str "Tasks must be an array"] |}.
Proof.
  intros Hv. destruct v; try reflexivity. exfalso. exact (Hv _ eq_refl).
Qed.

(** C5.  An array of one to ten individually valid tasks is accepted; an
    array that is empty or longer than ten is rejected, whatever it holds,
    with an error list made of one non-empty message. *)
Theorem validateTaskBatch_length_bounds (items : list JsValue) :
  (1 <= length items <= 10 ->
   Forall individuallyValid items ->
   validateTaskBatch (JArr items) = Some {| valid := true; errors := [] |})
  /\ (length items = 0 \/ 10 < length items ->
      exists message,
        validateTaskBatch (JArr items) = Some {| valid := false; errors := [message] |}
        /\ message <> []).
Proof.
  split.
  - apply validateTaskBatch_accepts.
  - apply validateTaskBatch_rejects.
Qed.

End ValidateTaskBatch.

(** The messages of the two rejections. *)
Example validateTaskBatch_empty :
  @Validation.validateTaskBatch Scenario.builtins (JArr [])
  = Some {| Validation.valid := false;
            Validation.errors := [str "At least one task is required"] |}.
Proof. reflexivity. Qed.

Example validateTaskBatch_eleven :
  @Validation.validateTaskBatch Scenario.builtins (JArr (repeat JNull 11))
  = Some {| Validation.valid := false;
            Validation.errors := [str "Maximum 10 tasks allowed per batch"] |}.
Proof. reflexivity. Qed.

(** An invalid task in a batch of admissible length is reported under its
    1-based position. *)
Example validateTaskBatch_reports_position :
  @Validation.validateTaskBatch Scenario.builtins
    (JArr [JObj [(str "title", JStr (str "Write the letter"))];
           JObj [(str "title", JStr (str "ab"))]])
  = Some {| Validation.valid := false;
            Validation.errors :=
              [str "Task 2: Task title must be at least 3 characters"] |}.
Proof. reflexivity. Qed.

Lemma validateTaskBatch_length_bounds_witness :
  let items := [JObj [(str "title", JStr (str "Write the letter"));
                      (str "priority", JStr (str "high"))]] in
  @Validation.validateTaskBatch Scenario.builtins (JArr items)
  = Some {| Validation.valid := true; Validation.errors := [] |}
  /\ exists message,
       @Validation.validateTaskBatch Scenario.builtins (JArr [])
       = Some {| Validation.valid := false; Validation.errors := [message] |}
       /\ message <> [].
Proof.
  intros items. split.
  - apply (proj1 (@validateTaskBatch_length_bounds Scenario.builtins items)).
    + simpl. lia.
    + constructor; [|constructor].
      eexists. split; reflexivity.
  - apply (proj2 (@validateTaskBatch_length_bounds Scenario.builtins [])).
    left. reflexivity.
Defined.

(** ** Field-level validation of an extracted task (C7) *)

Section ClaudeValidateTask.
Import ClaudeService.

Lemma isLevel_truthy (v : JsValue) : isLevel v = true -> truthy v = true.
Proof.
  destruct v as [| | b | z | s | items | fields]; simpl; try discriminate; try reflexivity.
  destruct s; [discriminate | reflexivity].
Qed.

(** The two steps on a level ([|| 'medium'], then the membership test)
    amount to one test. *)
Lemma levelOrMedium_or_else (v : JsValue) :
  levelOrMedium (or_else v (JStr (str "medium")))
  = if isLevel v then v else JStr (str "medium").
Proof.
  unfold levelOrMedium, or_else.
  destruct (isLevel v) eqn:Hlevel.
  - rewrite (isLevel_truthy _ Hlevel), Hlevel. reflexivity.
  - destruct (truthy v); [rewrite Hlevel|]; reflexivity.
Qed.

Lemma isLevel_levelOrMedium (v : JsValue) : isLevel (levelOrMedium v) = true.
Proof.
  unfold levelOrMedium. destruct (isLevel v) eqn:Hlevel; [exact Hlevel | reflexivity].
Qed.

(** What the caller's filter [task && typeof task === 'object'] lets
    through has readable properties. *)
Lemma get_of_object (task : JsValue) (key : string) :
  truthy task && isObject task = true ->
  get task (str key) = Some (field task key).
Proof.
  unfold field. destruct task; simpl; try discriminate; reflexivity.
Qed.

Lemma validateTask_of_object (task : JsValue) :
  truthy task && isObject task = true ->
  validateTask task =
    match field task "title" with
    | JStr [] => Some None
    | JStr s =>
        Some (Some {|
          title := trim s;
          assignee := or_else (field task "assignee") (JStr (str "infer_from_context"));
          due_date := or_else (field task "due_date") JNull;
          confidence :=
            levelOrMedium (or_else (field task "confidence") (JStr (str "medium")));
          context := or_else (field task "context") (JStr []);
          priority :=
            levelOrMedium (or_else (field task "priority") (JStr (str "medium")));
          estimated_time := or_else (field task "estimated_time") JNull |})
    | _ => Some None
    end.
Proof.
  intros Hobj. unfold validateTask.
  rewrite !(get_of_object _ _ Hobj).
  destruct (field task "title") as [| | b | z | s | items | fields]; try reflexivity.
  destruct s; reflexivity.
Qed.

(** C7, as the code has it.  For a parsed task object, validation returns
    (it does not raise); it drops the task exactly when the title is
    missing, not a string, or the empty string.  A task that is kept has
    its title trimmed; its confidence and its priority are the given value
    when that is one of high, medium, low and ['medium'] otherwise; an
    absent (falsy) assignee becomes ['infer_from_context'], an absent
    due date or estimated time [null], an absent context the empty
    string, and a present value is kept. *)
Theorem validateTask_drops_and_defaults (task : JsValue) :
  truthy task && isObject task = true ->
  (validateTask task = Some None
   <-> (isString (field task "title") = false \/ field task "title" = JStr []))
  /\ (validateTask task = Some None \/ exists clean, validateTask task = Some (Some clean))
  /\ (forall clean, validateTask task = Some (Some clean) ->
        (exists s, field task "title" = JStr s /\ title clean = trim s)
        /\ confidence clean =
             (if isLevel (field task "confidence") then field task "confidence"
              else JStr (str "medium"))
        /\ priority clean =
             (if isLevel (field task "priority") then field task "priority"
              else JStr (str "medium"))
        /\ assignee clean =
             (if truthy (field task "assignee") then field task "assignee"
              else JStr (str "infer_from_context"))
        /\ due_date clean =
             (if truthy (field task "due_date") then field task "due_date" else JNull)
        /\ context clean =
             (if truthy (field task "context") then field task "context" else JStr [])
        /\ estimated_time clean =
             (if truthy (field task "estimated_time") then field task "estimated_time"
              else JNull)).
Proof.
  intros Hobj. rewrite (validateTask_of_object _ Hobj).
  destruct (field task "title") as [| | b | z | s | items | fields] eqn:Htitle;
    try (split; [split; [intros _; left; reflexivity | reflexivity]
                | split; [left; reflexivity | intros clean; discriminate]]).
  destruct s as [|c s].
  - split; [split; [intros _; right; reflexivity | reflexivity]
           | split; [left; reflexivity | intros clean; discriminate]].
  - split; [|split].
    + split; [discriminate | intros [E|E]; discriminate].
    + right. eexists. reflexivity.
    + intros clean E. injection E as <-. simpl.
      rewrite !levelOrMedium_or_else.
      repeat split. exists (c :: s). split; reflexivity.
Qed.

End ClaudeValidateTask.

Lemma validateTask_drops_and_defaults_witness :
  let task := JObj [(str "title", JStr (str " Call Bob "));
                    (str "confidence", JStr (str "certain"))] in
  exists clean,
    ClaudeService.validateTask task = Some (Some clean)
    /\ title clean = str "Call Bob"
    /\ confidence clean = JStr (str "medium")
    /\ assignee clean = JStr (str "infer_from_context").
Proof.
  intros task.
  destruct (validateTask_drops_and_defaults task eq_refl) as [_ [_ Hkept]].
  eexists. split; [reflexivity|].
  destruct (Hkept _ eq_refl) as [_ [Hc [_ [Ha _]]]].
  split; [reflexivity|]. split; [exact Hc | exact Ha].
Defined.

(** C7 as stated fails twice.  A title that is present and is a string, the
    empty one, is dropped all the same; and the assignee of a task that has
    none is defaulted to ['infer_from_context'], which is neither [null]
    nor the empty string. *)
Lemma validateTask_empty_title_and_assignee_default :
  (get (JObj [(str "title", JStr [])]) (str "title") = Some (JStr [])
   /\ isString (JStr []) = true
   /\ ClaudeService.validateTask (JObj [(str "title", JStr [])]) = Some None)
  /\ (exists clean,
        ClaudeService.validateTask (JObj [(str "title", JStr (str "Call Bob"))])
        = Some (Some clean)
        /\ get (JObj [(str "title", JStr (str "Call Bob"))]) (str "assignee")
           = Some JUndefined
        /\ assignee clean = JStr (str "infer_from_context")
        /\ assignee clean <> JNull
        /\ assignee clean <> JStr []).
Proof.
  split.
  - repeat split.
  - eexists. split; [reflexivity|]. repeat split; discriminate.
Qed.

(** ** The stable sort: a sorted permutation that keeps ties in order *)

Section SortBy.
Variable A : Type.
Variable le : A -> A -> bool.
Hypothesis le_total : forall a b, le a b = true \/ le b a = true.
Hypothesis le_trans : forall a b c, le a b = true -> le b c = true -> le a c = true.

Lemma insertBy_perm (x : A) (l : list A) : Permutation (x :: l) (insertBy le x l).
Proof.
  induction l as [|y l IH]; simpl.
  - apply Permutation_refl.
  - destruct (le x y).
    + apply Permutation_refl.
    + eapply perm_trans; [apply perm_swap|]. apply perm_skip. exact IH.
Qed.

Lemma sortBy_perm (l : list A) : Permutation l (sortBy le l).
Proof.
  induction l as [|x l IH]; simpl.
  - apply perm_nil.
  - eapply perm_trans; [apply perm_skip; exact IH|]. apply insertBy_perm.
Qed.

Lemma insertBy_sorted (x : A) (l : list A) :
  inOrder le l -> inOrder le (insertBy le x l).
Proof.
  induction 1 as [|y l Hl IH Hy]; simpl.
  - constructor; constructor.
  - destruct (le x y) eqn:Hxy.
    + constructor.
      * constructor; assumption.
      * constructor; [exact Hxy|].
        eapply Forall_impl; [|exact Hy]. intros z Hz. exact (le_trans Hxy Hz).
    + constructor; [exact IH|].
      assert (Hyx : le y x = true) by (destruct (le_total x y) as [E|E]; [congruence | exact E]).
      eapply Permutation_Forall; [apply insertBy_perm|].
      constructor; assumption.
Qed.

Lemma sortBy_sorted (l : list A) : inOrder le (sortBy le l).
Proof.
  induction l as [|x l IH]; simpl.
  - constructor.
  - apply insertBy_sorted. exact IH.
Qed.

Lemma sortBy_length (l : list A) : length (sortBy le l) = length l.
Proof. symmetry. apply Permutation_length, sortBy_perm. Qed.

Lemma sortBy_In (x : A) (l : list A) : In x (sortBy le l) <-> In x l.
Proof.
  split; intros Hin.
  - eapply Permutation_in; [apply Permutation_sym, sortBy_perm | exact Hin].
  - eapply Permutation_in; [apply sortBy_perm | exact Hin].
Qed.

(** The head of the sorted list is below every element of the list. *)
Lemma sortBy_head (l : list A) (h : A) (t : list A) :
  sortBy le l = h :: t -> forall y, In y l -> le h y = true.
Proof.
  intros Hsort y Hy.
  pose proof (sortBy_sorted l) as Hs. rewrite Hsort in Hs.
  apply sortBy_In in Hy. rewrite Hsort in Hy.
  inversion Hs as [|h' t' _ Hall]; subst.
  destruct Hy as [<- | Hy].
  - destruct (le_total h h); assumption.
  - rewrite Forall_forall in Hall. exact (Hall _ Hy).
Qed.

(** A list that is already in order is left as it is: the sort never
    moves an element before one it is not strictly below. *)
Lemma insertBy_head (x : A) (l : list A) :
  Forall (fun y => le x y = true) l -> insertBy le x l = x :: l.
Proof.
  destruct 1 as [|y l Hy _]; simpl.
  - reflexivity.
  - rewrite Hy. reflexivity.
Qed.

Lemma sortBy_of_sorted (l : list A) : inOrder le l -> sortBy le l = l.
Proof.
  induction 1 as [|x l _ IH Hx]; simpl.
  - reflexivity.
  - rewrite IH. apply insertBy_head. exact Hx.
Qed.

End SortBy.

(** ** The confidence of a destination match (C6) *)

Section FindBestMatch.
Context `{Builtins}.
Import WorkspaceMatcher.

Lemma confidenceLabel_high (score : nat) : confidenceLabel score = str "high" <-> 3 < score.
Proof.
  unfold confidenceLabel.
  destruct (Nat.ltb_spec 3 score) as [H3|H3].
  - split; [intros _; exact H3 | reflexivity].
  - destruct (Nat.ltb_spec 1 score); (split; [discriminate | lia]).
Qed.

Lemma confidenceLabel_medium (score : nat) :
  confidenceLabel score = str "medium" <-> 1 < score <= 3.
Proof.
  unfold confidenceLabel.
  destruct (Nat.ltb_spec 3 score) as [H3|H3].
  - split; [discriminate | lia].
  - destruct (Nat.ltb_spec 1 score); (split; [try discriminate; lia | try reflexivity; lia]).
Qed.

Lemma confidenceLabel_low (score : nat) : confidenceLabel score = str "low" <-> score <= 1.
Proof.
  unfold confidenceLabel.
  destruct (Nat.ltb_spec 3 score) as [H3|H3].
  - split; [discriminate | lia].
  - destruct (Nat.ltb_spec 1 score); (split; [try discriminate; lia | try reflexivity; lia]).
Qed.

(** The first element of a list sorted highest key first has the highest
    key of the list. *)
Lemma sortDescending_head (A : Type) (key : A -> nat) (l : list A) (h : A) (t : list A) :
  sortDescending key l = h :: t -> In h l /\ forall y, In y l -> key y <= key h.
Proof.
  intros Hsort. split.
  - apply (sortBy_In (fun a b => Nat.leb (key b) (key a))).
    unfold sortDescending in Hsort. rewrite Hsort. left. reflexivity.
  - intros y Hy. apply Nat.leb_le.
    eapply (@sortBy_head _ (fun a b => Nat.leb (key b) (key a)));
      [ | | exact Hsort | exact Hy].
    + intros a b. rewrite !Nat.leb_le. lia.
    + intros a b c. rewrite !Nat.leb_le. lia.
Qed.

(** C6.  On a non-empty list of workspaces the heuristic returns a match;
    the workspace it chooses is one of the list with the highest score, and
    the label is 'high' exactly when that score is above 3, 'medium'
    exactly when it is above 1 and not above 3, and 'low' exactly when it
    is not above 1. *)
Theorem findBestMatch_confidence_thresholds
    (getProjects : jsstring -> option (list Project))
    (task : Task) (workspaces : list Workspace) :
  workspaces <> [] ->
  exists m,
    findBestMatch getProjects task workspaces = Some m
    /\ In (workspace m) workspaces
    /\ let score := total (calculateWorkspaceScore (taskTextOf task) (workspace m)) in
       (forall w, In w workspaces ->
                  total (calculateWorkspaceScore (taskTextOf task) w) <= score)
       /\ (match_confidence m = str "high" <-> 3 < score)
       /\ (match_confidence m = str "medium" <-> 1 < score <= 3)
       /\ (match_confidence m = str "low" <-> score <= 1).
Proof.
  intros Hne. unfold findBestMatch.
  set (toMatch := fun w =>
         let score := calculateWorkspaceScore (taskTextOf task) w in
         {| wm_workspace := w; wm_score := score; wm_reasoning := reasoning score |}).
  destruct (sortDescending (fun m => total (wm_score m)) (map toMatch workspaces))
    as [|best others] eqn:Hsort.
  - exfalso. apply Hne.
    apply (f_equal (@length _)) in Hsort. unfold sortDescending in Hsort.
    rewrite sortBy_length, length_map in Hsort.
    destruct workspaces; [reflexivity | discriminate].
  - destruct (sortDescending_head _ _ Hsort) as [Hin Hmax].
    apply in_map_iff in Hin. destruct Hin as [w0 [Hbest Hw0]].
    eexists. split; [reflexivity|]. simpl. subst best. simpl.
    split; [exact Hw0|]. split; [|split; [|split]].
    + intros w Hw. exact (Hmax (toMatch w) (in_map toMatch _ _ Hw)).
    + apply confidenceLabel_high.
    + apply confidenceLabel_medium.
    + apply confidenceLabel_low.
Qed.

End FindBestMatch.

(** The message of the application's own example goes to the workspace
    named after the project, with high confidence. *)
Example findBestMatch_nastygram :
  let task := {| title := str "Write labcorp a letter";
                 assignee := JStr (str "message_author");
                 due_date := JStr (str "Friday");
                 confidence := JStr (str "high");
                 context := JStr (str "for the nastygram project");
                 priority := JStr (str "medium");
                 estimated_time := JNull |} in
  let workspaces := [{| ws_id := str "w1"; ws_name := str "Personal" |};
                     {| ws_id := str "w2"; ws_name := str "Nastygram" |}] in
  option_map (fun m => (ws_name (WorkspaceMatcher.workspace m),
                        WorkspaceMatcher.match_confidence m))
    (@WorkspaceMatcher.findBestMatch Scenario.builtins (fun _ => None) task workspaces)
  = Some (str "Nastygram", str "high").
Proof. reflexivity. Qed.

Lemma findBestMatch_confidence_thresholds_witness :
  let workspaces := [{| ws_id := str "w1"; ws_name := str "Personal" |};
                     {| ws_id := str "w2"; ws_name := str "Work" |}] in
  exists m,
    @WorkspaceMatcher.findBestMatch Scenario.builtins (fun _ => None)
      Scenario.report workspaces = Some m
    /\ WorkspaceMatcher.match_confidence m = str "low".
Proof.
  intros workspaces.
  destruct (@findBestMatch_confidence_thresholds Scenario.builtins (fun _ => None)
              Scenario.report workspaces) as [m [Hm [_ [_ [_ [_ Hlow]]]]]].
  - discriminate.
  - exists m. split; [exact Hm|].
    apply Hlow.
    injection Hm as <-. vm_compute. lia.
Defined.

(** ** The queue stores: pending entries (C3) and lookup by key (C4) *)

Section QueueStores.

Lemma firstn_prefix (A : Type) (n : nat) (l : list A) :
  exists rest, firstn n l ++ rest = l /\ length (firstn n l) = Nat.min n (length l).
Proof.
  exists (skipn n l). split.
  - apply firstn_skipn.
  - apply length_firstn.
Qed.

Lemma In_firstn (A : Type) (n : nat) (l : list A) (x : A) :
  In x (firstn n l) -> In x l.
Proof.
  intros Hin. rewrite <- (firstn_skipn n l). apply in_or_app. left. exact Hin.
Qed.

Lemma filter_sorted (A : Type) (R : A -> A -> Prop) (f : A -> bool) (l : list A) :
  StronglySorted R l -> StronglySorted R (filter f l).
Proof.
  induction 1 as [|x l _ IH Hx]; simpl.
  - constructor.
  - destruct (f x).
    + constructor; [exact IH|].
      rewrite Forall_forall in *. intros y Hy. apply Hx.
      apply filter_In in Hy. tauto.
    + exact IH.
Qed.

Lemma sorted_suffix (A : Type) (R : A -> A -> Prop) (l1 l2 : list A) :
  StronglySorted R (l1 ++ l2) -> StronglySorted R l2.
Proof.
  induction l1 as [|x l1 IH]; simpl; intros Hs.
  - exact Hs.
  - apply IH. inversion Hs; assumption.
Qed.

Lemma supabase_isRetryable_iff (row : QueueEntry) :
  SupabaseService.isRetryable row = true
  <-> status row = pending /\ exists n, retry_count row = Some n /\ n < 3.
Proof.
  unfold SupabaseService.isRetryable. rewrite andb_true_iff. split.
  - intros [Hs Hr]. split.
    + destruct (status row); try discriminate; reflexivity.
    + destruct (retry_count row) as [n|]; [|discriminate].
      exists n. split; [reflexivity | apply Nat.ltb_lt; exact Hr].
  - intros [Hs [n [Hr Hn]]]. rewrite Hs, Hr. split; [reflexivity | apply Nat.ltb_lt; exact Hn].
Qed.

Lemma local_isRetryable_iff (t : QueueEntry) :
  LocalStorageService.isRetryable t = true
  <-> status t = pending /\ Queue.retries t < 3.
Proof.
  unfold LocalStorageService.isRetryable. rewrite andb_true_iff, Nat.ltb_lt. split.
  - intros [Hs Hr]. split; [|exact Hr].
    destruct (status t); try discriminate; reflexivity.
  - intros [Hs Hr]. rewrite Hs. split; [reflexivity | exact Hr].
Qed.

Lemma oldestFirst_perm (rows : list QueueEntry) :
  Permutation rows (SupabaseService.oldestFirst rows).
Proof. apply sortBy_perm. Qed.

Lemma oldestFirst_sorted (rows : list QueueEntry) :
  Queue.inCreationOrder (SupabaseService.oldestFirst rows).
Proof.
  unfold Queue.inCreationOrder, SupabaseService.oldestFirst.
  assert (Hsorted : inOrder (fun a b => N.leb (created_at a) (created_at b))
                      (sortBy (fun a b => N.leb (created_at a) (created_at b)) rows)).
  { apply sortBy_sorted.
    - intros a b. rewrite !N.leb_le. lia.
    - intros a b c. rewrite !N.leb_le. lia. }
  induction Hsorted as [|a l _ IH Ha]; constructor; [exact IH|].
  eapply Forall_impl; [|exact Ha]. intros b Hb. apply N.leb_le. exact Hb.
Qed.

(** What the relational store returns: a prefix, of length at most
    [limit], of the retryable rows put oldest first. *)
Lemma supabase_getPendingTasks_spec (rows : list QueueEntry) (limit : nat) :
  exists rest,
    Permutation (SupabaseService.getPendingTasks rows limit ++ rest)
      (filter SupabaseService.isRetryable rows)
    /\ Queue.inCreationOrder (SupabaseService.getPendingTasks rows limit ++ rest)
    /\ length (SupabaseService.getPendingTasks rows limit)
       = Nat.min limit (length (filter SupabaseService.isRetryable rows)).
Proof.
  unfold SupabaseService.getPendingTasks.
  destruct (firstn_prefix limit
              (SupabaseService.oldestFirst (filter SupabaseService.isRetryable rows)))
    as [rest [Happ Hlen]].
  exists rest. rewrite Happ. split; [|split].
  - apply Permutation_sym, oldestFirst_perm.
  - apply oldestFirst_sorted.
  - rewrite Hlen. unfold SupabaseService.oldestFirst. rewrite sortBy_length. reflexivity.
Qed.

(** What the flat-file store returns: a prefix, of length at most [limit],
    of the retryable elements in the order of the array. *)
Lemma local_getPendingTasks_spec (tasks : list QueueEntry) (limit : nat) :
  exists rest,
    LocalStorageService.getPendingTasks tasks limit ++ rest
    = filter LocalStorageService.isRetryable tasks
    /\ length (LocalStorageService.getPendingTasks tasks limit)
       = Nat.min limit (length (filter LocalStorageService.isRetryable tasks)).
Proof. apply firstn_prefix. Qed.

(** C3, as the code has it.  The relational store returns, for every table
    and every limit, the [limit] oldest of exactly the rows that are
    pending with a retry count below 3, oldest first.  The flat-file store
    returns the first [limit] of exactly the elements that are pending with
    a retry count below 3, in the order of the stored array, which is
    oldest first when the array is in creation order.  Neither returns
    more than [limit] entries. *)
Theorem getPendingTasks_oldest_first_capped (stored : list QueueEntry) (limit : nat) :
  (let result := SupabaseService.getPendingTasks stored limit in
   length result <= limit
   /\ Forall (fun e => status e = pending /\ exists n, retry_count e = Some n /\ n < 3) result
   /\ exists rest,
        Permutation (result ++ rest) (filter SupabaseService.isRetryable stored)
        /\ Queue.inCreationOrder (result ++ rest)
        /\ length result = Nat.min limit (length (filter SupabaseService.isRetryable stored)))
  /\ (let result := LocalStorageService.getPendingTasks stored limit in
      length result <= limit
      /\ Forall (fun e => status e = pending /\ Queue.retries e < 3) result
      /\ exists rest,
           result ++ rest = filter LocalStorageService.isRetryable stored
           /\ length result = Nat.min limit (length (filter LocalStorageService.isRetryable stored))
           /\ (Queue.inCreationOrder stored -> Queue.inCreationOrder (result ++ rest))).
Proof.
  split; cbv zeta.
  - destruct (supabase_getPendingTasks_spec stored limit) as [rest [Hperm [Hsorted Hlen]]].
    split; [rewrite Hlen; lia|]. split.
    + rewrite Forall_forall. intros e He.
      apply supabase_isRetryable_iff.
      assert (Hin : In e (filter SupabaseService.isRetryable stored)).
      { eapply Permutation_in; [exact Hperm|]. apply in_or_app. left. exact He. }
      apply filter_In in Hin. tauto.
    + exists rest. auto.
  - destruct (local_getPendingTasks_spec stored limit) as [rest [Happ Hlen]].
    split; [rewrite Hlen; lia|]. split.
    + rewrite Forall_forall. intros e He.
      apply local_isRetryable_iff.
      assert (Hin : In e (filter LocalStorageService.isRetryable stored)).
      { rewrite <- Happ. apply in_or_app. left. exact He. }
      apply filter_In in Hin. tauto.
    + exists rest. split; [exact Happ|]. split; [exact Hlen|].
      intros Hsorted. rewrite Happ. apply filter_sorted. exact Hsorted.
Qed.

End QueueStores.

Lemma getPendingTasks_oldest_first_capped_witness :
  let stored := [Scenario.entry "a" 1 None; Scenario.entry "b" 2 (Some 3);
                 Scenario.entry "c" 3 (Some 1)] in
  Queue.inCreationOrder stored
  /\ LocalStorageService.getPendingTasks stored 5
     = [Scenario.entry "a" 1 None; Scenario.entry "c" 3 (Some 1)]
  /\ Queue.inCreationOrder (LocalStorageService.getPendingTasks stored 5).
Proof.
  intros stored.
  assert (Hstored : Queue.inCreationOrder stored).
  { repeat constructor; unfold Queue.olderOrSame; simpl; lia. }
  split; [exact Hstored|]. split; [reflexivity|].
  destruct (proj2 (getPendingTasks_oldest_first_capped stored 5))
    as [_ [_ [rest [Happ [_ Hsorted]]]]].
  assert (Hrest : rest = []).
  { destruct rest; [reflexivity | discriminate Happ]. }
  specialize (Hsorted Hstored). rewrite Hrest, app_nil_r in Hsorted. exact Hsorted.
Defined.

(** C3 as stated fails on the flat-file store, which returns the entries in
    the order of the stored array: with the younger entry stored first it
    is also returned first. *)
Lemma getPendingTasks_local_keeps_array_order :
  let younger := Scenario.entry "b" 2 None in
  let older := Scenario.entry "a" 1 None in
  LocalStorageService.getPendingTasks [younger; older] 10 = [younger; older]
  /\ (created_at older < created_at younger)%N
  /\ ~ Queue.inCreationOrder (LocalStorageService.getPendingTasks [younger; older] 10).
Proof.
  intros younger older. split; [reflexivity|]. split; [reflexivity|].
  intros Hsorted. inversion Hsorted as [|x l _ Hall]; subst.
  inversion Hall as [|y l' Hle _]; subst.
  unfold Queue.olderOrSame in Hle. simpl in Hle. lia.
Qed.

(** On the same table the relational store does put the older row first. *)
Example getPendingTasks_supabase_reorders :
  SupabaseService.getPendingTasks
    [Scenario.entry "b" 2 (Some 0); Scenario.entry "a" 1 (Some 0)] 10
  = [Scenario.entry "a" 1 (Some 0); Scenario.entry "b" 2 (Some 0)].
Proof. reflexivity. Qed.

(** The array of the flat-file store is in creation order as long as
    entries are added by [addToTaskQueue] under a clock that does not go
    back. *)
Lemma addToTaskQueue_keeps_creation_order
    (tasks : list QueueEntry) (taskData : LocalStorageService.TaskData) (now : Time) :
  Queue.inCreationOrder tasks ->
  Forall (fun t => (created_at t <= now)%N) tasks ->
  Queue.inCreationOrder (fst (LocalStorageService.addToTaskQueue tasks taskData now)).
Proof.
  unfold Queue.inCreationOrder. simpl.
  induction 1 as [|t rest Hrest IH Ht]; intros Hnow; simpl.
  - repeat constructor.
  - inversion Hnow as [|? ? Htnow Hrestnow]; subst.
    constructor; [exact (IH Hrestnow)|].
    apply Forall_app. split; [exact Ht|].
    constructor; [exact Htnow | constructor].
Qed.

Section GetTaskByMessage.

Lemma hasKey_iff (messageTs channelId : jsstring) (e : QueueEntry) :
  Queue.hasKey messageTs channelId e = true
  <-> slack_message_ts e = messageTs /\ slack_channel_id e = channelId.
Proof.
  unfold Queue.hasKey. rewrite andb_true_iff, !eqb_eq. reflexivity.
Qed.

Lemma find_first (A : Type) (f : A -> bool) (l : list A) :
  match find f l with
  | Some x =>
      exists before after,
        l = before ++ x :: after /\ f x = true /\ Forall (fun y => f y = false) before
  | None => Forall (fun y => f y = false) l
  end.
Proof.
  induction l as [|a l IH]; simpl.
  - constructor.
  - destruct (f a) eqn:Ha.
    + exists [], l. repeat split; [exact Ha | constructor].
    + destruct (find f l) as [x|].
      * destruct IH as [before [after [Hl [Hx Hbefore]]]].
        exists (a :: before), after. rewrite Hl. repeat split; [exact Hx|].
        constructor; assumption.
      * constructor; assumption.
Qed.

(** C4, as the code has it.  The lookup returns the first entry of the
    stored array with the given message and channel, none when no entry has
    them.  So it returns the entry when exactly one has the key, and the
    oldest one with the key when the array is in creation order. *)
Theorem getTaskByMessage_first_match
    (tasks : list QueueEntry) (messageTs channelId : jsstring) :
  match LocalStorageService.getTaskByMessage tasks messageTs channelId with
  | Some e =>
      (exists before after,
          tasks = before ++ e :: after
          /\ (slack_message_ts e = messageTs /\ slack_channel_id e = channelId)
          /\ Forall (fun x => ~ (slack_message_ts x = messageTs
                                 /\ slack_channel_id x = channelId)) before)
      /\ (forall e', (forall x, In x tasks ->
                        slack_message_ts x = messageTs /\ slack_channel_id x = channelId ->
                        x = e') -> e = e')
      /\ (Queue.inCreationOrder tasks ->
          forall e', In e' tasks ->
                     slack_message_ts e' = messageTs /\ slack_channel_id e' = channelId ->
                     (created_at e <= created_at e')%N)
  | None =>
      forall x, In x tasks ->
                ~ (slack_message_ts x = messageTs /\ slack_channel_id x = channelId)
  end.
Proof.
  unfold LocalStorageService.getTaskByMessage.
  pose proof (find_first (Queue.hasKey messageTs channelId) tasks) as Hfind.
  destruct (find (Queue.hasKey messageTs channelId) tasks) as [e|].
  - destruct Hfind as [before [after [Htasks [He Hbefore]]]].
    apply hasKey_iff in He.
    assert (Hbefore' : Forall (fun x => ~ (slack_message_ts x = messageTs
                                           /\ slack_channel_id x = channelId)) before).
    { eapply Forall_impl; [|exact Hbefore].
      intros x Hx Hkey. apply hasKey_iff in Hkey. congruence. }
    split; [|split].
    + exists before, after. auto.
    + intros e' Honly. apply Honly; [|exact He].
      rewrite Htasks. apply in_or_app. right. left. reflexivity.
    + intros Hsorted e' Hin Hkey.
      rewrite Htasks in Hin, Hsorted. apply in_app_or in Hin.
      destruct Hin as [Hin | [<- | Hin]].
      * rewrite Forall_forall in Hbefore'. destruct (Hbefore' _ Hin Hkey).
      * apply N.le_refl.
      * unfold Queue.inCreationOrder in Hsorted.
        apply sorted_suffix in Hsorted.
        inversion Hsorted as [|? ? _ Hall]; subst.
        rewrite Forall_forall in Hall. exact (Hall _ Hin).
  - intros x Hin Hkey. rewrite Forall_forall in Hfind.
    apply hasKey_iff in Hkey. specialize (Hfind _ Hin). congruence.
Qed.

End GetTaskByMessage.

Lemma getTaskByMessage_first_match_witness :
  let tasks := [Scenario.entry "a" 1 None; Scenario.entry "b" 2 None] in
  LocalStorageService.getTaskByMessage tasks (str "1700000000.000100") (str "C1")
  = Some (Scenario.entry "a" 1 None)
  /\ forall e', In e' tasks ->
       slack_message_ts e' = str "1700000000.000100" /\ slack_channel_id e' = str "C1" ->
       (1 <= created_at e')%N.
Proof.
  intros tasks. split; [reflexivity|].
  pose proof (getTaskByMessage_first_match tasks (str "1700000000.000100") (str "C1"))
    as Hfirst.
  change (LocalStorageService.getTaskByMessage tasks (str "1700000000.000100") (str "C1"))
    with (Some (Scenario.entry "a" 1 None)) in Hfirst.
  destruct Hfirst as [_ [_ Holdest]].
  apply Holdest.
  repeat constructor; unfold Queue.olderOrSame; simpl; lia.
Defined.

(** C4 as stated fails when two entries have the key: the lookup returns
    the one stored first, which is the older one, not the most recently
    created. *)
Lemma getTaskByMessage_returns_oldest :
  let older := Scenario.entry "a" 1 None in
  let newer := Scenario.entry "b" 2 None in
  LocalStorageService.getTaskByMessage [older; newer]
    (str "1700000000.000100") (str "C1") = Some older
  /\ In newer [older; newer]
  /\ Queue.hasKey (str "1700000000.000100") (str "C1") newer = true
  /\ (created_at older < created_at newer)%N.
Proof.
  intros older newer. repeat split. right. left. reflexivity.
Qed.

(** ** The sync client: one result per task (C10) *)

Section CreateMultipleTasks.
Context `{Builtins} `{Environment}.
Import MotionService.

(** The callback of a batch never throws: what [createTask] throws is
    turned into a failed result. *)
Lemma createInBatch_returns (options : Options) (task : Task) (s : Sys) :
  exists r s', createInBatch options task s = (Returned r, s').
Proof.
  unfold createInBatch, tryCatch.
  destruct (createTask task options s) as [[r|e] s'].
  - exists r, s'. reflexivity.
  - eexists. eexists. reflexivity.
Qed.

Lemma mapM_createInBatch (options : Options) (tasks : list Task) :
  forall s, exists rs s',
    mapM (createInBatch options) tasks s = (Returned rs, s')
    /\ Forall2 (producedBy options) tasks rs.
Proof.
  induction tasks as [|task rest IH]; intros s; simpl.
  - exists [], s. split; [reflexivity | constructor].
  - unfold bind at 1.
    destruct (createInBatch_returns options task s) as [r [s1 Hr]]. rewrite Hr.
    unfold bind at 1.
    destruct (IH s1) as [rs [s2 [Hrs Hall]]]. rewrite Hrs.
    exists (r :: rs), s2. split; [reflexivity|].
    constructor; [|exact Hall]. exists s, s1. exact Hr.
Qed.

(** The loop over the batches returns what it was given followed by one
    result per remaining task, in the order of the tasks. *)
Lemma createBatches_returns (n : nat) :
  forall tasks options results s,
    length tasks <= n ->
    exists rs s',
      createBatches tasks options results s = (Returned (results ++ rs), s')
      /\ Forall2 (producedBy options) tasks rs.
Proof.
  induction n as [|n IH]; intros tasks options results s Hlen.
  - destruct tasks; [|simpl in Hlen; lia].
    simp createBatches. exists [], s. rewrite app_nil_r. split; [reflexivity | constructor].
  - destruct tasks as [|task rest].
    + simp createBatches. exists [], s. rewrite app_nil_r.
      split; [reflexivity | constructor].
    + simp createBatches. unfold bind at 1.
      destruct (mapM_createInBatch options (firstn batchSize (task :: rest)) s)
        as [batch [s1 [Hbatch Hall1]]].
      rewrite Hbatch.
      destruct (IH (skipn batchSize (task :: rest)) options (results ++ batch) s1)
        as [rs [s2 [Hrs Hall2]]].
      { rewrite length_skipn. unfold batchSize. simpl in *. lia. }
      rewrite Hrs. exists (batch ++ rs), s2. rewrite app_assoc.
      split; [reflexivity|].
      rewrite <- (firstn_skipn batchSize (task :: rest)).
      apply Forall2_app; assumption.
Qed.

Lemma no_failed_iff_all_succeeded (results : list CreateResult) :
  Nat.eqb (length (filter (fun r => negb (success r)) results)) 0 = true
  <-> Forall (fun r => success r = true) results.
Proof.
  rewrite Nat.eqb_eq. induction results as [|r results IH]; simpl.
  - split; [constructor | reflexivity].
  - destruct (success r) eqn:Hr; simpl.
    + rewrite IH. split.
      * intros Hall. constructor; assumption.
      * intros Hall. inversion Hall; assumption.
    + split; [discriminate|].
      intros Hall. inversion Hall; congruence.
Qed.

(** C10.  [createMultipleTasks] returns: its results are as many as the
    tasks, the result at each position is the result of creating the task
    at that position, and the overall flag is set exactly when every
    result has [success] set. *)
Theorem createMultipleTasks_one_result_per_task
    (tasks : list Task) (options : Options) (s : Sys) :
  exists r s',
    createMultipleTasks tasks options s = (Returned r, s')
    /\ length (batch_results r) = length tasks
    /\ Forall2 (producedBy options) tasks (batch_results r)
    /\ (batch_success r = true
        <-> Forall (fun res => success res = true) (batch_results r)).
Proof.
  unfold createMultipleTasks, bind.
  destruct (createBatches_returns (n := length tasks) tasks options [] s (le_n _))
    as [rs [s' [Hrs Hall]]].
  rewrite Hrs. simpl.
  eexists. exists s'. split; [reflexivity|]. simpl. split; [|split].
  - symmetry. exact (Forall2_length Hall).
  - exact Hall.
  - apply no_failed_iff_all_succeeded.
Qed.

(** The counts of the returned object add up. *)
Lemma createMultipleTasks_counts (tasks : list Task) (options : Options) (s : Sys) :
  forall r s',
    createMultipleTasks tasks options s = (Returned r, s') ->
    batch_total r = length tasks
    /\ batch_successful r + batch_failed r = batch_total r
    /\ batch_failed r = length (batch_failed_tasks r).
Proof.
  intros r s'. unfold createMultipleTasks, bind.
  destruct (createBatches_returns (n := length tasks) tasks options [] s (le_n _))
    as [rs [s1 [Hrs Hall]]].
  rewrite Hrs. simpl. intros E. injection E as <- <-. simpl.
  split; [symmetry; exact (Forall2_length Hall)|]. split; [|reflexivity].
  clear. induction rs as [|x rs IH]; simpl; [reflexivity|].
  destruct (success x); simpl; lia.
Qed.

End CreateMultipleTasks.

(** Twelve tasks go out in two batches; with the third request refused the
    batch reports failure, eleven successes and one failure. *)
Example createMultipleTasks_twelve :
  let answers := [true; true; false; true; true; true; true; true; true; true; true; true] in
  match @MotionService.createMultipleTasks Scenario.builtins Scenario.environment
          (repeat Scenario.report 12) noOptions (Scenario.start answers []) with
  | (Returned r, s') =>
      (batch_success r, batch_total r, batch_successful r, batch_failed r,
       map success (batch_results r), length (motion_requests s'))
  | (Thrown _, _) => (true, 0, 0, 0, [], 0)
  end
  = (false, 12, 11, 1,
     [true; true; false; true; true; true; true; true; true; true; true; true], 12).
Proof. vm_compute. reflexivity. Qed.

(** ** The approve button on an entry that is not pending (C9) *)

Section ApproveTasks.
Context `{Builtins} `{Environment}.
Import App.

Lemma Status_eqb_eq (a b : Status) : Status_eqb a b = true <-> a = b.
Proof. destruct a, b; simpl; split; congruence. Qed.

(** C9.  When the entry stored for the clicked message is not pending, the
    handler sends no request to Motion and leaves the queue, and the other
    tables, as they are; besides acknowledging the click, all it does is
    post the notice that the tasks are already created or being
    processed. *)
Theorem approve_tasks_not_pending
    (messageTs channelId : jsstring) (s : Sys) (storedTask : QueueEntry) :
  LocalStorageService.getTaskByMessage (task_queue s) messageTs channelId = Some storedTask ->
  status storedTask <> pending ->
  let s' := snd (approve_tasks messageTs channelId s) in
  task_queue s' = task_queue s
  /\ motion_requests s' = motion_requests s
  /\ channel_mappings s' = channel_mappings s
  /\ task_history s' = task_history s
  /\ slack_calls s' =
       slack_calls s ++
       match fst (slackCall Ack (world s)) with
       | Returned _ =>
           [Ack;
            PostMessage channelId
              (TasksAlready (Status_eqb (status storedTask) completed)) (Some messageTs)]
       | Thrown _ => [Ack]
       end.
Proof.
  intros Hstored Hstatus.
  assert (Hnot : negb (Status_eqb (status storedTask) pending) = true).
  { destruct (Status_eqb (status storedTask) pending) eqn:E; [|reflexivity].
    apply Status_eqb_eq in E. contradiction. }
  cbv zeta.
  destruct (approve_tasks messageTs channelId s) as [outcome s'] eqn:Hrun.
  revert Hrun.
  unfold approve_tasks, bind, slack, tryCatch, getTaskByMessage, getQueue, ret.
  destruct (slackCall Ack (world s)) as [[ts|e] w]; simpl.
  - rewrite Hstored, Hnot. simpl.
    match goal with
    | |- context [slackCall ?call w] => destruct (slackCall call w) as [[ts'|e'] w']
    end; simpl; intros Hrun; injection Hrun as <- <-; simpl;
      rewrite <- app_assoc; repeat split.
  - intros Hrun. injection Hrun as <- <-. repeat split.
Qed.

End ApproveTasks.

Lemma approve_tasks_not_pending_witness :
  let done :=
    Queue.merge (Scenario.entry "a" 1 None)
      {| u_status := Some completed; u_error_message := None; u_retry_count := None;
         u_extracted_tasks := None; u_workspace_suggestions := None |} 5%N in
  let s := Scenario.start [true] [done] in
  let s' := snd (@App.approve_tasks Scenario.builtins Scenario.environment
                   (str "1700000000.000100") (str "C1") s) in
  task_queue s' = [done] /\ motion_requests s' = [].
Proof.
  intros done s s'.
  destruct (@approve_tasks_not_pending Scenario.builtins Scenario.environment
              (str "1700000000.000100") (str "C1") s done eq_refl)
    as [Hqueue [Hrequests _]].
  - discriminate.
  - split; [exact Hqueue | exact Hrequests].
Defined.

(** On a pending entry with a suggestion the same click does reach Motion. *)
Example approve_tasks_pending :
  let waiting :=
    Queue.merge (Scenario.entry "a" 1 None)
      {| u_status := None; u_error_message := None; u_retry_count := None;
         u_extracted_tasks := None;
         u_workspace_suggestions := Some [Scenario.suggestion] |} 5%N in
  let s' := snd (@App.approve_tasks Scenario.builtins Scenario.environment
                   (str "1700000000.000100") (str "C1")
                   (Scenario.start [true] [waiting])) in
  (Scenario.summary s', length (motion_requests s')) = ([(completed, None)], 1).
Proof. vm_compute. reflexivity. Qed.

(** ** Reasoning about runs: relations kept by every step *)

Section Keeps.
Context `{Builtins} `{Environment}.
Variable I : Sys -> Sys -> Prop.
Hypothesis I_trans : forall a b c, I a b -> I b c -> I a c.
Hypothesis I_queue : forall s s', task_queue s' = task_queue s -> I s s'.

Lemma keeps_ret (A : Type) (a : A) : keeps I (ret a).
Proof. intros s. apply I_queue. reflexivity. Qed.

Lemma keeps_throw (A : Type) (e : Error) : keeps I (throw (A := A) e).
Proof. intros s. apply I_queue. reflexivity. Qed.

Lemma keeps_bind (A B : Type) (m : M A) (k : A -> M B) :
  keeps I m -> (forall a, keeps I (k a)) -> keeps I (bind m k).
Proof.
  intros Hm Hk s. unfold bind. specialize (Hm s).
  destruct (m s) as [[a|e] s1]; simpl in *.
  - eapply I_trans; [exact Hm | apply Hk].
  - exact Hm.
Qed.

Lemma keeps_tryCatch (A : Type) (m : M A) (handler : Error -> M A) :
  keeps I m -> (forall e, keeps I (handler e)) -> keeps I (tryCatch m handler).
Proof.
  intros Hm Hh s. unfold tryCatch. specialize (Hm s).
  destruct (m s) as [[a|e] s1]; simpl in *.
  - exact Hm.
  - eapply I_trans; [exact Hm | apply Hh].
Qed.

Lemma keeps_mapM (A B : Type) (f : A -> M B) (l : list A) :
  (forall a, keeps I (f a)) -> keeps I (mapM f l).
Proof.
  intros Hf. induction l as [|a l IH]; simpl.
  - apply keeps_ret.
  - apply keeps_bind; [apply Hf|]. intros b.
    apply keeps_bind; [exact IH|]. intros bs. apply keeps_ret.
Qed.

Lemma keeps_now : keeps I now.
Proof.
  intros s. unfold now. destruct (dateNow (world s)). apply I_queue. reflexivity.
Qed.

Lemma keeps_slack (call : SlackCall) : keeps I (slack call).
Proof.
  intros s. unfold slack. destruct (slackCall call (world s)). apply I_queue. reflexivity.
Qed.

Lemma keeps_post (motionTask : MotionTask) : keeps I (post motionTask).
Proof.
  intros s. unfold post. destruct (motionPostTask motionTask (world s)).
  apply I_queue. reflexivity.
Qed.

Lemma keeps_getQueue : keeps I getQueue.
Proof. intros s. apply I_queue. reflexivity. Qed.

Lemma keeps_createTask (task : Task) (options : Options) :
  keeps I (MotionService.createTask task options).
Proof.
  unfold MotionService.createTask.
  apply keeps_bind.
  { unfold MotionService.mapPriority.
    destruct (or_else (priority task) (JStr (str "medium")));
      first [apply keeps_ret | apply keeps_throw]. }
  intros mapped. apply keeps_bind.
  { intros s. apply I_queue. reflexivity. }
  intros dueDate. apply keeps_bind; [apply keeps_post|].
  intros [dataId | message httpStatus].
  - apply keeps_bind; [apply keeps_now | intros; apply keeps_ret].
  - unfold MotionService.handleError.
    apply keeps_bind; [apply keeps_now | intros; apply keeps_ret].
Qed.

Lemma keeps_createInBatch (options : Options) (task : Task) :
  keeps I (MotionService.createInBatch options task).
Proof.
  apply keeps_tryCatch; [apply keeps_createTask | intros; apply keeps_ret].
Qed.

Lemma keeps_createBatches (n : nat) :
  forall tasks options results,
    length tasks <= n -> keeps I (MotionService.createBatches tasks options results).
Proof.
  induction n as [|n IH]; intros tasks options results Hlen;
    destruct tasks as [|task rest]; simp createBatches;
    try apply keeps_ret; try (simpl in Hlen; lia).
  apply keeps_bind; [apply keeps_mapM; intros; apply keeps_createInBatch|].
  intros batch. apply IH.
  rewrite length_skipn. unfold MotionService.batchSize. simpl in *. lia.
Qed.

Lemma keeps_createMultipleTasks (tasks : list Task) (options : Options) :
  keeps I (MotionService.createMultipleTasks tasks options).
Proof.
  apply keeps_bind; [apply (keeps_createBatches (n := length tasks)); lia|].
  intros results. apply keeps_ret.
Qed.

Lemma keeps_getChannelMapping (channelId workspaceId : jsstring) :
  keeps I (Batch.getChannelMapping channelId workspaceId).
Proof. intros s. apply I_queue. reflexivity. Qed.

Lemma keeps_addTaskHistory (record : HistoryRecord) : keeps I (Batch.addTaskHistory record).
Proof. intros s. apply I_queue. reflexivity. Qed.

(** An update of the relational store is kept as soon as rewriting the
    rows with the update is. *)
Lemma keeps_updateTaskQueue (i : jsstring) (updates : Updates) :
  (forall s stamp s',
      task_queue s' = SupabaseService.updateRows i updates stamp (task_queue s) ->
      I s s') ->
  keeps I (Batch.updateTaskQueue i updates).
Proof.
  intros Hupdate s. unfold Batch.updateTaskQueue, bind, now, getQueue, putQueue.
  destruct (dateNow (world s)) as [stamp w]. simpl.
  match goal with
  | |- context [SupabaseService.single ?l] => destruct (SupabaseService.single l)
  end; simpl; apply (Hupdate s stamp); reflexivity.
Qed.

End Keeps.

(** ** The retry sweep (C1) *)

Section RetrySweep.
Context `{Builtins} `{Environment}.
Import Batch.

Lemma noNewFailure_queue (s s' : Sys) : task_queue s' = task_queue s -> noNewFailure s s'.
Proof.
  unfold noNewFailure. intros ->.
  induction (task_queue s); constructor; auto.
Qed.

Lemma noNewFailure_trans (a b c : Sys) :
  noNewFailure a b -> noNewFailure b c -> noNewFailure a c.
Proof.
  unfold noNewFailure. generalize (task_queue a) (task_queue b) (task_queue c).
  intros qa qb qc Hab. revert qc.
  induction Hab as [|x y qa qb [Hid Hst] _ IH]; intros qc Hbc;
    inversion Hbc as [|y' z qb' qc' [Hid' Hst'] Hrest]; subst; constructor.
  - split; [congruence | tauto].
  - apply IH. exact Hrest.
Qed.

(** Rewriting rows with an update that does not set [failed] marks no row
    as failed. *)
Lemma updateRows_noNewFailure (i : jsstring) (updates : Updates) (stamp : Time)
    (rows : list QueueEntry) :
  u_status updates <> Some failed ->
  Forall2 (fun e e' => id e' = id e /\ (status e' = failed -> status e = failed))
    rows (SupabaseService.updateRows i updates stamp rows).
Proof.
  intros Hu. unfold SupabaseService.updateRows.
  induction rows as [|row rows IH]; simpl; constructor; [|exact IH].
  destruct (Queue.hasId i row); [|auto].
  simpl. split; [reflexivity|].
  destruct (u_status updates) as [st|]; simpl; [|auto].
  intros ->. contradiction.
Qed.

Lemma updateTaskQueue_noNewFailure (i : jsstring) (updates : Updates) :
  u_status updates <> Some failed -> keeps noNewFailure (updateTaskQueue i updates).
Proof.
  intros Hu. apply keeps_updateTaskQueue.
  intros s stamp s' Hs'. unfold noNewFailure. rewrite Hs'.
  apply updateRows_noNewFailure. exact Hu.
Qed.

(** What the sweep reads has a retry count below 3: the query leaves the
    other rows out. *)
Lemma getPendingTasks_below_limit (rows : list QueueEntry) (limit : nat) (e : QueueEntry) :
  In e (SupabaseService.getPendingTasks rows limit) ->
  status e = pending /\ exists n, retry_count e = Some n /\ n < 3.
Proof.
  intros Hin. apply supabase_isRetryable_iff.
  unfold SupabaseService.getPendingTasks in Hin.
  apply In_firstn in Hin.
  apply (Permutation_in _ (Permutation_sym (oldestFirst_perm _))) in Hin.
  apply filter_In in Hin. tauto.
Qed.

(** So the branch of the sweep that marks an entry as permanently failed
    is never taken. *)
Lemma retryOne_noNewFailure (task : QueueEntry) :
  Queue.retries task < 3 -> keeps noNewFailure (retryOne task).
Proof.
  intros Hlt. unfold retryOne.
  destruct (Nat.leb_spec 3 (Queue.retries task)) as [Hge|_]; [lia|].
  apply (@keeps_tryCatch _ _ noNewFailure_trans).
  - apply (@keeps_bind _ _ noNewFailure_trans).
    + apply (@keeps_createMultipleTasks _ _ _ noNewFailure_trans noNewFailure_queue).
    + intros r. destruct (batch_success r);
        (apply (@keeps_bind _ _ noNewFailure_trans);
         [apply updateTaskQueue_noNewFailure; discriminate
         | intros; apply (@keeps_ret _ _ noNewFailure_queue)]).
  - intros e. apply (@keeps_bind _ _ noNewFailure_trans).
    + apply updateTaskQueue_noNewFailure. discriminate.
    + intros. apply (@keeps_ret _ _ noNewFailure_queue).
Qed.

Lemma retryEach_noNewFailure (pendingTasks : list QueueEntry) :
  Forall (fun task => Queue.retries task < 3) pendingTasks ->
  keeps noNewFailure (retryEach pendingTasks).
Proof.
  induction 1 as [|task rest Htask _ IH]; simpl.
  - apply (@keeps_ret _ _ noNewFailure_queue).
  - apply (@keeps_bind _ _ noNewFailure_trans); [apply retryOne_noNewFailure; exact Htask|].
    intros _. exact IH.
Qed.

(** In every world, a sweep marks no entry as failed. *)
Lemma processRetryQueue_noNewFailure : keeps noNewFailure processRetryQueue.
Proof.
  unfold processRetryQueue.
  apply (@keeps_tryCatch _ _ noNewFailure_trans); [|intros; apply (@keeps_ret _ _ noNewFailure_queue)].
  intros s. unfold bind, getPendingTasks, getQueue, ret. simpl.
  apply retryEach_noNewFailure.
  rewrite Forall_forall. intros e He.
  destruct (getPendingTasks_below_limit _ _ _ He) as [_ [n [Hn Hlt]]].
  unfold Queue.retries. rewrite Hn. exact Hlt.
Qed.

(** An entry whose retry count has reached 3 is not read by a sweep. *)
Lemma exhausted_not_pending (rows : list QueueEntry) (limit : nat) (e : QueueEntry) :
  3 <= Queue.retries e -> ~ In e (SupabaseService.getPendingTasks rows limit).
Proof.
  intros Hge Hin.
  destruct (getPendingTasks_below_limit _ _ _ Hin) as [_ [n [Hn Hlt]]].
  unfold Queue.retries in Hge. rewrite Hn in Hge. lia.
Qed.

End RetrySweep.

(** C1 on the code.  In a world where Motion refuses every request, the
    one pending entry of the queue goes through three sweeps with its
    retry count going up to 3; from then on no sweep reads it, which is
    the second half of the claim, but its status is still [pending] after
    the third sweep and after the fourth: it is never set to [failed]. *)
Theorem processRetryQueue_exhausted_entry_stays_pending :
  let sweep := fun s =>
    snd (@Batch.processRetryQueue Scenario.builtins Scenario.environment s) in
  let s0 := Scenario.start [] [Scenario.entry "a" 1 (Some 0)] in
  Scenario.summary (Nat.iter 1 sweep s0) = [(pending, Some 1)]
  /\ Scenario.summary (Nat.iter 2 sweep s0) = [(pending, Some 2)]
  /\ Scenario.summary (Nat.iter 3 sweep s0) = [(pending, Some 3)]
  /\ SupabaseService.getPendingTasks (task_queue (Nat.iter 3 sweep s0)) 5 = []
  /\ Scenario.summary (Nat.iter 4 sweep s0) = [(pending, Some 3)]
  /\ length (motion_requests (Nat.iter 4 sweep s0)) = 3.
Proof. vm_compute. repeat split. Qed.

(** ** Approval and the failed sync (C2) *)

(** Decomposes a goal [keeps I m] along the structure of [m]; [T] and [Q]
    are the proofs that [I] is transitive and holds between states with the
    same queue. *)
Ltac keeps_steps T Q :=
  repeat (first
    [ exact T
    | exact Q
    | match goal with
      | |- forall _, keeps _ _ => intros ?
      | |- keeps _ (ret _) => apply keeps_ret
      | |- keeps _ (throw _) => apply keeps_throw
      | |- keeps _ (slack _) => apply keeps_slack
      | |- keeps _ (bind _ _) => apply keeps_bind
      | |- keeps _ (tryCatch _ _) => apply keeps_tryCatch
      | |- keeps _ (mapM _ _) => apply keeps_mapM
      | |- keeps _ (MotionService.createMultipleTasks _ _) => apply keeps_createMultipleTasks
      | |- keeps _ (Batch.getChannelMapping _ _) => apply keeps_getChannelMapping
      | |- keeps _ (Batch.addTaskHistory _) => apply keeps_addTaskHistory
      | |- keeps _ (if ?b then _ else _) => destruct b
      end ]).

Section Approval.
Context `{Builtins} `{Environment}.
Import Batch.

Lemma staysNotPending_trans (i : jsstring) (a b c : Sys) :
  staysNotPending i a b -> staysNotPending i b c -> staysNotPending i a c.
Proof. unfold staysNotPending. tauto. Qed.

Lemma staysNotPending_queue (i : jsstring) (s s' : Sys) :
  task_queue s' = task_queue s -> staysNotPending i s s'.
Proof. unfold staysNotPending, nonePending. intros ->. tauto. Qed.

(** An update that sets a status other than [pending] leaves no row of
    its id pending. *)
Lemma updateRows_sets_status (i : jsstring) (updates : Updates) (stamp : Time)
    (st : Status) (rows : list QueueEntry) :
  u_status updates = Some st -> st <> pending ->
  Forall (fun e => Queue.hasId i e = true -> status e <> pending)
    (SupabaseService.updateRows i updates stamp rows).
Proof.
  intros Hu Hst. unfold SupabaseService.updateRows.
  induction rows as [|row rows IH]; simpl; constructor; [|exact IH].
  destruct (Queue.hasId i row) eqn:Hid.
  - intros _. simpl. rewrite Hu. exact Hst.
  - intros Hid'. congruence.
Qed.

(** An update that does not set [pending], on whatever id, brings no row
    back to pending. *)
Lemma updateRows_stays_not_pending (i j : jsstring) (updates : Updates) (stamp : Time)
    (rows : list QueueEntry) :
  u_status updates <> Some pending ->
  Forall (fun e => Queue.hasId i e = true -> status e <> pending) rows ->
  Forall (fun e => Queue.hasId i e = true -> status e <> pending)
    (SupabaseService.updateRows j updates stamp rows).
Proof.
  intros Hu. unfold SupabaseService.updateRows.
  induction 1 as [|row rows Hrow _ IH]; simpl; constructor; [|exact IH].
  destruct (Queue.hasId j row); [|exact Hrow].
  unfold Queue.hasId. simpl. intros Hid.
  destruct (u_status updates) as [st|]; simpl.
  - intros ->. contradiction.
  - exact (Hrow Hid).
Qed.

Lemma updateTaskQueue_sets_status (i : jsstring) (updates : Updates) (st : Status) :
  u_status updates = Some st -> st <> pending ->
  forall s, nonePending i (snd (updateTaskQueue i updates s)).
Proof.
  intros Hu Hst.
  apply (@keeps_updateTaskQueue _ (fun _ s' => nonePending i s')).
  intros s stamp s' Hs'. unfold nonePending. rewrite Hs'.
  eapply updateRows_sets_status; eassumption.
Qed.

Lemma updateTaskQueue_stays_not_pending (i j : jsstring) (updates : Updates) :
  u_status updates <> Some pending ->
  keeps (staysNotPending i) (updateTaskQueue j updates).
Proof.
  intros Hu. apply keeps_updateTaskQueue.
  intros s stamp s' Hs'. unfold staysNotPending, nonePending. rewrite Hs'.
  apply updateRows_stays_not_pending. exact Hu.
Qed.

(** What is established by a first step is still there at the end when
    the rest of the block and the handler keep it. *)
Lemma established_and_kept (P : Sys -> Prop) (A B : Type)
    (first : M A) (rest : A -> M B) (handler : Error -> M B) :
  (forall s, P (snd (first s))) ->
  (forall a, keeps (fun s s' => P s -> P s') (rest a)) ->
  (forall e, keeps (fun s s' => P s -> P s') (handler e)) ->
  forall s, P (snd (tryCatch (bind first rest) handler s)).
Proof.
  intros Hfirst Hrest Hhandler s. unfold tryCatch, bind.
  specialize (Hfirst s).
  destruct (first s) as [[a|e] s1]; simpl in Hfirst.
  - specialize (Hrest a s1 Hfirst).
    destruct (rest a s1) as [[b|e] s2]; simpl in *.
    + exact Hrest.
    + exact (Hhandler e s2 Hrest).
  - exact (Hhandler e s1 Hfirst).
Qed.

(** Whatever Motion and Slack answer, over a store that answers every
    request the approval of an entry leaves no row with its id pending: a
    failed sync is recorded as [failed], which the retry sweep does not
    read. *)
Lemma handleTaskApproval_never_pending
    (queuedTasks : QueueEntry) (channelId messageTs : jsstring) (s : Sys) :
  nonePending (id queuedTasks)
    (snd (handleTaskApproval queuedTasks channelId messageTs s)).
Proof.
  unfold handleTaskApproval.
  apply (established_and_kept (nonePending (id queuedTasks))).
  - intros s0. eapply updateTaskQueue_sets_status; [reflexivity | discriminate].
  - intros _.
    change (fun s0 s' => nonePending (id queuedTasks) s0 -> nonePending (id queuedTasks) s')
      with (staysNotPending (id queuedTasks)).
    keeps_steps (@staysNotPending_trans (id queuedTasks))
                (@staysNotPending_queue (id queuedTasks));
      try (apply updateTaskQueue_stays_not_pending; discriminate).
    unfold failedLine.
    match goal with |- keeps _ (match ?r with _ => _ end) => destruct r end;
      keeps_steps (@staysNotPending_trans (id queuedTasks))
                  (@staysNotPending_queue (id queuedTasks)).
  - intros e.
    change (fun s0 s' => nonePending (id queuedTasks) s0 -> nonePending (id queuedTasks) s')
      with (staysNotPending (id queuedTasks)).
    keeps_steps (@staysNotPending_trans (id queuedTasks))
                (@staysNotPending_queue (id queuedTasks)).
    apply updateTaskQueue_stays_not_pending. discriminate.
Qed.

End Approval.

(** C2 on the code.  A pending entry with one task is approved in a world
    where Motion refuses the request: [handleTaskApproval] of batch.js,
    called with the entry, leaves it [failed] with its retry count at 1
    while telling the user that the tasks are queued for retry, and the
    next sweep does not read it; the button handler of the local-storage
    application leaves it [failed] as well, with its retry count
    untouched.  When Motion accepts the request the entry ends
    [completed]. *)
Theorem approval_failure_marks_failed :
  let ts := str "1700000000.000100" in
  let ch := str "C1" in
  let approved answers :=
    snd (@Batch.handleTaskApproval Scenario.builtins Scenario.environment
           (Scenario.entry "a" 1 (Some 0)) ch ts
           (Scenario.start answers [Scenario.entry "a" 1 (Some 0)])) in
  let waiting :=
    Queue.merge (Scenario.entry "a" 1 None)
      {| u_status := None; u_error_message := None; u_retry_count := None;
         u_extracted_tasks := None;
         u_workspace_suggestions := Some [Scenario.suggestion] |} 5%N in
  let clicked answers :=
    snd (@App.approve_tasks Scenario.builtins Scenario.environment ts ch
           (Scenario.start answers [waiting])) in
  Scenario.summary (approved [false]) = [(failed, Some 1)]
  /\ last (slack_calls (approved [false])) Ack = ChatUpdate ch (str "1001") QueuedForRetry
  /\ SupabaseService.getPendingTasks (task_queue (approved [false])) 5 = []
  /\ Scenario.summary (clicked [false]) = [(failed, None)]
  /\ Scenario.summary (approved [true]) = [(completed, Some 0)]
  /\ Scenario.summary (clicked [true]) = [(completed, None)].
Proof. vm_compute. repeat split. Qed.

(* ===================================================================== *)
(** * Part III: further properties of the modelled code *)
(* ===================================================================== *)

(** ** The flat-file store: storing, looking up, updating *)

Section LocalStore.
Context `{Builtins} `{Environment}.






End LocalStore.


(** ** The relational store and the handlers of batch.js *)

Section BatchHandlers.
Context `{Builtins} `{Environment}.
Import Batch.




Lemma filter_updateRows (i : jsstring) (updates : Updates) (stamp : Time)
    (rows : list QueueEntry) :
  filter (Queue.hasId i) (SupabaseService.updateRows i updates stamp rows)
  = map (fun row => Queue.merge row updates stamp) (filter (Queue.hasId i) rows).
Proof.
  unfold SupabaseService.updateRows.
  induction rows as [|row rows IH]; simpl; [reflexivity|].
  destruct (Queue.hasId i row) eqn:Hrow.
  - unfold Queue.hasId in *. simpl. rewrite Hrow. simpl. rewrite IH. reflexivity.
  - rewrite Hrow. exact IH.
Qed.


End BatchHandlers.


Section BatchDecisions.
Context `{Builtins} `{Environment}.
Import Batch.

Lemma onlyId_queue (i : jsstring) (s s' : Sys) :
  task_queue s' = task_queue s -> onlyId i s s'.
Proof.
  unfold onlyId. intros ->. induction (task_queue s); constructor; auto.
Qed.

Lemma onlyId_trans (i : jsstring) (a b c : Sys) :
  onlyId i a b -> onlyId i b c -> onlyId i a c.
Proof.
  unfold onlyId. generalize (task_queue a) (task_queue b) (task_queue c).
  intros qa qb qc Hab. revert qc.
  induction Hab as [|x y qa qb [Hid Hsame] _ IH]; intros qc Hbc;
    inversion Hbc as [|y' z qb' qc' [Hid' Hsame'] Hrest]; subst; constructor.
  - split; [congruence|]. intros Hx.
    rewrite Hsame', (Hsame Hx); [reflexivity|].
    rewrite (Hsame Hx). exact Hx.
  - apply IH. exact Hrest.
Qed.

Lemma updateTaskQueue_onlyId (i : jsstring) (updates : Updates) :
  keeps (onlyId i) (updateTaskQueue i updates).
Proof.
  apply keeps_updateTaskQueue. intros s stamp s' Hs'. unfold onlyId. rewrite Hs'.
  unfold SupabaseService.updateRows. clear Hs'.
  induction (task_queue s) as [|row rows IH]; simpl; [constructor|].
  constructor; [|exact IH].
  destruct (Queue.hasId i row); [|auto].
  split; [reflexivity | discriminate].
Qed.

(** X4.  A reaction decides nothing.  [handleBatch] never reaches its
    query: whatever the action and the state, it sends nothing to Motion,
    changes none of the stored tables and only tries to post the notice
    of an error, so that the row it was called for stays as it was, a
    pending row pending. *)
Theorem handleBatch_takes_no_decision
    (action : Action) (messageTs channelId : jsstring) (s : Sys) :
  exists outcome s',
    handleBatch action messageTs channelId s = (outcome, s')
    /\ quiet s s'
    /\ slack_calls s'
       = slack_calls s ++ [PostMessage channelId ErrorProcessing (Some messageTs)]
    /\ pendingByKey messageTs channelId (task_queue s')
       = pendingByKey messageTs channelId (task_queue s).
Proof.
  unfold handleBatch, supabaseOfService, tryCatch, throw, bind, slack, ret.
  destruct (slackCall (PostMessage channelId ErrorProcessing (Some messageTs)) (world s))
    as [[ts|e] w]; eexists; eexists; (split; [reflexivity|]); repeat split.
Qed.

End BatchDecisions.

Section BatchOutcomes.
Context `{Builtins} `{Environment}.
Import Batch.

Lemma updateRows_sets_fields (i : jsstring) (updates : Updates) (stamp : Time)
    (rows : list QueueEntry) (P : QueueEntry -> Prop) :
  (forall row, P (Queue.merge row updates stamp)) ->
  Forall (fun e => Queue.hasId i e = true -> P e)
    (SupabaseService.updateRows i updates stamp rows).
Proof.
  intros HP. unfold SupabaseService.updateRows.
  induction rows as [|row rows IH]; simpl; constructor; [|exact IH].
  destruct (Queue.hasId i row) eqn:Hid.
  - intros _. apply HP.
  - intros Hid'. congruence.
Qed.

Lemma ensures_bind_right (A B : Type) (m : M A) (k : A -> M B) (Q : Sys -> Prop) :
  (forall a, ensures (k a) Q) -> ensures (bind m k) Q.
Proof.
  intros Hk s. unfold bind. destruct (m s) as [[a|e] s1]; [apply Hk | exact I].
Qed.

Lemma staysSettled_trans (i : jsstring) (n : nat) (a b c : Sys) :
  staysSettled i n a b -> staysSettled i n b c -> staysSettled i n a c.
Proof. unfold staysSettled. tauto. Qed.

Lemma staysSettled_queue (i : jsstring) (n : nat) (s s' : Sys) :
  task_queue s' = task_queue s -> staysSettled i n s s'.
Proof. unfold staysSettled, settled. intros ->. tauto. Qed.

Lemma updateTaskQueue_settles (i : jsstring) (n : nat) (updates : Updates) :
  (u_status updates = Some completed
   \/ (u_status updates = Some failed /\ u_retry_count updates = Some n)) ->
  forall s, settled i n (snd (updateTaskQueue i updates s)).
Proof.
  intros Hu.
  apply (@keeps_updateTaskQueue _ (fun _ s' => settled i n s')).
  intros s stamp s' Hs'. unfold settled. rewrite Hs'.
  apply updateRows_sets_fields. intros row. simpl.
  destruct Hu as [Hu | [Hu Hr]].
  - left. rewrite Hu. reflexivity.
  - right. rewrite Hu, Hr. split; reflexivity.
Qed.

End BatchOutcomes.

(** ** What a retry sweep keeps *)

Section Silence.
Context `{Builtins} `{Environment}.

Lemma silent_refl (s : Sys) : silent s s.
Proof. repeat split. Qed.

Lemma silent_trans (a b c : Sys) : silent a b -> silent b c -> silent a c.
Proof.
  unfold silent. intros [H1 [H2 H3]] [H4 [H5 H6]]. repeat split; congruence.
Qed.

Lemma silent_ret (A : Type) (a : A) : keeps silent (ret a).
Proof. intros s. apply silent_refl. Qed.

Lemma silent_throw (A : Type) (e : Error) : keeps silent (throw (A := A) e).
Proof. intros s. apply silent_refl. Qed.

Lemma silent_now : keeps silent now.
Proof. intros s. unfold now. destruct (dateNow (world s)). repeat split. Qed.

Lemma silent_post (motionTask : MotionTask) : keeps silent (post motionTask).
Proof.
  intros s. unfold post. destruct (motionPostTask motionTask (world s)). repeat split.
Qed.

Lemma silent_getQueue : keeps silent getQueue.
Proof. intros s. apply silent_refl. Qed.

Lemma silent_putQueue (q : list QueueEntry) : keeps silent (putQueue q).
Proof. intros s. repeat split. Qed.

Lemma silent_mapM (A B : Type) (f : A -> M B) (l : list A) :
  (forall a, keeps silent (f a)) -> keeps silent (mapM f l).
Proof.
  intros Hf. induction l as [|a l IH]; simpl.
  - apply silent_ret.
  - apply (keeps_bind silent_trans); [apply Hf|]. intros b.
    apply (keeps_bind silent_trans); [exact IH|]. intros bs. apply silent_ret.
Qed.

Lemma silent_createTask (task : Task) (options : Options) :
  keeps silent (MotionService.createTask task options).
Proof.
  unfold MotionService.createTask.
  apply (keeps_bind silent_trans).
  { unfold MotionService.mapPriority.
    destruct (or_else (priority task) (JStr (str "medium")));
      first [apply silent_ret | apply silent_throw]. }
  intros mapped. apply (keeps_bind silent_trans).
  { intros s. apply silent_refl. }
  intros dueDate. apply (keeps_bind silent_trans); [apply silent_post|].
  intros [dataId | message httpStatus].
  - apply (keeps_bind silent_trans); [apply silent_now | intros; apply silent_ret].
  - unfold MotionService.handleError.
    apply (keeps_bind silent_trans); [apply silent_now | intros; apply silent_ret].
Qed.

Lemma silent_createBatches (n : nat) :
  forall tasks options results,
    length tasks <= n -> keeps silent (MotionService.createBatches tasks options results).
Proof.
  induction n as [|n IH]; intros tasks options results Hlen;
    destruct tasks as [|task rest]; simp createBatches;
    try apply silent_ret; try (simpl in Hlen; lia).
  apply (keeps_bind silent_trans).
  - apply silent_mapM. intros task0. unfold MotionService.createInBatch.
    apply (keeps_tryCatch silent_trans); [apply silent_createTask|].
    intros e. apply silent_ret.
  - intros batch. apply IH.
    rewrite length_skipn. unfold MotionService.batchSize. simpl in *. lia.
Qed.

(** The sync client says nothing to Slack and writes no table. *)
Lemma silent_createMultipleTasks (tasks : list Task) (options : Options) :
  keeps silent (MotionService.createMultipleTasks tasks options).
Proof.
  apply (keeps_bind silent_trans);
    [apply (silent_createBatches (n := length tasks)); lia|].
  intros results. apply silent_ret.
Qed.

Lemma silent_updateTaskQueue (i : jsstring) (updates : Updates) :
  keeps silent (Batch.updateTaskQueue i updates).
Proof.
  unfold Batch.updateTaskQueue.
  apply (keeps_bind silent_trans); [apply silent_now|]. intros stamp.
  apply (keeps_bind silent_trans); [apply silent_getQueue|]. intros rows.
  apply (keeps_bind silent_trans); [apply silent_putQueue|]. intros _.
  destruct (SupabaseService.single _); [apply silent_ret | apply silent_throw].
Qed.

End Silence.

Section Sweeps.
Context `{Builtins} `{Environment}.
Import Batch.

(** The body of the sweep keeps every relation on queues that its updates
    keep. *)
Lemma retryOne_keeps (I : Sys -> Sys -> Prop) (task : QueueEntry) :
  (forall a b c, I a b -> I b c -> I a c) ->
  (forall s s', task_queue s' = task_queue s -> I s s') ->
  Queue.retries task < 3 ->
  (forall updates, sweepUpdate task updates -> keeps I (updateTaskQueue (id task) updates)) ->
  keeps I (retryOne task).
Proof.
  intros T Q Hlt Hupd. unfold retryOne.
  destruct (Nat.leb_spec 3 (Queue.retries task)) as [Hge|_]; [lia|].
  keeps_steps T Q; apply Hupd; unfold sweepUpdate; simpl; auto.
Qed.

Lemma retryEach_keeps (I : Sys -> Sys -> Prop) (pendingTasks : list QueueEntry) :
  (forall a b c, I a b -> I b c -> I a c) ->
  (forall s s', task_queue s' = task_queue s -> I s s') ->
  Forall (fun task =>
            Queue.retries task < 3
            /\ forall updates, sweepUpdate task updates ->
                               keeps I (updateTaskQueue (id task) updates))
    pendingTasks ->
  keeps I (retryEach pendingTasks).
Proof.
  intros T Q. induction 1 as [|task rest [Hlt Hupd] _ IH]; simpl.
  - apply keeps_ret. exact Q.
  - apply (keeps_bind T); [apply retryOne_keeps; assumption|]. intros _. exact IH.
Qed.

Lemma retryEach_silent (pendingTasks : list QueueEntry) :
  keeps silent (retryEach pendingTasks).
Proof.
  induction pendingTasks as [|task rest IH]; simpl.
  - apply silent_ret.
  - apply (keeps_bind silent_trans); [|intros _; exact IH].
    unfold retryOne. destruct (Nat.leb 3 (Queue.retries task)).
    + apply (keeps_bind silent_trans); [apply silent_updateTaskQueue|].
      intros _. apply silent_ret.
    + apply (keeps_tryCatch silent_trans).
      * apply (keeps_bind silent_trans); [apply silent_createMultipleTasks|].
        intros r. destruct (batch_success r);
          (apply (keeps_bind silent_trans);
           [apply silent_updateTaskQueue | intros _; apply silent_ret]).
      * intros e. apply (keeps_bind silent_trans);
          [apply silent_updateTaskQueue | intros _; apply silent_ret].
Qed.

(** A sweep ends in the state the loop over the rows it read ends in. *)
Lemma processRetryQueue_run (s : Sys) :
  snd (processRetryQueue s)
  = snd (retryEach (SupabaseService.getPendingTasks (task_queue s) 5) s).
Proof.
  unfold processRetryQueue, tryCatch, bind, getPendingTasks, getQueue, ret. simpl.
  destruct (retryEach (SupabaseService.getPendingTasks (task_queue s) 5) s)
    as [[u|e] s1]; reflexivity.
Qed.

Lemma sameBatches_queue (s s' : Sys) : task_queue s' = task_queue s -> sameBatches s s'.
Proof.
  unfold sameBatches. intros ->. induction (task_queue s); constructor; auto.
  repeat split.
Qed.

Lemma sameBatches_trans (a b c : Sys) :
  sameBatches a b -> sameBatches b c -> sameBatches a c.
Proof.
  unfold sameBatches. generalize (task_queue a) (task_queue b) (task_queue c).
  intros qa qb qc Hab. revert qc.
  induction Hab as [|x y qa qb Hxy _ IH]; intros qc Hbc;
    inversion Hbc as [|y' z qb' qc' Hyz Hrest]; subst; constructor.
  - destruct Hxy as [? [? [? [? [? [? ?]]]]]]. destruct Hyz as [? [? [? [? [? [? ?]]]]]].
    repeat split; congruence.
  - apply IH. exact Hrest.
Qed.

Lemma staysBounded_queue (s s' : Sys) : task_queue s' = task_queue s -> staysBounded s s'.
Proof. unfold staysBounded. intros ->. tauto. Qed.

Lemma staysBounded_trans (a b c : Sys) :
  staysBounded a b -> staysBounded b c -> staysBounded a c.
Proof. unfold staysBounded. tauto. Qed.

Lemma onlyIds_queue (ids : list jsstring) (s s' : Sys) :
  task_queue s' = task_queue s -> onlyIds ids s s'.
Proof.
  unfold onlyIds. intros ->. induction (task_queue s); constructor; auto.
Qed.

Lemma onlyIds_trans (ids : list jsstring) (a b c : Sys) :
  onlyIds ids a b -> onlyIds ids b c -> onlyIds ids a c.
Proof.
  unfold onlyIds. generalize (task_queue a) (task_queue b) (task_queue c).
  intros qa qb qc Hab. revert qc.
  induction Hab as [|x y qa qb [Hid Hsame] _ IH]; intros qc Hbc;
    inversion Hbc as [|y' z qb' qc' [Hid' Hsame'] Hrest]; subst; constructor.
  - split; [congruence|]. intros Hx.
    rewrite Hsame', (Hsame Hx); [reflexivity|].
    rewrite (Hsame Hx). exact Hx.
  - apply IH. exact Hrest.
Qed.

Lemma mem_In (x : jsstring) (l : list jsstring) : Js.mem x l = true <-> In x l.
Proof.
  unfold Js.mem. rewrite existsb_exists. split.
  - intros [y [Hin Heq]]. apply eqb_eq in Heq. subst. exact Hin.
  - intros Hin. exists x. split; [exact Hin | apply eqb_refl].
Qed.

Lemma sweep_update_sameBatches (task : QueueEntry) (updates : Updates) :
  sweepUpdate task updates -> keeps sameBatches (updateTaskQueue (id task) updates).
Proof.
  intros [Ht [Hs _]]. apply keeps_updateTaskQueue.
  intros s stamp s' Hs'. unfold sameBatches. rewrite Hs'. clear Hs'.
  unfold SupabaseService.updateRows.
  induction (task_queue s) as [|row rows IH]; simpl; [constructor|].
  constructor; [|exact IH].
  destruct (Queue.hasId (id task) row); simpl; [rewrite Ht, Hs|]; repeat split.
Qed.

Lemma sweep_update_staysBounded (task : QueueEntry) (updates : Updates) :
  Queue.retries task < 3 ->
  sweepUpdate task updates -> keeps staysBounded (updateTaskQueue (id task) updates).
Proof.
  intros Hlt [_ [_ Hu]]. apply keeps_updateTaskQueue.
  intros s stamp s' Hs'. unfold staysBounded. rewrite Hs'. clear Hs'.
  unfold SupabaseService.updateRows.
  induction 1 as [|row rows Hrow _ IH]; simpl; constructor; [|exact IH].
  destruct (Queue.hasId (id task) row); [|exact Hrow].
  unfold Queue.retries in *. simpl.
  destruct Hu as [[_ Hr] | [_ Hr]]; rewrite Hr; simpl; [exact Hrow | lia].
Qed.

Lemma sweep_update_onlyIds (ids : list jsstring) (task : QueueEntry) (updates : Updates) :
  In (id task) ids -> keeps (onlyIds ids) (updateTaskQueue (id task) updates).
Proof.
  intros Hin. apply keeps_updateTaskQueue.
  intros s stamp s' Hs'. unfold onlyIds. rewrite Hs'. clear Hs'.
  unfold SupabaseService.updateRows.
  induction (task_queue s) as [|row rows IH]; simpl; [constructor|].
  constructor; [|exact IH].
  destruct (Queue.hasId (id task) row) eqn:Hrow; [|auto].
  split; [reflexivity|]. intros Hmem. exfalso.
  unfold Queue.hasId in Hrow. apply eqb_eq in Hrow.
  rewrite Hrow in Hmem. apply mem_In in Hin. congruence.
Qed.

(** X7.  What a sweep leaves alone.  A sweep of the retry processor keeps
    the entries of the queue with their ids, keys, tasks, suggestions and
    creation times; it rewrites only rows that have the id of a row it
    read (the five oldest pending rows with a retry count below 3); it
    marks no row failed; it leaves every retry count at most 3 when they
    all were; and it sends nothing to Slack and writes no history, also
    when a retry succeeds or the last retry fails.  With nothing to read
    it does nothing at all. *)
Theorem processRetryQueue_frame (s : Sys) :
  let read := SupabaseService.getPendingTasks (task_queue s) 5 in
  let s' := snd (processRetryQueue s) in
  sameBatches s s'
  /\ onlyIds (map id read) s s'
  /\ noNewFailure s s'
  /\ (Forall (fun e => Queue.retries e <= 3) (task_queue s) ->
      Forall (fun e => Queue.retries e <= 3) (task_queue s'))
  /\ silent s s'
  /\ (read = [] -> s' = s).
Proof.
  cbv zeta.
  assert (Hread : Forall (fun task => Queue.retries task < 3)
                    (SupabaseService.getPendingTasks (task_queue s) 5)).
  { rewrite Forall_forall. intros e He.
    destruct (getPendingTasks_below_limit _ _ _ He) as [_ [n [Hn Hlt]]].
    unfold Queue.retries. rewrite Hn. exact Hlt. }
  split; [|split; [|split; [|split; [|split]]]].
  - rewrite processRetryQueue_run.
    apply (retryEach_keeps sameBatches_trans sameBatches_queue).
    eapply Forall_impl; [|exact Hread]. intros task Hlt. split; [exact Hlt|].
    apply sweep_update_sameBatches.
  - rewrite processRetryQueue_run.
    apply (retryEach_keeps (@onlyIds_trans _) (@onlyIds_queue _)).
    rewrite Forall_forall. intros task Hin. split.
    + rewrite Forall_forall in Hread. exact (Hread _ Hin).
    + intros updates _. apply sweep_update_onlyIds. apply in_map. exact Hin.
  - apply processRetryQueue_noNewFailure.
  - rewrite processRetryQueue_run.
    apply (retryEach_keeps staysBounded_trans staysBounded_queue (pendingTasks := _)).
    eapply Forall_impl; [|exact Hread]. intros task Hlt. split; [exact Hlt|].
    intros updates Hu. apply sweep_update_staysBounded; assumption.
  - rewrite processRetryQueue_run. apply retryEach_silent.
  - intros Hnone. rewrite processRetryQueue_run, Hnone. reflexivity.
Qed.

End Sweeps.

Lemma processRetryQueue_frame_witness :
  let s := Scenario.start [true] [Scenario.entry "a" 1 (Some 3)] in
  snd (@Batch.processRetryQueue Scenario.builtins Scenario.environment s) = s.
Proof.
  intros s.
  destruct (@processRetryQueue_frame Scenario.builtins Scenario.environment s)
    as [_ [_ [_ [_ [_ Hidle]]]]].
  apply Hidle. reflexivity.
Defined.

(** ** The buttons of the local-storage application *)

Section AppButtons.
Context `{Builtins} `{Environment}.




End AppButtons.

Section AppClicks.
Context `{Builtins} `{Environment}.









End AppClicks.


Section AppOutcomes.
Context `{Builtins} `{Environment}.






End AppOutcomes.




(** ** Editing a batch in its thread *)

Section Edits.
Import TaskEdits EditVocabulary.

Lemma setAt_length (A : Type) (n : nat) (x : A) (l : list A) :
  length (setAt n x l) = length l.
Proof.
  revert n. induction l as [|y l IH]; intros [|n]; simpl; try reflexivity.
  rewrite IH. reflexivity.
Qed.

Lemma setAt_Forall2 (A B : Type) (R : A -> B -> Prop) (n : nat) (y : B)
    (l : list A) (l' : list B) :
  Forall2 R l l' ->
  (forall x, nth_error l n = Some x -> R x y) ->
  Forall2 R l (setAt n y l').
Proof.
  intros Hall. revert n. induction Hall as [|x x' l l' Hx Hrest IH]; intros n Hn.
  - destruct n; constructor.
  - destruct n as [|n]; simpl.
    + constructor; [apply Hn; reflexivity | exact Hrest].
    + constructor; [exact Hx | apply IH; exact Hn].
Qed.

Lemma Forall2_nth_error (A B : Type) (R : A -> B -> Prop) (l : list A) (l' : list B)
    (n : nat) (x : A) (y : B) :
  Forall2 R l l' -> nth_error l n = Some x -> nth_error l' n = Some y -> R x y.
Proof.
  intros Hall. revert n. induction Hall as [|a b l l' Hab Hrest IH]; intros [|n]; simpl;
    try discriminate.
  - intros [= <-] [= <-]. exact Hab.
  - apply IH.
Qed.

Lemma setAt_same_suggestion (n : nat) (s : EditedSuggestion) (b : bool)
    (l : list EditedSuggestion) :
  nth_error l n = Some s ->
  map suggestion (setAt n {| suggestion := suggestion s; needsUpdate := b |} l)
  = map suggestion l.
Proof.
  revert n. induction l as [|y l IH]; intros [|n]; simpl; try discriminate.
  - intros [= ->]. reflexivity.
  - intros Hn. rewrite (IH n Hn). reflexivity.
Qed.

Lemma edited_refl (t : Task) : edited t t.
Proof. repeat split. Qed.

Lemma edited_trans (a b c : Task) : edited a b -> edited b c -> edited a c.
Proof.
  unfold edited. intros [H1 [H2 [H3 [H4 H5]]]] [K1 [K2 [K3 [K4 K5]]]].
  repeat split; congruence.
Qed.

(** One command keeps the working copy a working copy, and the
    suggestions what they were. *)
Lemma applyEditCommand_workingCopy (command : EditCommand) (stored : list Task)
    (tasks : list (option Task)) (suggestions : list EditedSuggestion) :
  workingCopy stored tasks ->
  workingCopy stored (fst (applyEditCommand command tasks suggestions))
  /\ map suggestion (snd (applyEditCommand command tasks suggestions))
     = map suggestion suggestions.
Proof.
  intros Hcopy. unfold applyEditCommand.
  destruct (Z.ltb (taskIndex command) 0 || Z.leb (Z.of_nat (length tasks)) (taskIndex command))%bool;
    [split; [exact Hcopy | reflexivity]|].
  destruct (action command); simpl.
  - split; [|reflexivity]. apply setAt_Forall2; [exact Hcopy | intros; exact I].
  - destruct (nth_error tasks (Z.to_nat (taskIndex command))) as [[t|]|] eqn:Hn;
      simpl; (split; [|reflexivity]); try exact Hcopy.
    apply setAt_Forall2; [exact Hcopy|]. intros t0 Ht0.
    pose proof (Forall2_nth_error _ Hcopy Ht0 Hn) as Hed. simpl in Hed.
    apply (edited_trans Hed). repeat split.
  - destruct (nth_error tasks (Z.to_nat (taskIndex command))) as [[t|]|] eqn:Hn;
      simpl; (split; [|reflexivity]); try exact Hcopy.
    apply setAt_Forall2; [exact Hcopy|]. intros t0 Ht0.
    pose proof (Forall2_nth_error _ Hcopy Ht0 Hn) as Hed. simpl in Hed.
    apply (edited_trans Hed). repeat split.
  - destruct (nth_error suggestions (Z.to_nat (taskIndex command))) as [s|] eqn:Hn;
      simpl; (split; [exact Hcopy|]); [|reflexivity].
    apply setAt_same_suggestion. exact Hn.
  - split; [exact Hcopy | reflexivity].
Qed.

Lemma applyAll_workingCopy (commands : list EditCommand) (stored : list Task) :
  forall (tasks : list (option Task)) (suggestions : list EditedSuggestion),
    workingCopy stored tasks ->
    workingCopy stored (fst (applyAll commands tasks suggestions))
    /\ map suggestion (snd (applyAll commands tasks suggestions))
       = map suggestion suggestions.
Proof.
  unfold applyAll.
  induction commands as [|command rest IH]; intros tasks suggestions Hcopy; simpl.
  - split; [exact Hcopy | reflexivity].
  - destruct (applyEditCommand_workingCopy command suggestions Hcopy) as [Hcopy' Hsame].
    destruct (applyEditCommand command tasks suggestions) as [tasks' suggestions'] eqn:E.
    simpl in *. destruct (IH tasks' suggestions' Hcopy') as [Hfinal Hsugg].
    split; [exact Hfinal | congruence].
Qed.

Lemma validTasks_select (stored : list Task) (editedTasks : list (option Task)) :
  workingCopy stored editedTasks ->
  Forall2 edited (select (keptSlots editedTasks) stored) (validTasks editedTasks).
Proof.
  intros Hcopy. induction Hcopy as [|t0 slot stored editedTasks Hslot Hrest IH]; simpl.
  - constructor.
  - destruct slot as [t|]; simpl; [constructor; assumption | exact IH].
Qed.

Lemma validSuggestions_select (editedTasks : list (option Task)) :
  forall editedSuggestions,
    length editedSuggestions = length editedTasks ->
    map suggestion (validSuggestions editedTasks editedSuggestions)
    = select (keptSlots editedTasks) (map suggestion editedSuggestions).
Proof.
  induction editedTasks as [|slot rest IH]; intros [|s more] Hlen; simpl in *;
    try discriminate; try reflexivity.
  injection Hlen as Hlen. destruct slot as [t|]; simpl; rewrite (IH more Hlen); reflexivity.
Qed.

Lemma setAt_Forall (A : Type) (P : A -> Prop) (n : nat) (x : A) (l : list A) :
  Forall P l -> P x -> Forall P (setAt n x l).
Proof.
  intros Hall Hx. revert n. induction Hall as [|y l Hy Hrest IH]; intros [|n]; simpl;
    constructor; auto.
Qed.

(** Only a workspace change marks a suggestion. *)
Lemma applyAll_marks (Q : Prop) (commands : list EditCommand) :
  (forall command, In command commands -> action command = ChangeWorkspace -> Q) ->
  forall (tasks : list (option Task)) (suggestions : list EditedSuggestion),
    Forall (fun es => needsUpdate es = true -> Q) suggestions ->
    Forall (fun es => needsUpdate es = true -> Q) (snd (applyAll commands tasks suggestions)).
Proof.
  unfold applyAll.
  induction commands as [|command rest IH]; intros Hmark tasks suggestions Hall; simpl;
    [exact Hall|].
  assert (Hstep : Forall (fun es => needsUpdate es = true -> Q)
                    (snd (applyEditCommand command tasks suggestions))).
  { unfold applyEditCommand.
    destruct (Z.ltb (taskIndex command) 0
              || Z.leb (Z.of_nat (length tasks)) (taskIndex command))%bool; [exact Hall|].
    destruct (action command) eqn:Haction; simpl; try exact Hall.
    - destruct (nth_error tasks (Z.to_nat (taskIndex command))) as [[t|]|]; exact Hall.
    - destruct (nth_error tasks (Z.to_nat (taskIndex command))) as [[t|]|]; exact Hall.
    - destruct (nth_error suggestions (Z.to_nat (taskIndex command))) as [s|];
        [|exact Hall].
      simpl. apply setAt_Forall; [exact Hall|]. intros _.
      apply (Hmark command); [left; reflexivity | exact Haction]. }
  destruct (applyEditCommand command tasks suggestions) as [tasks' suggestions'].
  apply IH; [intros c Hc; apply Hmark; right; exact Hc | exact Hstep].
Qed.

Lemma validSuggestions_Forall (P : EditedSuggestion -> Prop)
    (editedTasks : list (option Task)) :
  forall editedSuggestions,
    Forall P editedSuggestions -> Forall P (validSuggestions editedTasks editedSuggestions).
Proof.
  induction editedTasks as [|slot rest IH]; intros suggestions Hall.
  - induction Hall as [|s more Hs _ IHmore]; simpl; constructor; assumption.
  - destruct Hall as [|s more Hs Hmore]; simpl; [constructor|].
    destruct slot; [constructor; [exact Hs|] |]; apply IH; exact Hmore.
Qed.

(** X11.  The working copies pair every task with its own suggestion.
    When an entry holds one suggestion per task, then after any list of
    edit commands the tasks and the suggestions the handler holds before
    it writes anything ([validTasks] and [validSuggestions]) are those of
    the same positions of the entry, in their order and in equal number:
    a removed task takes its suggestion with it, a task that stays
    differs from the stored one in its assignee and its due date at
    most, and a suggestion that stays is the stored one, marked
    [needsUpdate] at most, which happens only when one of the commands is
    a workspace change. *)
Theorem editStored_pairs_before_writing (commands : list EditCommand)
    (storedTask : QueueEntry) (stored : list Suggestion) :
  workspace_suggestions storedTask = Some stored ->
  length stored = length (extracted_tasks storedTask) ->
  exists mask,
    length mask = length (extracted_tasks storedTask)
    /\ Forall2 edited (select mask (extracted_tasks storedTask))
         (fst (editStored commands storedTask))
    /\ map suggestion (snd (editStored commands storedTask)) = select mask stored
    /\ Forall (fun es => needsUpdate es = true ->
                         Exists (fun command => action command = ChangeWorkspace) commands)
         (snd (editStored commands storedTask))
    /\ length (snd (editStored commands storedTask))
       = length (fst (editStored commands storedTask)).
Proof.
  intros Hstored Hlen. unfold editStored. rewrite Hstored. simpl.
  set (tasks0 := map (@Some Task) (extracted_tasks storedTask)).
  set (suggestions0 := map (fun s => {| suggestion := s; needsUpdate := false |}) stored).
  assert (Hcopy0 : workingCopy (extracted_tasks storedTask) tasks0).
  { subst tasks0. unfold workingCopy. clear Hlen Hstored.
    induction (extracted_tasks storedTask) as [|t l IH]; simpl; constructor.
    - apply edited_refl.
    - exact IH. }
  assert (Hmarks : Forall (fun es => needsUpdate es = true ->
                             Exists (fun command => action command = ChangeWorkspace)
                               commands)
                     (snd (applyAll commands tasks0 suggestions0))).
  { apply applyAll_marks.
    - intros command Hin Haction. apply Exists_exists. exists command. tauto.
    - subst suggestions0. apply Forall_forall. intros es Hes.
      apply in_map_iff in Hes. destruct Hes as [s0 [<- _]]. discriminate. }
  destruct (applyAll_workingCopy commands suggestions0 Hcopy0) as [Hcopy Hsame].
  destruct (applyAll commands tasks0 suggestions0) as [editedTasks editedSuggestions].
  simpl in *.
  assert (Hsugg : map suggestion editedSuggestions = stored).
  { rewrite Hsame. subst suggestions0. rewrite map_map. simpl. apply map_id. }
  assert (Hlen' : length editedSuggestions = length editedTasks).
  { rewrite <- (length_map suggestion), Hsugg, Hlen.
    exact (Forall2_length Hcopy). }
  pose proof (validTasks_select Hcopy) as Htasks.
  pose proof (validSuggestions_select editedTasks editedSuggestions Hlen') as Hsel.
  rewrite Hsugg in Hsel.
  exists (keptSlots editedTasks).
  split; [|split; [exact Htasks | split; [exact Hsel | split]]].
  - unfold keptSlots. rewrite length_map. symmetry. exact (Forall2_length Hcopy).
  - apply validSuggestions_Forall. exact Hmarks.
  - rewrite <- (length_map suggestion), Hsel.
    rewrite <- (Forall2_length Htasks).
    clear - Hlen Hcopy. unfold workingCopy in Hcopy.
    revert stored Hlen.
    induction Hcopy as [|t0 slot l l' Hslot Hrest IH]; intros [|s stored] Hlen;
      simpl in *; try discriminate; try reflexivity.
    injection Hlen as Hlen. destruct slot; simpl; rewrite (IH stored Hlen); reflexivity.
Qed.

End Edits.

Lemma editStored_pairs_before_writing_witness :
  let stored :=
    Queue.merge (Scenario.entry "a" 1 None)
      {| u_status := Some editing; u_error_message := None; u_retry_count := None;
         u_extracted_tasks := Some [Scenario.report; Scenario.report];
         u_workspace_suggestions := Some [Scenario.suggestion; Scenario.suggestion] |}
      5%N in
  let commands :=
    [ {| TaskEdits.action := TaskEdits.ChangeAssignee; TaskEdits.taskIndex := 1;
         TaskEdits.newValue := str "Mark" |};
      {| TaskEdits.action := TaskEdits.ChangeWorkspace; TaskEdits.taskIndex := 1;
         TaskEdits.newValue := str "Personal" |};
      {| TaskEdits.action := TaskEdits.Remove; TaskEdits.taskIndex := 0;
         TaskEdits.newValue := [] |} ] in
  exists mask,
    length mask = 2
    /\ Forall2 EditVocabulary.edited
         (EditVocabulary.select mask [Scenario.report; Scenario.report])
         (fst (TaskEdits.editStored commands stored))
    /\ map TaskEdits.suggestion (snd (TaskEdits.editStored commands stored))
       = EditVocabulary.select mask [Scenario.suggestion; Scenario.suggestion]
    /\ Forall (fun es => TaskEdits.needsUpdate es = true ->
                         Exists (fun command =>
                                   TaskEdits.action command = TaskEdits.ChangeWorkspace)
                           commands)
         (snd (TaskEdits.editStored commands stored))
    /\ length (snd (TaskEdits.editStored commands stored))
       = length (fst (TaskEdits.editStored commands stored)).
Proof.
  intros stored commands.
  exact (@editStored_pairs_before_writing commands stored
           [Scenario.suggestion; Scenario.suggestion] eq_refl eq_refl).
Defined.

Section SingleEdit.
Import TaskEdits EditVocabulary.






End SingleEdit.


(** ** The workspace heuristic *)

Section FirstBest.
Variable A : Type.
Variable key : A -> nat.

(** Sorting highest key first puts at the head the first element of the
    list that has the highest key: the sort is stable. *)
Lemma sortDescending_first_best (l : list A) (h : A) (t : list A) :
  WorkspaceMatcher.sortDescending key l = h :: t ->
  exists before after,
    l = before ++ h :: after
    /\ Forall (fun y => key y < key h) before
    /\ Forall (fun y => key y <= key h) after.
Proof.
  unfold WorkspaceMatcher.sortDescending. revert h t.
  induction l as [|x l IH]; intros h t Hsort; simpl in Hsort; [discriminate|].
  destruct (sortBy (fun a b => Nat.leb (key b) (key a)) l) as [|h' t'] eqn:Hl.
  - assert (Hnil : l = []).
    { apply length_zero_iff_nil.
      rewrite <- (sortBy_length (fun a b => Nat.leb (key b) (key a)) l), Hl. reflexivity. }
    subst l. simpl in Hsort. injection Hsort as <- <-.
    exists [], []. repeat split; constructor.
  - destruct (IH h' t' eq_refl) as [before [after [Hsplit [Hbefore Hafter]]]].
    simpl in Hsort. destruct (Nat.leb (key h') (key x)) eqn:Hle.
    + injection Hsort as <- <-. apply Nat.leb_le in Hle.
      exists [], l. split; [reflexivity|]. split; [constructor|].
      subst l. apply Forall_app. split.
      * eapply Forall_impl; [|exact Hbefore]. simpl. intros; lia.
      * constructor; [exact Hle|].
        eapply Forall_impl; [|exact Hafter]. simpl. intros; lia.
    + injection Hsort as <- <-. apply Nat.leb_gt in Hle.
      exists (x :: before), after. split; [subst l; reflexivity|].
      split; [constructor; assumption | exact Hafter].
Qed.

End FirstBest.

Section Heuristic.
Context `{Builtins}.
Import WorkspaceMatcher.

(** X13.  Ties go to the first workspace.  Without workspaces
    [findBestMatch] fails (the TypeError of reading [workspace] of
    [undefined]); otherwise it chooses the first workspace of the list
    that has the highest score, every workspace before it scoring
    strictly less, reports the reasoning of that score, and suggests a
    project only out of the projects listed for the chosen workspace, and
    only one whose name holds a keyword of the task. *)
Theorem findBestMatch_first_best
    (getProjects : jsstring -> option (list Project))
    (task : Task) (workspaces : list Workspace) :
  let score := fun w => total (calculateWorkspaceScore (taskTextOf task) w) in
  match findBestMatch getProjects task workspaces with
  | None => workspaces = []
  | Some m =>
      (exists before after,
          workspaces = before ++ workspace m :: after
          /\ Forall (fun w => score w < score (workspace m)) before
          /\ Forall (fun w => score w <= score (workspace m)) after)
      /\ match_reasoning m = reasoning (calculateWorkspaceScore (taskTextOf task) (workspace m))
      /\ match project m with
         | None => True
         | Some p =>
             exists projects,
               getProjects (ws_id (workspace m)) = Some projects
               /\ In p projects
               /\ 0 < projectScore (taskTextOf task) p
         end
  end.
Proof.
  intros score. unfold findBestMatch.
  set (toMatch := fun w =>
         let sc := calculateWorkspaceScore (taskTextOf task) w in
         {| wm_workspace := w; wm_score := sc; wm_reasoning := reasoning sc |}).
  destruct (sortDescending (fun m => total (wm_score m)) (map toMatch workspaces))
    as [|best rest] eqn:Hsort.
  - apply length_zero_iff_nil.
    rewrite <- (length_map toMatch).
    unfold sortDescending in Hsort.
    rewrite <- (sortBy_length
                  (fun a b => Nat.leb (total (wm_score b)) (total (wm_score a)))), Hsort.
    reflexivity.
  - destruct (sortDescending_first_best _ _ Hsort) as [bm [am [Hsplit [Hbefore Hafter]]]].
    apply map_eq_app in Hsplit. destruct Hsplit as [before [rest' [Hws [Hbm Ham]]]].
    apply map_eq_cons in Ham. destruct Ham as [w [after [Hrest' [Hw Ham]]]].
    subst workspaces rest' bm am best. cbn [workspace match_reasoning project].
    cbn [toMatch wm_workspace wm_score wm_reasoning] in *.
    split; [|split].
    + exists before, after. split; [reflexivity|].
      split; [rewrite Forall_map in Hbefore | rewrite Forall_map in Hafter]; assumption.
    + reflexivity.
    + destruct (getProjects (ws_id w)) as [projects|]; [|exact I].
      destruct (Nat.ltb 0 (length projects)); [|exact I].
      unfold findBestProject.
      destruct (sortDescending (projectScore (taskTextOf task)) projects)
        as [|p ps] eqn:Hp; [exact I|].
      destruct (Nat.ltb 0 (projectScore (taskTextOf task) p)) eqn:Hpos; [|exact I].
      exists projects. split; [reflexivity|]. split.
      * destruct (sortDescending_first_best _ _ Hp) as [b [a [-> _]]].
        apply in_or_app. right. left. reflexivity.
      * apply Nat.ltb_lt. exact Hpos.
Qed.

(** X14.  [findBestProject] suggests no project exactly when no project
    name holds a keyword of the task; otherwise it suggests the first
    project of the list with the highest number of keywords in its name. *)
Theorem findBestProject_first_best (taskText : jsstring) (projects : list Project) :
  match findBestProject taskText projects with
  | None => Forall (fun p => projectScore taskText p = 0) projects
  | Some best =>
      0 < projectScore taskText best
      /\ exists before after,
           projects = before ++ best :: after
           /\ Forall (fun p => projectScore taskText p < projectScore taskText best) before
           /\ Forall (fun p => projectScore taskText p <= projectScore taskText best) after
  end.
Proof.
  unfold findBestProject.
  destruct (sortDescending (projectScore taskText) projects) as [|p ps] eqn:Hsort.
  - assert (Hnil : projects = []).
    { apply length_zero_iff_nil. unfold sortDescending in Hsort.
      rewrite <- (sortBy_length
                    (fun a b => Nat.leb (projectScore taskText b) (projectScore taskText a))),
        Hsort. reflexivity. }
    subst projects. constructor.
  - destruct (sortDescending_first_best _ _ Hsort) as [before [after [Hsplit [Hb Ha]]]].
    destruct (Nat.ltb 0 (projectScore taskText p)) eqn:Hpos.
    + apply Nat.ltb_lt in Hpos. split; [exact Hpos|].
      exists before, after. repeat split; assumption.
    + apply Nat.ltb_ge in Hpos. subst projects. apply Forall_app. split.
      * eapply Forall_impl; [|exact Hb]. simpl. intros; lia.
      * constructor; [lia|]. eapply Forall_impl; [|exact Ha]. simpl. intros; lia.
Qed.

End Heuristic.

Section Scores.
Context `{Builtins}.
Import WorkspaceMatcher.

(** The keyword loop gives five points per reason, and each of its
    reasons starts with the letter k. *)
Lemma keywordMatches_reasons (name : jsstring) (keywords : list jsstring) :
  forall (n : nat) (reasons : list jsstring),
  exists more,
    fold_left
      (fun acc keyword =>
         if includes name keyword
         then (fst acc + 5,
               snd acc ++ [str "keyword match: " ++ [QUOTE] ++ keyword ++ [QUOTE]])
         else acc)
      keywords (n, reasons)
    = (n + 5 * length more, reasons ++ more)
    /\ Forall (fun r => exists rest, r = 107%N :: rest) more.
Proof.
  induction keywords as [|keyword rest IH]; intros n reasons; cbn [fold_left fst snd].
  - exists []. rewrite app_nil_r. cbn [length]. rewrite Nat.mul_0_r, Nat.add_0_r.
    split; [reflexivity | constructor].
  - destruct (includes name keyword).
    + destruct (IH (n + 5) (reasons ++ [str "keyword match: " ++ [QUOTE] ++ keyword ++ [QUOTE]]))
        as [more [Hfold Hmore]].
      exists ((str "keyword match: " ++ [QUOTE] ++ keyword ++ [QUOTE]) :: more).
      split.
      * etransitivity; [exact Hfold|].
        rewrite <- app_assoc. cbn [length app]. f_equal. lia.
      * constructor; [|exact Hmore]. eexists. reflexivity.
    + apply IH.
Qed.

Lemma keywordMatches_points (name : jsstring) (keywords : list jsstring) :
  exists reasons,
    keywordMatches name keywords = (5 * length reasons, reasons)
    /\ Forall (fun r => exists rest, r = 107%N :: rest) reasons.
Proof.
  destruct (keywordMatches_reasons name keywords 0 []) as [more [Hfold Hmore]].
  exists more. split; [exact Hfold | exact Hmore].
Qed.

Lemma join_first (sep : jsstring) (c : N) (rest : jsstring) (parts : list jsstring) :
  exists more, join sep ((c :: rest) :: parts) = c :: more.
Proof. destruct parts; simpl; eexists; reflexivity. Qed.

(** The reasoning of a list of reasons none of which starts with the
    letter n is the fallback text exactly when there is no reason. *)
Lemma reasoning_fallback (reasons : list jsstring) :
  Forall (fun r => exists c rest, r = c :: rest /\ c <> 110%N) reasons ->
  match join (str ", ") reasons with
  | [] => str "no specific matches"
  | joined => joined
  end = str "no specific matches"
  <-> reasons = [].
Proof.
  intros Hall. split.
  - destruct Hall as [|r reasons [c [rest [-> Hc]]] _]; [reflexivity|].
    destruct (join_first (str ", ") c rest reasons) as [more ->].
    intros Heq. exfalso. apply Hc. injection Heq as Heq _. exact Heq.
  - intros ->. reflexivity.
Qed.

(** X15.  What a score says.  The score of a workspace is 0 exactly when
    its reasoning is the text 'no specific matches'; a workspace whose
    name holds 'personal' never scores 0; and no workspace scores 2 or 4,
    so that the confidence 'medium' stands for a score of exactly 3. *)
Theorem calculateWorkspaceScore_values (taskText : jsstring) (w : Workspace) :
  let score := calculateWorkspaceScore taskText w in
  (total score = 0 <-> reasoning score = str "no specific matches")
  /\ (includes (toLowerCase (ws_name w)) (str "personal") = true -> 1 <= total score)
  /\ (total score = 0 \/ total score = 1 \/ total score = 3 \/ 5 <= total score)
  /\ (confidenceLabel (total score) = str "medium" <-> total score = 3).
Proof.
  cbv zeta. unfold calculateWorkspaceScore.
  destruct (keywordMatches_points (toLowerCase (ws_name w)) (extractKeywords taskText))
    as [r0 [-> Hr0]].
  assert (Hr0' : Forall (fun r => exists c rest, r = c :: rest /\ c <> 110%N) r0).
  { eapply Forall_impl; [|exact Hr0]. simpl. intros r [rest ->].
    exists 107%N, rest. split; [reflexivity | discriminate]. }
  assert (Hzero : 5 * length r0 = 0 <-> r0 = []).
  { destruct r0; simpl; split; intros; try reflexivity; try discriminate; lia. }
  assert (Hmedium : forall n, confidenceLabel n = str "medium" <-> 1 < n <= 3).
  { intros n. unfold confidenceLabel.
    destruct (Nat.ltb 3 n) eqn:H3; [apply Nat.ltb_lt in H3 | apply Nat.ltb_ge in H3].
    - split; [discriminate | lia].
    - destruct (Nat.ltb 1 n) eqn:H1; [apply Nat.ltb_lt in H1 | apply Nat.ltb_ge in H1].
      + split; [lia | reflexivity].
      + split; [discriminate | lia]. }
  destruct (includes (toLowerCase (ws_name w)) (str "personal")) eqn:Hpersonal;
  destruct (includes taskText (str "nastygram")
            && includes (toLowerCase (ws_name w)) (str "nastygram"));
  destruct (includes taskText (str "labcorp")
            && includes (toLowerCase (ws_name w)) (str "health"));
  destruct (isPersonalTask taskText);
  destruct (isWorkTask taskText
            && (includes (toLowerCase (ws_name w)) (str "dkc")
                || includes (toLowerCase (ws_name w)) (str "dkdev")));
  cbn [bonus andb];
  match goal with
  | |- context [Nat.eqb ?n 0] =>
      destruct (Nat.eqb n 0) eqn:Hscore;
      [apply Nat.eqb_eq in Hscore | apply Nat.eqb_neq in Hscore]
  | _ => idtac
  end;
  cbn [bonus andb total reasoning];
  (split; [|split; [|split]]);
  try (rewrite Hmedium);
  try (intros _; lia); try lia;
  try (rewrite reasoning_fallback;
       [ split; intros Hx;
         [ try (exfalso; lia);
           assert (Hnil : r0 = []) by (apply Hzero; lia); rewrite Hnil; reflexivity
         | apply app_eq_nil in Hx; destruct Hx as [Hnil Hrest];
           rewrite Hnil in *; simpl in *; try discriminate; lia ]
       | repeat (apply Forall_app; split; [assumption|]);
         repeat constructor;
         try (eexists; eexists; split; [reflexivity | discriminate]) ]).
Qed.

End Scores.

Lemma calculateWorkspaceScore_values_witness :
  1 <= WorkspaceMatcher.total
         (@WorkspaceMatcher.calculateWorkspaceScore Scenario.builtins
            (str "buy milk") {| ws_id := str "ws-2"; ws_name := str "Personal" |}).
Proof.
  apply (proj1 (proj2 (@calculateWorkspaceScore_values Scenario.builtins
                         (str "buy milk")
                         {| ws_id := str "ws-2"; ws_name := str "Personal" |}))).
  vm_compute. reflexivity.
Defined.

Section Keywords.
Context `{Builtins}.
Import WorkspaceMatcher.

Lemma mem_true_In (x : jsstring) (l : list jsstring) : mem x l = true <-> In x l.
Proof.
  unfold mem. rewrite existsb_exists. split.
  - intros [y [Hy Heq]]. apply eqb_eq in Heq. subst y. exact Hy.
  - intros Hin. exists x. split; [exact Hin | apply eqb_refl].
Qed.

Lemma dedupe_In (l : list jsstring) :
  forall seen x, In x (dedupe seen l) <-> In x l /\ ~ In x seen.
Proof.
  induction l as [|y l IH]; intros seen x; simpl.
  - tauto.
  - destruct (mem y seen) eqn:Hseen.
    + apply mem_true_In in Hseen. rewrite IH. split.
      * intros [Hin Hnot]. tauto.
      * intros [[<- | Hin] Hnot]; [contradiction | tauto].
    + assert (Hnot : ~ In y seen).
      { intros Hin. apply mem_true_In in Hin. congruence. }
      simpl. rewrite IH. simpl. split.
      * intros [<- | [Hin Hout]]; [tauto|]. tauto.
      * intros [[<- | Hin] Hout]; [tauto|].
        destruct (list_eq_dec N.eq_dec y x) as [-> | Hne]; [tauto|]. right. tauto.
Qed.

Lemma dedupe_NoDup (l : list jsstring) : forall seen, NoDup (dedupe seen l).
Proof.
  induction l as [|y l IH]; intros seen; simpl.
  - constructor.
  - destruct (mem y seen); [apply IH|].
    constructor; [|apply IH].
    rewrite dedupe_In. simpl. tauto.
Qed.

(** The fields of a split on white space hold no white space, and no
    character that is not in the text. *)
Lemma splitWhiteSpace_fields (P : N -> Prop) (s : jsstring) :
  Forall P s ->
  Forall (Forall (fun c => P c /\ isWhiteSpace c = false)) (splitWhiteSpace s).
Proof.
  induction 1 as [|c s Hc Hs IH]; simpl.
  - repeat constructor.
  - destruct (isWhiteSpace c) eqn:Hspace.
    + destruct s as [|c' s']; [repeat constructor|].
      destruct (isWhiteSpace c'); [exact IH|].
      constructor; [constructor | exact IH].
    + destruct (splitWhiteSpace s) as [|l ls]; [repeat constructor; assumption|].
      inversion IH as [|? ? Hl Hls]; subst.
      constructor; [|exact Hls]. constructor; [split; assumption | exact Hl].
Qed.

Lemma blankPunctuation_chars (text : jsstring) :
  Forall (fun c => isWordChar c = true \/ isWhiteSpace c = true) (blankPunctuation text).
Proof.
  unfold blankPunctuation. apply Forall_map. apply Forall_forall. intros c _.
  destruct (isWordChar c) eqn:Hword; simpl; [left; exact Hword|].
  destruct (isWhiteSpace c) eqn:Hspace; right; [exact Hspace | reflexivity].
Qed.

(** X16.  The keywords of a text are exactly the fields of the lowered
    text, split at white space after its punctuation is blanked, that are
    longer than two characters and are no stop words; each is listed
    once, and each is made of letters, digits and underscores only. *)
Theorem extractKeywords_words (text : jsstring) :
  NoDup (extractKeywords text)
  /\ (forall word,
        In word (extractKeywords text)
        <-> In word (splitWhiteSpace (blankPunctuation (toLowerCase text)))
            /\ 2 < length word
            /\ isStopWord word = false)
  /\ Forall (fun word => Forall (fun c => isWordChar c = true) word) (extractKeywords text).
Proof.
  assert (Hiff : forall word,
             In word (extractKeywords text)
             <-> In word (splitWhiteSpace (blankPunctuation (toLowerCase text)))
                 /\ 2 < length word
                 /\ isStopWord word = false).
  { intros word. unfold extractKeywords. rewrite dedupe_In, !filter_In.
    rewrite Nat.ltb_lt, negb_true_iff. simpl. tauto. }
  split; [apply dedupe_NoDup|]. split; [exact Hiff|].
  apply Forall_forall. intros word Hword. apply Hiff in Hword. destruct Hword as [Hfield _].
  pose proof (splitWhiteSpace_fields (blankPunctuation_chars (toLowerCase text))) as Hfields.
  rewrite Forall_forall in Hfields. specialize (Hfields word Hfield).
  eapply Forall_impl; [|exact Hfields]. simpl.
  intros c [[Hw | Hs] Hns]; [exact Hw | congruence].
Qed.

End Keywords.

(** ** The requests of a batch *)

Section Requests.
Context `{Builtins} `{Environment}.
Import MotionService.

Lemma sent_refl (options : Options) (s s' : Sys) :
  motion_requests s' = motion_requests s -> sent options [] s s'.
Proof. intros Hsame. exists []. rewrite app_nil_r. split; [exact Hsame | constructor]. Qed.

Lemma sent_app (options : Options) (first rest : list Task) (s s1 s2 : Sys) :
  sent options first s s1 -> sent options rest s1 s2 -> sent options (first ++ rest) s s2.
Proof.
  intros [r1 [Hs1 Hall1]] [r2 [Hs2 Hall2]]. exists (r1 ++ r2). split.
  - rewrite Hs2, Hs1, app_assoc. reflexivity.
  - rewrite filter_app. apply Forall2_app; assumption.
Qed.

(** The callback of a batch returns, after one request when the priority
    of the task is usable and after none when it is not. *)
Lemma createInBatch_sends (options : Options) (task : Task) (s : Sys) :
  exists r s',
    createInBatch options task s = (Returned r, s')
    /\ sent options [task] s s'
    /\ answers task r.
Proof.
  unfold createInBatch, tryCatch, createTask, sent, answers, usablePriority.
  unfold bind at 1.
  assert (Hcases :
    (usablePriority task = true
     /\ exists mapped,
          mapPriority (or_else (priority task) (JStr (str "medium"))) s
          = (Returned mapped, s))
    \/ (usablePriority task = false
        /\ exists e,
             mapPriority (or_else (priority task) (JStr (str "medium"))) s
             = (Thrown e, s))).
  { unfold usablePriority, or_else, mapPriority.
    destruct (priority task) as [| |[|]|z|[|c p]|items|fields]; simpl;
      try (left; split; [reflexivity|]; eexists; reflexivity);
      try (right; split; [reflexivity|]; eexists; reflexivity).
    destruct (Z.eqb z 0); simpl;
      [left; split; [reflexivity|]; eexists; reflexivity
      | right; split; [reflexivity|]; eexists; reflexivity]. }
  destruct Hcases as [[Husable [mapped Hmapped]] | [Husable [e He]]].
  - rewrite Hmapped. unfold usablePriority in Husable.
    cbn [filter]. rewrite Husable.
    unfold handleError. unfold bind, post, now, ret. simpl.
    destruct (motionPostTask _ (world s)) as [[dataId | msg httpStatus] w] eqn:Hpost;
      simpl; destruct (dateNow w) as [stamp w']; simpl;
      eexists; eexists; (split; [reflexivity|]); simpl;
      (split; [eexists; split; [reflexivity|]; constructor; [|constructor];
               repeat split
              | auto]).
  - rewrite He. unfold usablePriority in Husable.
    cbn [filter]. rewrite Husable. unfold ret.
    eexists. eexists. split; [reflexivity|]. simpl.
    split; [exists []; rewrite app_nil_r; split; [reflexivity | constructor] | auto].
Qed.

Lemma mapM_createInBatch_sends (options : Options) (tasks : list Task) :
  forall s, exists rs s',
    mapM (createInBatch options) tasks s = (Returned rs, s')
    /\ sent options tasks s s'
    /\ Forall2 answers tasks rs.
Proof.
  induction tasks as [|task rest IH]; intros s; simpl.
  - exists [], s. split; [reflexivity|]. split; [apply sent_refl; reflexivity | constructor].
  - unfold bind at 1.
    destruct (createInBatch_sends options task s) as [r [s1 [Hr [Hsent1 Hanswer]]]].
    rewrite Hr. unfold bind at 1.
    destruct (IH s1) as [rs [s2 [Hrs [Hsent2 Hanswers]]]]. rewrite Hrs.
    exists (r :: rs), s2. split; [reflexivity|]. split.
    + exact (sent_app Hsent1 Hsent2).
    + constructor; assumption.
Qed.

Lemma createBatches_sends (n : nat) :
  forall tasks options results s,
    length tasks <= n ->
    exists rs s',
      createBatches tasks options results s = (Returned (results ++ rs), s')
      /\ sent options tasks s s'
      /\ Forall2 answers tasks rs.
Proof.
  induction n as [|n IH]; intros tasks options results s Hlen;
    (destruct tasks as [|task rest];
     [ simp createBatches; exists [], s; rewrite app_nil_r;
       split; [reflexivity|]; split; [apply sent_refl; reflexivity | constructor] |]);
    [simpl in Hlen; lia|].
  simp createBatches. unfold bind at 1.
  destruct (mapM_createInBatch_sends options (firstn batchSize (task :: rest)) s)
    as [batch [s1 [Hbatch [Hsent1 Hanswers1]]]].
  rewrite Hbatch.
  destruct (IH (skipn batchSize (task :: rest)) options (results ++ batch) s1)
    as [rs [s2 [Hrs [Hsent2 Hanswers2]]]].
  { rewrite length_skipn. unfold batchSize. simpl in *. lia. }
  rewrite Hrs. exists (batch ++ rs), s2. rewrite app_assoc.
  split; [reflexivity|].
  rewrite <- (firstn_skipn batchSize (task :: rest)).
  split; [exact (sent_app Hsent1 Hsent2) | apply Forall2_app; assumption].
Qed.

Lemma sent_requested (options : Options) (tasks : list Task) (s s' : Sys) :
  sent options tasks s s' -> requested options tasks s s'.
Proof.
  intros [requests [Hrequests Hall]]. exists requests, requests.
  split; [exact Hrequests|]. split; [exact Hall | apply Permutation_refl].
Qed.

(** X17.  What a batch sends.  [createMultipleTasks] sends one request
    for each task whose priority is absent, empty or a string, named by
    the title of the task and in the workspace and project of the
    options, and no other request; the order in which the requests leave
    is left open.  The tasks with another priority are answered by the
    callback's own handler without any request, and every other task by
    [createTask]; the results are in the order of the tasks. *)
Theorem createMultipleTasks_requests (tasks : list Task) (options : Options) (s : Sys) :
  exists r s',
    createMultipleTasks tasks options s = (Returned r, s')
    /\ requested options tasks s s'
    /\ Forall2 answers tasks (batch_results r)
    /\ task_queue s' = task_queue s
    /\ slack_calls s' = slack_calls s.
Proof.
  unfold createMultipleTasks. unfold bind at 1.
  destruct (createBatches_sends (n := length tasks) tasks options [] s (le_n _))
    as [rs [s' [Hrun [Hsent Hanswers]]]].
  pose proof (@keeps_createBatches _ _ (fun a b => task_queue b = task_queue a)
                (fun a b c Hab Hbc => eq_trans Hbc Hab) (fun a b Hab => Hab)
                (length tasks) tasks options [] (le_n _) s) as Hqueue.
  pose proof (@silent_createBatches _ _ (length tasks) tasks options [] (le_n _) s)
    as [Hslack _].
  rewrite Hrun in Hqueue, Hslack. simpl in Hqueue, Hslack.
  rewrite Hrun. simpl. eexists. eexists. split; [reflexivity|]. simpl.
  split; [apply sent_requested; exact Hsent|].
  repeat split; assumption.
Qed.

End Requests.

(** ** What an approval reports *)

Section Reports.
Context `{Builtins} `{Environment}.
Import Batch.

Lemma keeps_weaken (I J : Sys -> Sys -> Prop) (A : Type) (m : M A) :
  (forall s s', I s s' -> J s s') -> keeps I m -> keeps J m.
Proof. intros Himp Hm s. apply Himp, Hm. Qed.

(** A step whose results all satisfy [P] may be followed under [P]. *)
Lemma keeps_bind_with (I : Sys -> Sys -> Prop) (A B : Type) (P : A -> Prop)
    (m : M A) (k : A -> M B) :
  (forall a b c, I a b -> I b c -> I a c) ->
  (forall s a s', m s = (Returned a, s') -> P a) ->
  keeps I m -> (forall a, P a -> keeps I (k a)) -> keeps I (bind m k).
Proof.
  intros T HP Hm Hk s. unfold bind. specialize (Hm s). specialize (HP s).
  destruct (m s) as [[a|e] s1]; simpl in *.
  - eapply T; [exact Hm | apply Hk; eapply HP; reflexivity].
  - exact Hm.
Qed.

Variable queuedTasks : QueueEntry.
Variables channelId messageTs : jsstring.

Lemma reports_trans (a b c : Sys) :
  reports queuedTasks channelId messageTs a b ->
  reports queuedTasks channelId messageTs b c ->
  reports queuedTasks channelId messageTs a c.
Proof.
  intros [c1 [r1 [Hc1 [Hr1 [Hp1 Hf1]]]]] [c2 [r2 [Hc2 [Hr2 [Hp2 Hf2]]]]].
  exists (c1 ++ c2), (r1 ++ r2).
  rewrite Hc2, Hc1, Hr2, Hr1, !app_assoc.
  repeat split; try reflexivity; apply Forall_app; split; assumption.
Qed.

Lemma reports_silent (s s' : Sys) :
  silent s s' -> reports queuedTasks channelId messageTs s s'.
Proof.
  intros [Hcalls [Hhistory _]]. exists [], []. rewrite !app_nil_r.
  repeat split; try assumption; constructor.
Qed.

Lemma reports_slack (call : SlackCall) :
  plainCall queuedTasks call ->
  keeps (reports queuedTasks channelId messageTs) (slack call).
Proof.
  intros Hplain s. unfold slack. destruct (slackCall call (world s)) as [answer w].
  simpl. exists [call], []. rewrite app_nil_r.
  repeat split; try reflexivity; repeat constructor. exact Hplain.
Qed.

Lemma reports_addTaskHistory (record : HistoryRecord) :
  fullRecord queuedTasks channelId messageTs record ->
  keeps (reports queuedTasks channelId messageTs) (addTaskHistory record).
Proof.
  intros Hfull s. simpl. exists [], [record]. rewrite app_nil_r.
  repeat split; try reflexivity; repeat constructor; apply Hfull.
Qed.

Lemma motionTaskIds_all_created (results : list CreateResult) :
  Forall (fun r => success r = true) results ->
  length (motionTaskIds results) = length results
  /\ length (filter (fun r => success r) results) = length results.
Proof.
  induction 1 as [|r results Hr _ [IH1 IH2]]; simpl; [split; reflexivity|].
  unfold motionTaskIds in *. simpl. rewrite Hr.
  destruct r; try discriminate. simpl. split; congruence.
Qed.

Lemma createMultipleTasks_wholeBatch (tasks : list Task) (options : Options) (s : Sys) :
  forall r s',
    MotionService.createMultipleTasks tasks options s = (Returned r, s') ->
    wholeBatch tasks r.
Proof.
  intros r s'. unfold MotionService.createMultipleTasks, bind.
  destruct (createBatches_returns (n := length tasks) tasks options [] s (le_n _))
    as [rs [s1 [Hrs Hall]]].
  rewrite Hrs. simpl. intros E. injection E as <- <-. unfold wholeBatch. simpl.
  intros Hsuccess. pose proof Hsuccess as Hzero. apply Nat.eqb_eq in Hzero.
  apply no_failed_iff_all_succeeded in Hsuccess.
  destruct (motionTaskIds_all_created Hsuccess) as [Hids Hcount].
  rewrite Hids, Hcount, (Forall2_length Hall). repeat split. exact Hzero.
Qed.

(** X18.  What an approval reports.  Whatever Motion and Slack answer,
    [handleTaskApproval] never posts the list of failed tasks: a batch
    counts as a success only when no task failed, so the announcement of
    a creation always names all the tasks of the entry and no failure,
    and a record enters the history only as a success, with the tasks of
    the entry and one Motion id for each of them. *)
Theorem handleTaskApproval_reports (s : Sys) :
  reports queuedTasks channelId messageTs s
    (snd (handleTaskApproval queuedTasks channelId messageTs s)).
Proof.
  revert s.
  change (keeps (reports queuedTasks channelId messageTs)
            (handleTaskApproval queuedTasks channelId messageTs)).
  assert (Hupdate : forall updates,
             keeps (reports queuedTasks channelId messageTs)
               (updateTaskQueue (id queuedTasks) updates)).
  { intros updates. eapply keeps_weaken; [exact reports_silent|].
    apply silent_updateTaskQueue. }
  unfold handleTaskApproval.
  apply (keeps_tryCatch reports_trans).
  - apply (keeps_bind reports_trans); [apply Hupdate|]. intros _.
    apply (keeps_bind reports_trans); [apply reports_slack; exact I|]. intros processingTs.
    apply (keeps_bind reports_trans).
    { intros s0. apply reports_silent. apply silent_refl. }
    intros channelMapping. cbv zeta.
    eapply (@keeps_bind_with (reports queuedTasks channelId messageTs) _ _
              (wholeBatch (extracted_tasks queuedTasks)) _ _ reports_trans).
    + intros s0 r s1. apply createMultipleTasks_wholeBatch.
    + eapply keeps_weaken; [exact reports_silent|]. apply silent_createMultipleTasks.
    + intros motionResult Hwhole. unfold wholeBatch in Hwhole.
      destruct (batch_success motionResult).
      * destruct (Hwhole eq_refl) as [Hfailed [Hsuccessful Hids]].
        rewrite Hfailed, Hsuccessful. cbn [Nat.ltb Nat.leb].
        apply (keeps_bind reports_trans); [apply Hupdate|]. intros _.
        apply (keeps_bind reports_trans).
        { apply reports_addTaskHistory. repeat split. exact Hids. }
        intros _.
        apply (keeps_bind reports_trans).
        { apply reports_slack. split; reflexivity. }
        intros _. intros s0. apply reports_silent, silent_refl.
      * apply (keeps_bind reports_trans); [apply Hupdate|]. intros _.
        apply (keeps_bind reports_trans); [apply reports_slack; exact I|]. intros _.
        intros s0. apply reports_silent, silent_refl.
  - intros error.
    apply (keeps_bind reports_trans); [apply Hupdate|]. intros _.
    apply (keeps_bind reports_trans); [apply reports_slack; exact I|]. intros _.
    intros s0. apply reports_silent, silent_refl.
Qed.

End Reports.

(** ** Texts for Slack *)

Section SlackTexts.
Import Texts.

Lemma trimStart_Forall (P : N -> Prop) (s : jsstring) : Forall P s -> Forall P (trimStart s).
Proof.
  induction 1 as [|c s Hc Hs IH]; simpl; [constructor|].
  destruct (isWhiteSpace c); [exact IH | constructor; assumption].
Qed.

(** Trimming only takes characters away. *)
Lemma trim_Forall (P : N -> Prop) (s : jsstring) : Forall P s -> Forall P (trim s).
Proof.
  intros Hs. unfold trim, trimEnd.
  apply Forall_rev, trimStart_Forall, Forall_rev, trimStart_Forall, Hs.
Qed.

Lemma replaceAll_Forall (P : N -> Prop) (c : N) (by_ s : jsstring) :
  Forall P by_ -> Forall (fun d => d <> c -> P d) s -> Forall P (replaceAll c by_ s).
Proof.
  intros Hby Hs. unfold replaceAll. induction Hs as [|d s Hd _ IH]; simpl; [constructor|].
  apply Forall_app. split; [|exact IH].
  destruct (N.eqb d c) eqn:E; [exact Hby|].
  constructor; [|constructor]. apply Hd. apply N.eqb_neq. exact E.
Qed.

Lemma replaceAll_absent (c : N) (by_ s : jsstring) :
  Forall (fun d => d <> c) s -> replaceAll c by_ s = s.
Proof.
  unfold replaceAll. induction 1 as [|d s Hd _ IH]; simpl; [reflexivity|].
  apply N.eqb_neq in Hd. rewrite Hd, IH. reflexivity.
Qed.

(** X19.  [truncateText] returns the empty text and a text within the
    limit as they are, and a longer one cut to [maxLength - 3] characters
    followed by three dots: the result then has [maxLength] characters
    when the limit is 3 or more, and is the three dots, longer than the
    limit, when it is less. *)
Theorem truncateText_length (text : jsstring) (maxLength : Z) :
  (text = [] \/ (Z.of_nat (length text) <= maxLength)%Z ->
   truncateText text maxLength = text)
  /\ (text <> [] -> (maxLength < Z.of_nat (length text))%Z ->
      truncateText text maxLength
      = (if Z.ltb maxLength 3 then [] else firstn (Z.to_nat (maxLength - 3)) text)
        ++ str "..."
      /\ Z.of_nat (length (truncateText text maxLength)) = Z.max maxLength 3).
Proof.
  unfold truncateText, substringTo. split.
  - intros [-> | Hshort]; [reflexivity|].
    apply Z.leb_le in Hshort. rewrite Hshort, orb_true_r. reflexivity.
  - intros Hsome Hlong. destruct text as [|c text]; [contradiction|].
    simpl truthy. cbn [negb orb].
    assert (Hgt : Z.leb (Z.of_nat (length (c :: text))) maxLength = false)
      by (apply Z.leb_gt; exact Hlong).
    rewrite Hgt. destruct (Z.ltb maxLength 3) eqn:Hsmall.
    + apply Z.ltb_lt in Hsmall.
      assert (Hneg : Z.to_nat (maxLength - 3) = 0) by lia.
      rewrite Hneg. simpl firstn. split; [reflexivity | simpl; lia].
    + apply Z.ltb_ge in Hsmall. split; [reflexivity|].
      rewrite length_app, length_firstn. simpl length in *. lia.
Qed.

(** X20.  What [sanitizeForSlack] returns holds no angle bracket,
    whatever the text; a text without ampersand and angle bracket is only
    trimmed. *)
Theorem sanitizeForSlack_no_brackets (text : jsstring) :
  Forall (fun c => c <> LT /\ c <> Parser.GT) (sanitizeForSlack text)
  /\ (Forall (fun c => c <> AMP /\ c <> LT /\ c <> Parser.GT) text ->
      sanitizeForSlack text = trim text).
Proof.
  unfold sanitizeForSlack. split.
  - destruct (negb (truthy (JStr text))); [constructor|].
    apply trim_Forall.
    apply replaceAll_Forall; [repeat constructor; discriminate|].
    assert (Hlt : Forall (fun c => c <> LT)
                    (replaceAll LT (str "&lt;") (replaceAll AMP (str "&amp;") text))).
    { apply replaceAll_Forall; [repeat constructor; discriminate|].
      apply Forall_forall. intros c _ Hc. exact Hc. }
    eapply Forall_impl; [|exact Hlt]. simpl. intros c Hc Hgt. split; assumption.
  - intros Hplain. destruct text as [|c text]; [reflexivity|]. simpl truthy. cbn [negb].
    rewrite (@replaceAll_absent AMP), (@replaceAll_absent LT), (@replaceAll_absent Parser.GT);
      try reflexivity;
      (eapply Forall_impl; [|exact Hplain]); simpl; tauto.
Qed.

(** X21.  [sanitizeInput] returns the empty string for anything that is
    not a string; for a string, what it returns holds no angle bracket,
    holds only characters of the trimmed input, and is never longer than
    [maxLength]. *)
Theorem sanitizeInput_bounds (input : JsValue) (maxLength : Z) :
  Forall (fun c => c <> LT /\ c <> Parser.GT) (sanitizeInput input maxLength)
  /\ (Z.of_nat (length (sanitizeInput input maxLength)) <= Z.max 0 maxLength)%Z
  /\ (isString input = false -> sanitizeInput input maxLength = [])
  /\ (forall s, input = JStr s ->
        forall c, In c (sanitizeInput input maxLength) -> In c (trim s)).
Proof.
  unfold sanitizeInput, substringTo.
  destruct input as [| |b|z|s|items|fields]; simpl;
    try (repeat split; [constructor | lia | discriminate]).
  split; [|split; [|split]].
  - apply Forall_forall. intros c Hc. apply filter_In in Hc. destruct Hc as [_ Hc].
    apply negb_true_iff, orb_false_iff in Hc. destruct Hc as [H1 H2].
    apply N.eqb_neq in H1, H2. split; assumption.
  - pose proof (filter_length_le (fun c => negb (N.eqb c LT || N.eqb c Parser.GT))
                  (firstn (Z.to_nat maxLength) (trim s))) as Hle.
    rewrite length_firstn in Hle. lia.
  - discriminate.
  - intros s' [= <-] c Hc. apply filter_In in Hc. destruct Hc as [Hc _].
    eapply In_firstn. exact Hc.
Qed.

End SlackTexts.

Lemma truncateText_length_witness :
  Texts.truncateText (str "hello world") 8
  = (if Z.ltb 8 3 then [] else firstn (Z.to_nat (8 - 3)) (str "hello world")) ++ str "..."
  /\ Z.of_nat (length (Texts.truncateText (str "hello world") 8)) = Z.max 8 3.
Proof.
  apply (proj2 (truncateText_length (str "hello world") 8)).
  - discriminate.
  - simpl. lia.
Defined.

Lemma sanitizeForSlack_no_brackets_witness :
  Texts.sanitizeForSlack (str " done ") = trim (str " done ").
Proof.
  apply (proj2 (sanitizeForSlack_no_brackets (str " done "))).
  repeat (constructor; [repeat split; discriminate|]). constructor.
Defined.

Lemma sanitizeInput_bounds_witness : Texts.sanitizeInput (JNum 7) 10 = [].
Proof.
  apply (proj1 (proj2 (proj2 (sanitizeInput_bounds (JNum 7) 10)))). reflexivity.
Defined.

(** ** The report of a batch validation *)

Section BatchReport.
Context `{Builtins}.
Import Validation.

Lemma validateTask_None (task : JsValue) : validateTask task = None <-> nullish task.
Proof.
  unfold validateTask, prop, nullish.
  destruct task; simpl; split; intros Hx; try discriminate; try tauto;
    try (destruct Hx; discriminate).
Qed.

Lemma passes_individuallyValid (task : JsValue) :
  passes task = true <-> individuallyValid task.
Proof.
  unfold passes, individuallyValid. destruct (validateTask task) as [r|]; split.
  - intros Hvalid. exists r. split; [reflexivity | exact Hvalid].
  - intros [r' [[= <-] Hvalid]]. exact Hvalid.
  - discriminate.
  - intros [r' [Hr _]]. discriminate.
Qed.

Lemma startsWith_prefix (prefix rest : jsstring) : startsWith (prefix ++ rest) prefix = true.
Proof.
  induction prefix as [|c prefix IH]; simpl.
  - destruct rest; reflexivity.
  - rewrite N.eqb_refl. exact IH.
Qed.

Lemma collectErrors_report (items : list JsValue) :
  forall index,
    (collectErrors index items = None <-> Exists nullish items)
    /\ forall lines,
         collectErrors index items = Some lines ->
         length lines = length (filter (fun task => negb (passes task)) items)
         /\ Forall (fun line => startsWith line (str "Task ") = true) lines.
Proof.
  induction items as [|task rest IH]; intros index; simpl.
  - split; [split; [discriminate | intros Hx; inversion Hx]|].
    intros lines [= <-]. split; [reflexivity | constructor].
  - destruct (IH (S index)) as [IHnone IHsome].
    unfold passes. destruct (validateTask task) as [validation|] eqn:Hv.
    + assert (Hnot : ~ nullish task).
      { intros Hn. apply validateTask_None in Hn. congruence. }
      destruct (collectErrors (S index) rest) as [more|] eqn:Hrest.
      * split.
        { destruct (negb (valid validation)); split; try discriminate;
            intros Hx; inversion Hx; subst; try contradiction;
            match goal with Hex : Exists _ rest |- _ => apply IHnone in Hex; discriminate end. }
        destruct (IHsome more eq_refl) as [Hlen Hstart].
        intros lines. destruct (negb (valid validation)); intros [= <-]; simpl.
        { split; [rewrite Hlen; reflexivity|]. constructor; [|exact Hstart].
          apply (startsWith_prefix (str "Task ")). }
        { split; assumption. }
      * split; [|discriminate]. split; [|reflexivity].
        intros _. apply Exists_cons_tl. apply IHnone. reflexivity.
    + split; [|discriminate]. split; [|reflexivity].
      intros _. apply Exists_cons_hd. apply validateTask_None. exact Hv.
Qed.

(** X22.  The report of a batch of one to ten tasks.  The validation
    throws exactly when a task is [null] or [undefined]; otherwise the
    batch is valid exactly when it reports no error, which is exactly
    when every task is valid on its own, and it reports one line for each
    invalid task, each starting with the word Task. *)
Theorem validateTaskBatch_report (items : list JsValue) :
  1 <= length items <= 10 ->
  (validateTaskBatch (JArr items) = None <-> Exists nullish items)
  /\ forall r,
       validateTaskBatch (JArr items) = Some r ->
       (valid r = true <-> errors r = [])
       /\ (valid r = true <-> Forall individuallyValid items)
       /\ length (errors r) = length (filter (fun task => negb (passes task)) items)
       /\ Forall (fun line => startsWith line (str "Task ") = true) (errors r).
Proof.
  intros [Hmin Hmax]. unfold validateTaskBatch.
  assert (Hsome : Nat.eqb (length items) 0 = false) by (apply Nat.eqb_neq; lia).
  assert (Hfew : Nat.ltb 10 (length items) = false) by (apply Nat.ltb_ge; lia).
  rewrite Hsome, Hfew.
  destruct (collectErrors_report items 0) as [Hnone Hlines].
  destruct (collectErrors 0 items) as [allErrors|].
  - split; [split; [discriminate | intros Hx; apply Hnone in Hx; discriminate]|].
    intros r [= <-]. simpl. destruct (Hlines allErrors eq_refl) as [Hlen Hstart].
    assert (Hempty : Nat.eqb (length allErrors) 0 = true <-> allErrors = []).
    { rewrite Nat.eqb_eq. apply length_zero_iff_nil. }
    split; [exact Hempty|]. split; [|split; assumption].
    rewrite Hempty, <- length_zero_iff_nil, Hlen, length_zero_iff_nil.
    clear. induction items as [|task rest IH]; simpl.
    + split; [constructor | reflexivity].
    + destruct (passes task) eqn:Hp; simpl.
      * rewrite IH. apply passes_individuallyValid in Hp. split.
        { intros Hrest. constructor; assumption. }
        { intros Hall. inversion Hall; assumption. }
      * split; [discriminate|]. intros Hall. inversion Hall as [|? ? Hvalid _]; subst.
        apply passes_individuallyValid in Hvalid. congruence.
  - split; [split; [intros _; apply Hnone; reflexivity | reflexivity]|]. discriminate.
Qed.

End BatchReport.

Lemma validateTaskBatch_report_witness :
  @Validation.validateTaskBatch Scenario.builtins
    (JArr [JObj [(str "title", JStr (str "Finish the report"))]; JNull]) = None.
Proof.
  assert (Hlen : 1 <= length [JObj [(str "title", JStr (str "Finish the report"))]; JNull]
                 <= 10) by (simpl; lia).
  apply (proj2 (proj1 (@validateTaskBatch_report Scenario.builtins _ Hlen))).
  apply Exists_cons_tl, Exists_cons_hd. left. reflexivity.
Defined.

(** ** The rate limiter *)

Section RateLimiter.
Import RateLimit.

Variables windowMs maxRequests : Z.

Lemma get_set_same (key : jsstring) (value : list Z) (cache : Cache) :
  get key (set key value cache) = value.
Proof.
  induction cache as [|[k v] rest IH]; simpl.
  - rewrite eqb_refl. reflexivity.
  - destruct (Js.eqb k key) eqn:E; simpl; rewrite E; [reflexivity | exact IH].
Qed.

Lemma get_set_other (key other : jsstring) (value : list Z) (cache : Cache) :
  other <> key -> get other (set key value cache) = get other cache.
Proof.
  intros Hne. induction cache as [|[k v] rest IH]; simpl.
  - destruct (Js.eqb key other) eqn:E; [|reflexivity].
    apply eqb_eq in E. congruence.
  - destruct (Js.eqb k key) eqn:E; simpl.
    + apply eqb_eq in E. subst k.
      destruct (Js.eqb key other) eqn:E'; [|reflexivity].
      apply eqb_eq in E'. congruence.
    + rewrite IH. reflexivity.
Qed.

Lemma get_absent (key : jsstring) (cache : Cache) : has key cache = false -> get key cache = [].
Proof.
  unfold has. induction cache as [|[k v] rest IH]; simpl; [reflexivity|].
  destruct (Js.eqb k key); simpl; [discriminate | exact IH].
Qed.

(** Entering a key with no timestamp does not change what any key holds. *)
Lemma get_entered (key other : jsstring) (cache : Cache) :
  get other (if has key cache then cache else set key [] cache) = get other cache.
Proof.
  destruct (has key cache) eqn:Hhas; [reflexivity|].
  destruct (list_eq_dec N.eq_dec other key) as [-> | Hne].
  - rewrite get_set_same, get_absent by exact Hhas. reflexivity.
  - apply get_set_other. exact Hne.
Qed.

(** What lies within the window of a later time lay within the window of
    an earlier one. *)
Lemma within_later (earlier later : Z) (times : list Z) :
  (earlier <= later)%Z ->
  within windowMs later (within windowMs earlier times) = within windowMs later times.
Proof.
  intros Hle. unfold within. induction times as [|t times IH]; simpl; [reflexivity|].
  destruct (Z.ltb (earlier - t) windowMs) eqn:He; simpl; rewrite IH.
  - reflexivity.
  - assert (Hl : Z.ltb (later - t) windowMs = false).
    { apply Z.ltb_ge. apply Z.ltb_ge in He. lia. }
    rewrite Hl. reflexivity.
Qed.

Lemma within_app (now : Z) (a b : list Z) :
  within windowMs now (a ++ b) = within windowMs now a ++ within windowMs now b.
Proof. apply filter_app. Qed.

Lemma grantedTimes_app (key : jsstring) (a b : list (Call * Verdict)) :
  grantedTimes key (a ++ b) = grantedTimes key a ++ grantedTimes key b.
Proof. unfold grantedTimes. rewrite filter_app, map_app. reflexivity. Qed.

Lemma grantedTimes_one (key : jsstring) (c : Call) (v : Verdict) :
  grantedTimes key [(c, v)]
  = if allowed v && Js.eqb (keyOf (userId c) (action c)) key then [at_ c] else [].
Proof.
  unfold grantedTimes. simpl.
  destruct (allowed v && Js.eqb (keyOf (userId c) (action c)) key); reflexivity.
Qed.

Lemma rateLimitCheck_step (cache : Cache) (log : list (Call * Verdict)) (last : Z)
    (c : Call) :
  agrees windowMs cache log last ->
  (last <= at_ c)%Z ->
  let granted :=
    within windowMs (at_ c) (grantedTimes (keyOf (userId c) (action c)) log) in
  let result := rateLimitCheck cache (userId c) (action c) (at_ c) windowMs maxRequests in
  agrees windowMs (snd result) (log ++ [(c, fst result)]) (at_ c)
  /\ (allowed (fst result) = true <-> (Z.of_nat (length granted) < maxRequests)%Z)
  /\ (forall remaining,
        fst result = Allowed remaining ->
        remaining = (maxRequests - Z.of_nat (length granted) - 1)%Z).
Proof.
  intros Hagrees Hlater granted result.
  assert (Hnow : forall key,
             within windowMs (at_ c)
               (get key (if has (keyOf (userId c) (action c)) cache then cache
                         else set (keyOf (userId c) (action c)) [] cache))
             = within windowMs (at_ c) (grantedTimes key log)).
  { intros key. rewrite get_entered.
    rewrite <- (within_later (get key cache) Hlater), Hagrees.
    apply within_later. exact Hlater. }
  subst result. unfold rateLimitCheck.
  set (key0 := keyOf (userId c) (action c)) in *.
  set (cache1 := if has key0 cache then cache else set key0 [] cache) in *.
  fold (within windowMs (at_ c) (get key0 cache1)).
  rewrite (Hnow key0). fold granted.
  destruct (Z.leb maxRequests (Z.of_nat (length granted))) eqn:Hfull; cbn [fst snd allowed].
  - apply Z.leb_le in Hfull. split; [|split].
    + intros key. rewrite grantedTimes_app, grantedTimes_one. simpl.
      rewrite app_nil_r. apply Hnow.
    + split; [discriminate | lia].
    + discriminate.
  - apply Z.leb_gt in Hfull. split; [|split].
    + intros key. rewrite grantedTimes_app, within_app, grantedTimes_one.
      fold key0. cbn [allowed andb].
      destruct (list_eq_dec N.eq_dec key key0) as [-> | Hne].
      * rewrite get_set_same, within_app. unfold granted.
        rewrite within_later by lia.
        rewrite eqb_refl. reflexivity.
      * rewrite get_set_other by exact Hne. rewrite Hnow.
        destruct (Js.eqb key0 key) eqn:E; [apply eqb_eq in E; congruence|].
        simpl. rewrite app_nil_r. reflexivity.
    + split; [intros _; exact Hfull | reflexivity].
    + intros remaining [= <-]. rewrite length_app. simpl. lia.
Qed.

Lemma serve_exact (calls : list Call) :
  forall (cache : Cache) (log : list (Call * Verdict)) (last : Z),
    agrees windowMs cache log last ->
    clockAdvances calls ->
    Forall (fun c => (last <= at_ c)%Z) calls ->
    forall before c v after,
      serve windowMs maxRequests cache calls = before ++ (c, v) :: after ->
      let granted :=
        within windowMs (at_ c)
          (grantedTimes (keyOf (userId c) (action c)) (log ++ before)) in
      (allowed v = true <-> (Z.of_nat (length granted) < maxRequests)%Z)
      /\ (forall remaining,
            v = Allowed remaining ->
            remaining = (maxRequests - Z.of_nat (length granted) - 1)%Z).
Proof.
  induction calls as [|c0 rest IH]; intros cache log last Hagrees Hclock Hlast
    before c v after Hserve; simpl in Hserve.
  - destruct before; discriminate.
  - inversion Hclock as [|? ? Hrest Hfirst]; subst.
    inversion Hlast as [|? ? Hc0 _]; subst.
    destruct (rateLimitCheck_step c0 Hagrees Hc0) as [Hagrees' [Hallowed Hremaining]].
    destruct (rateLimitCheck cache (userId c0) (action c0) (at_ c0) windowMs maxRequests)
      as [v0 cache'].
    cbn [fst snd] in *.
    destruct before as [|entry before]; simpl in Hserve.
    + injection Hserve as <- <- _. rewrite app_nil_r. split; assumption.
    + injection Hserve as <- Hserve.
      replace (log ++ (c0, v0) :: before) with ((log ++ [(c0, v0)]) ++ before)
        by (rewrite <- app_assoc; reflexivity).
      exact (IH cache' (log ++ [(c0, v0)]) (at_ c0) Hagrees' Hrest Hfirst
               before c v after Hserve).
Qed.

(** X23.  The limiter is exact.  When the clock does not go back, the
    calls served from an empty cache are answered as by the full log of
    the allowed calls, although the cache forgets: a call is allowed
    exactly when fewer than [maxRequests] of the calls allowed before it
    under the same key are less than [windowMs] old, and [remaining]
    counts what is left of the limit after it. *)
Theorem rateLimitCheck_exact (calls : list Call) :
  clockAdvances calls ->
  forall before c v after,
    serve windowMs maxRequests [] calls = before ++ (c, v) :: after ->
    let granted :=
      within windowMs (at_ c) (grantedTimes (keyOf (userId c) (action c)) before) in
    (allowed v = true <-> (Z.of_nat (length granted) < maxRequests)%Z)
    /\ (forall remaining,
          v = Allowed remaining ->
          remaining = (maxRequests - Z.of_nat (length granted) - 1)%Z).
Proof.
  intros Hclock before c v after Hserve.
  destruct calls as [|c0 rest]; [destruct before; discriminate|].
  apply (@serve_exact (c0 :: rest) [] [] (at_ c0)) with (after := after).
  - intros key. reflexivity.
  - exact Hclock.
  - inversion Hclock as [|? ? _ Hfirst]; subst.
    constructor; [lia | exact Hfirst].
  - exact Hserve.
Qed.

End RateLimiter.

Lemma rateLimitCheck_exact_witness :
  let call := fun t => {| RateLimit.userId := str "U1"; RateLimit.action := str "extract";
                          RateLimit.at_ := t |} in
  let before := [(call 0%Z, RateLimit.Allowed 1); (call 10%Z, RateLimit.Allowed 0)] in
  let granted :=
    RateLimit.within 60000 20
      (RateLimit.grantedTimes (RateLimit.keyOf (str "U1") (str "extract")) before) in
  (RateLimit.allowed (RateLimit.Denied (Some 60%Z)) = true
   <-> (Z.of_nat (length granted) < 2)%Z)
  /\ (forall remaining,
        RateLimit.Denied (Some 60%Z) = RateLimit.Allowed remaining ->
        remaining = (2 - Z.of_nat (length granted) - 1)%Z).
Proof.
  intros call before granted.
  assert (Hclock : RateLimit.clockAdvances [call 0%Z; call 10%Z; call 20%Z]).
  { repeat constructor; simpl; lia. }
  exact (@rateLimitCheck_exact 60000 2 [call 0%Z; call 10%Z; call 20%Z] Hclock
           before (call 20%Z) (RateLimit.Denied (Some 60%Z)) [] eq_refl).
Defined.

(** ** From the extracted tasks to the requests *)

Section Suggesting.
Context `{Builtins}.
Import WorkspaceMatcher Pipeline.

Lemma findBestMatch_chooses (getProjects : jsstring -> option (list Project))
    (task : Task) (workspaces : list Workspace) :
  match findBestMatch getProjects task workspaces with
  | None => workspaces = []
  | Some m =>
      In (workspace m) workspaces
      /\ exists score, match_confidence m = confidenceLabel score
  end.
Proof.
  unfold findBestMatch.
  set (toMatch := fun w =>
         let sc := calculateWorkspaceScore (taskTextOf task) w in
         {| wm_workspace := w; wm_score := sc; wm_reasoning := reasoning sc |}).
  destruct (sortDescending (fun m => total (wm_score m)) (map toMatch workspaces))
    as [|best rest] eqn:Hsort.
  - apply length_zero_iff_nil. rewrite <- (length_map toMatch).
    unfold sortDescending in Hsort.
    rewrite <- (sortBy_length
                  (fun a b => Nat.leb (total (wm_score b)) (total (wm_score a)))), Hsort.
    reflexivity.
  - cbn [workspace match_confidence]. split; [|eexists; reflexivity].
    destruct (sortDescending_head _ _ Hsort) as [Hin _].
    apply in_map_iff in Hin. destruct Hin as [w [<- Hw]]. exact Hw.
Qed.

(** X24.  One suggestion per task.  [suggestWorkspaceAndProject] fails
    exactly when there are tasks and no workspace; otherwise it returns
    one suggestion for each task, in the order of the tasks, each holding
    its task, a workspace of the list and one of the three confidence
    labels: there are as many suggestions as tasks. *)
Theorem suggestWorkspaceAndProject_one_per_task
    (getProjects : nat -> jsstring -> option (list Project))
    (tasks : list Task) (workspaces : list Workspace) :
  match suggestWorkspaceAndProject getProjects 0 tasks workspaces with
  | None => tasks <> [] /\ workspaces = []
  | Some suggestions =>
      (tasks = [] \/ workspaces <> [])
      /\ Forall2 (fun task s =>
                    s_task s = task
                    /\ In (s_workspace s) workspaces
                    /\ In (s_confidence s) [str "high"; str "medium"; str "low"])
           tasks suggestions
  end.
Proof.
  generalize 0 as call.
  induction tasks as [|task rest IH]; intros call; simpl.
  - split; [left; reflexivity | constructor].
  - pose proof (findBestMatch_chooses (getProjects call) task workspaces) as Hbest.
    destruct (findBestMatch (getProjects call) task workspaces) as [m|].
    + destruct Hbest as [Hin [score Hlabel]].
      specialize (IH (S call)).
      destruct (suggestWorkspaceAndProject getProjects (S call) rest workspaces)
        as [suggestions|].
      * destruct IH as [_ Hall]. split.
        { right. intros ->. destruct Hin. }
        constructor; [|exact Hall]. simpl. split; [reflexivity|]. split; [exact Hin|].
        rewrite Hlabel. unfold confidenceLabel.
        destruct (Nat.ltb 3 score); [left; reflexivity|].
        destruct (Nat.ltb 1 score); [right; left | right; right; left]; reflexivity.
      * destruct IH as [_ ->]. destruct Hin.
    + split; [discriminate | exact Hbest].
Qed.

End Suggesting.

Section Cleaning.
Context `{Builtins} `{Environment}.
Import Pipeline.

(** A batch returns, after the requests for its tasks. *)
Lemma createMultipleTasks_sends (tasks : list Task) (options : Options) (s : Sys) :
  exists r s',
    MotionService.createMultipleTasks tasks options s = (Returned r, s')
    /\ sent options tasks s s'.
Proof.
  unfold MotionService.createMultipleTasks. unfold bind at 1.
  destruct (createBatches_sends (n := length tasks) tasks options [] s (le_n _))
    as [rs [s' [Hrun [Hsent _]]]].
  rewrite Hrun. simpl. eexists. eexists. split; [reflexivity | exact Hsent].
Qed.

Lemma level_usable (task : Task) : isLevel (priority task) = true -> usablePriority task = true.
Proof.
  unfold usablePriority. destruct (priority task); simpl; try discriminate.
  intros _. apply orb_true_r.
Qed.

Lemma cleanEach_levels (tasks : list JsValue) :
  Forall (fun task => truthy task && isObject task = true) tasks ->
  exists cleaned,
    cleanEach tasks = Some cleaned
    /\ length cleaned <= length tasks
    /\ Forall (fun t => isLevel (confidence t) = true /\ isLevel (priority t) = true) cleaned.
Proof.
  induction 1 as [|task rest Hobj _ [more [Hmore [Hlen Hall]]]]; simpl.
  - exists []. split; [reflexivity|]. split; [simpl; lia | constructor].
  - rewrite (validateTask_of_object _ Hobj), Hmore.
    destruct (ClaudeService.field task "title"%string) as [| | b | z | s | items | fields];
      try (exists more; split; [reflexivity|]; split; [simpl; lia | exact Hall]).
    destruct s as [|c s];
      [exists more; split; [reflexivity|]; split; [simpl; lia | exact Hall]|].
    eexists. split; [reflexivity|]. split; [simpl; lia|].
    constructor; [|exact Hall]. simpl. split; apply isLevel_levelOrMedium.
Qed.

(** X25.  Every task that leaves the extraction is sent.  The cleaning
    of a parsed answer never throws; it keeps at most the tasks of the
    answer, each with a confidence and a priority among high, medium and
    low; and for what it keeps [createMultipleTasks] sends exactly one
    request per task, the order in which they leave being left open. *)
Theorem validTasks_are_sent (parsed : JsValue) :
  exists tasks,
    validTasks parsed = Some tasks
    /\ length tasks <= length (parsedTasks parsed)
    /\ Forall (fun t => isLevel (confidence t) = true /\ isLevel (priority t) = true) tasks
    /\ forall options s,
         exists r s' requests expected,
           MotionService.createMultipleTasks tasks options s = (Returned r, s')
           /\ motion_requests s' = motion_requests s ++ requests
           /\ Forall2 (requestFor options) tasks expected
           /\ Permutation expected requests.
Proof.
  unfold validTasks.
  destruct (cleanEach_levels
              (tasks := filter (fun task => truthy task && isObject task)
                          (parsedTasks parsed)))
    as [tasks [Hclean [Hlen Hlevels]]].
  { apply Forall_forall. intros task Hin. apply filter_In in Hin. tauto. }
  exists tasks. split; [exact Hclean|]. split.
  - pose proof (filter_length_le (fun task => truthy task && isObject task)
                  (parsedTasks parsed)). lia.
  - split; [exact Hlevels|]. intros options s.
    destruct (createMultipleTasks_sends tasks options s) as [r [s' [Hrun Hsent]]].
    destruct Hsent as [requests [Hrequests Hall]].
    exists r, s', requests, requests. split; [exact Hrun|]. split; [exact Hrequests|].
    assert (Hsame : filter usablePriority tasks = tasks).
    { clear - Hlevels. induction Hlevels as [|t l [_ Hp] _ IH]; simpl; [reflexivity|].
      rewrite (level_usable _ Hp), IH. reflexivity. }
    rewrite Hsame in Hall. split; [exact Hall | apply Permutation_refl].
Qed.

End Cleaning.

(** ** The loop of the approval button *)

Section SuggestedLoop.
Context `{Builtins} `{Environment}.
Import MotionService.

(** [createTask] throws before any request when the priority is not
    usable, and returns after exactly one request when it is. *)
Lemma createTask_cases (task : Task) (options : Options) (s : Sys) :
  (usablePriority task = true
   /\ exists r s' request,
        createTask task options s = (Returned r, s')
        /\ motion_requests s' = motion_requests s ++ [request]
        /\ requestFor options task request)
  \/ (usablePriority task = false
      /\ exists e, createTask task options s = (Thrown e, s)).
Proof.
  unfold createTask. cbv zeta. unfold bind at 1.
  assert (Hcases :
    (usablePriority task = true
     /\ exists mapped,
          mapPriority (or_else (priority task) (JStr (str "medium"))) s
          = (Returned mapped, s))
    \/ (usablePriority task = false
        /\ exists e,
             mapPriority (or_else (priority task) (JStr (str "medium"))) s
             = (Thrown e, s))).
  { unfold usablePriority, or_else, mapPriority.
    destruct (priority task) as [| |[|]|z|[|c p]|items|fields]; simpl;
      try (left; split; [reflexivity|]; eexists; reflexivity);
      try (right; split; [reflexivity|]; eexists; reflexivity).
    destruct (Z.eqb z 0); simpl;
      [left; split; [reflexivity|]; eexists; reflexivity
      | right; split; [reflexivity|]; eexists; reflexivity]. }
  destruct Hcases as [[Husable [mapped Hmapped]] | [Husable [e He]]].
  - left. split; [exact Husable|]. rewrite Hmapped.
    unfold handleError. unfold bind, post, now, ret. simpl.
    destruct (motionPostTask _ (world s)) as [[dataId | msg httpStatus] w];
      simpl; destruct (dateNow w) as [stamp w']; simpl;
      eexists; eexists; eexists; (split; [reflexivity|]); simpl;
      (split; [reflexivity | repeat split]).
  - right. split; [exact Husable|]. exists e. unfold bind at 1. rewrite He. reflexivity.
Qed.

(** X26.  What the approval button sends.  The loop of [approve_tasks]
    sends one request for each task that has a suggestion at its index,
    in the workspace and project of that suggestion, in order, until a
    task without a usable priority stops it with an exception; the tasks
    beyond the stored suggestions are skipped, and the queue is left as
    it is. *)
Theorem createSuggested_requests (tasks : list Task) (suggestions : list Suggestion)
    (s : Sys) :
  let paired := firstn (length suggestions) tasks in
  exists outcome s' requests,
    App.createSuggested tasks suggestions s = (outcome, s')
    /\ motion_requests s' = motion_requests s ++ requests
    /\ Forall2 (fun pair request => requestFor (optionsOf (snd pair)) (fst pair) request)
         (sentPairs tasks suggestions) requests
    /\ task_queue s' = task_queue s
    /\ match outcome with
       | Returned results =>
           length results = length paired
           /\ Forall (fun task => usablePriority task = true) paired
       | Thrown _ => Exists (fun task => usablePriority task = false) paired
       end.
Proof.
  cbv zeta. revert suggestions s.
  induction tasks as [|task rest IH]; intros suggestions s.
  - simpl. rewrite firstn_nil. exists (Returned []), s, []. rewrite app_nil_r.
    repeat split; constructor.
  - destruct suggestions as [|suggestion more].
    + destruct (IH [] s) as [outcome [s' [requests [Hrun Hrest]]]].
      exists outcome, s', requests. split; [exact Hrun|].
      destruct rest; simpl in *; exact Hrest.
    + cbn [App.createSuggested sentPairs length firstn].
      fold (optionsOf suggestion). unfold bind at 1.
      destruct (createTask_cases task (optionsOf suggestion) s)
        as [[Husable [r [s1 [request [Hrun [Hrequests Hfor]]]]]] | [Husable [e Hrun]]];
        rewrite Hrun, Husable.
      * unfold bind at 1.
        assert (Hqueue : task_queue s1 = task_queue s).
        { pose proof (@keeps_createTask _ _ (fun a b => task_queue b = task_queue a)
                        (fun a b c Hab Hbc => eq_trans Hbc Hab) (fun a b Hab => Hab)
                        task (optionsOf suggestion) s) as Hk.
          rewrite Hrun in Hk. exact Hk. }
        destruct (IH more s1) as [outcome [s2 [requests [Hloop [Hmore [Hall [Hq Hout]]]]]]].
        rewrite Hloop.
        destruct outcome as [results | e]; simpl;
          eexists; exists s2, (request :: requests);
          (split; [reflexivity|]);
          (split; [rewrite Hmore, Hrequests, <- app_assoc; reflexivity|]);
          (split; [constructor; [exact Hfor | exact Hall]|]);
          (split; [congruence|]).
        { destruct Hout as [Hlen Hall']. simpl. split; [congruence | constructor; assumption]. }
        { apply Exists_cons_tl. exact Hout. }
      * exists (Thrown e), s, []. rewrite app_nil_r.
        repeat split; try constructor. exact Husable.
Qed.

End SuggestedLoop.

(** ** An approval when Motion, Slack and the store answer *)

Section HappyPath.
Context `{Builtins} `{Environment}.
Import Batch.

Hypothesis motion_accepts :
  forall task w, exists dataId w', motionPostTask task w = (HttpOk dataId, w').
Hypothesis slack_answers :
  forall call w, exists ts w', slackCall call w = (Returned ts, w').

Context `{!StoreFaults}.
Hypothesis store_answers : forall w, exists w', storeFault w = (None, w').

Lemma filter_usable (tasks : list Task) :
  Forall (fun task => usablePriority task = true) tasks ->
  filter usablePriority tasks = tasks.
Proof.
  induction 1 as [|task rest Htask _ IH]; simpl; [reflexivity|].
  rewrite Htask, IH. reflexivity.
Qed.

Lemma mapPriority_usable (task : Task) (s : Sys) :
  usablePriority task = true ->
  exists mapped,
    MotionService.mapPriority (or_else (priority task) (JStr (str "medium"))) s
    = (Returned mapped, s).
Proof.
  unfold usablePriority, or_else, MotionService.mapPriority.
  destruct (priority task) as [| |[|]|z|[|c p]|items|fields]; simpl;
    try discriminate; try (intros _; eexists; reflexivity).
  destruct (Z.eqb z 0); simpl; [intros _; eexists; reflexivity | discriminate].
Qed.

Lemma createInBatch_accepted (options : Options) (task : Task) (s : Sys) :
  usablePriority task = true ->
  exists r s', MotionService.createInBatch options task s = (Returned r, s')
               /\ success r = true.
Proof.
  intros Husable. unfold MotionService.createInBatch, tryCatch.
  unfold MotionService.createTask. cbv zeta. unfold bind at 1.
  destruct (@mapPriority_usable task s Husable) as [mapped ->].
  unfold bind at 1. unfold bind at 1. unfold post at 1.
  match goal with
  | |- context [motionPostTask ?t ?w] =>
      destruct (motion_accepts t w) as [dataId [w' Hpost]]; rewrite Hpost
  end.
  unfold bind, now, ret. cbn [world].
  destruct (dateNow w') as [stamp w'']. 
  eexists. eexists. split; reflexivity.
Qed.

Lemma mapM_accepted (options : Options) (tasks : list Task) :
  Forall (fun task => usablePriority task = true) tasks ->
  forall s, exists rs s',
    mapM (MotionService.createInBatch options) tasks s = (Returned rs, s')
    /\ Forall (fun r => success r = true) rs.
Proof.
  induction 1 as [|task rest Htask _ IH]; intros s; simpl.
  - exists [], s. split; [reflexivity | constructor].
  - unfold bind at 1.
    destruct (@createInBatch_accepted options task s Htask) as [r [s1 [Hr Hsuccess]]].
    rewrite Hr. unfold bind at 1.
    destruct (IH s1) as [rs [s2 [Hrs Hall]]]. rewrite Hrs.
    exists (r :: rs), s2. split; [reflexivity | constructor; assumption].
Qed.

Lemma createBatches_accepted (n : nat) :
  forall tasks options results s,
    length tasks <= n ->
    Forall (fun task => usablePriority task = true) tasks ->
    exists rs s',
      MotionService.createBatches tasks options results s = (Returned (results ++ rs), s')
      /\ Forall (fun r => success r = true) rs.
Proof.
  induction n as [|n IH]; intros tasks options results s Hlen Husable;
    (destruct tasks as [|task rest];
     [ simp createBatches; exists [], s; rewrite app_nil_r;
       split; [reflexivity | constructor] |]);
    [simpl in Hlen; lia|].
  simp createBatches. unfold bind at 1.
  assert (Hfirst : Forall (fun task => usablePriority task = true)
                     (firstn MotionService.batchSize (task :: rest))).
  { apply Forall_forall. intros t Ht. apply In_firstn in Ht.
    rewrite Forall_forall in Husable. apply Husable. exact Ht. }
  assert (Hlater : Forall (fun task => usablePriority task = true)
                     (skipn MotionService.batchSize (task :: rest))).
  { apply Forall_forall. intros t Ht.
    rewrite Forall_forall in Husable. apply Husable.
    rewrite <- (firstn_skipn MotionService.batchSize (task :: rest)).
    apply in_or_app. right. exact Ht. }
  destruct (@mapM_accepted options _ Hfirst s) as [batch [s1 [Hbatch Hall1]]].
  rewrite Hbatch.
  destruct (IH (skipn MotionService.batchSize (task :: rest)) options (results ++ batch) s1)
    as [rs [s2 [Hrs Hall2]]].
  { rewrite length_skipn. unfold MotionService.batchSize. simpl in *. lia. }
  { exact Hlater. }
  rewrite Hrs. exists (batch ++ rs), s2. rewrite app_assoc.
  split; [reflexivity | apply Forall_app; split; assumption].
Qed.

Lemma createMultipleTasks_accepted (tasks : list Task) (options : Options) (s : Sys) :
  Forall (fun task => usablePriority task = true) tasks ->
  exists r s',
    MotionService.createMultipleTasks tasks options s = (Returned r, s')
    /\ batch_success r = true.
Proof.
  intros Husable. unfold MotionService.createMultipleTasks. unfold bind at 1.
  destruct (@createBatches_accepted (length tasks) tasks options [] s (le_n _) Husable)
    as [rs [s' [Hrun Hall]]].
  rewrite Hrun. simpl. eexists. eexists. split; [reflexivity|]. simpl.
  apply no_failed_iff_all_succeeded. exact Hall.
Qed.

(** An update of the one row of an id returns, and leaves one row of
    that id, merged with the updates. *)
Lemma updateTaskQueue_runs (i : jsstring) (updates : Updates) (s : Sys) (row : QueueEntry) :
  filter (Queue.hasId i) (task_queue s) = [row] ->
  exists stamp s',
    updateTaskQueue i updates s = (Returned (Queue.merge row updates stamp), s')
    /\ filter (Queue.hasId i) (task_queue s') = [Queue.merge row updates stamp]
    /\ onlyId i s s'
    /\ task_history s' = task_history s
    /\ motion_requests s' = motion_requests s
    /\ channel_mappings s' = channel_mappings s.
Proof.
  intros Hone.
  pose proof (updateTaskQueue_onlyId i updates s) as Honly.
  revert Honly. unfold updateTaskQueue, bind, now, getQueue, putQueue, ret.
  destruct (dateNow (world s)) as [stamp w]. simpl.
  rewrite filter_updateRows, Hone. simpl. intros Honly.
  exists stamp. eexists. split; [reflexivity|]. simpl.
  rewrite filter_updateRows, Hone. repeat split. exact Honly.
Qed.

Lemma slack_runs (call : SlackCall) (s : Sys) :
  exists ts s',
    slack call s = (Returned ts, s')
    /\ task_queue s' = task_queue s
    /\ task_history s' = task_history s
    /\ motion_requests s' = motion_requests s
    /\ channel_mappings s' = channel_mappings s.
Proof.
  unfold slack. destruct (slack_answers call (world s)) as [ts [w Hcall]].
  rewrite Hcall. eexists. eexists. split; [reflexivity|]. repeat split.
Qed.

(** A request that the store answers is the query itself, in a world
    that has moved on. *)
Lemma request_answers (A : Type) (failure : jsstring) (query : M A) (s : Sys) :
  exists w, Fallible.request failure query s = query (withWorld s w).
Proof.
  unfold Fallible.request. destruct (store_answers (world s)) as [w Hw].
  exists w. rewrite Hw. reflexivity.
Qed.

Lemma answered_updateTaskQueue_runs (i : jsstring) (updates : Updates) (s : Sys)
    (row : QueueEntry) :
  filter (Queue.hasId i) (task_queue s) = [row] ->
  exists stamp s',
    Fallible.updateTaskQueue i updates s = (Returned (Queue.merge row updates stamp), s')
    /\ filter (Queue.hasId i) (task_queue s') = [Queue.merge row updates stamp]
    /\ onlyId i s s'
    /\ task_history s' = task_history s
    /\ motion_requests s' = motion_requests s
    /\ channel_mappings s' = channel_mappings s.
Proof.
  intros Hone. unfold Fallible.updateTaskQueue.
  destruct (request_answers (str "Failed to update task queue: ")
              (updateTaskQueue i updates) s) as [w ->].
  exact (@updateTaskQueue_runs i updates (withWorld s w) row Hone).
Qed.

(** X27.  The approval that goes through.  When Motion accepts every
    request, Slack answers every call and the store answers every
    request, approving an entry whose id belongs to exactly one row and
    whose tasks all have a usable priority returns normally; that row
    ends completed and no other row is touched, one request went out for
    each task of the entry, in some order, in the workspace of the
    environment, and exactly one record entered the history, a success
    with the tasks of the entry and one Motion id for each. *)
Theorem handleTaskApproval_goes_through_when_all_answer
    (queuedTasks : QueueEntry) (channelId messageTs : jsstring) (s : Sys)
    (row : QueueEntry) :
  filter (Queue.hasId (id queuedTasks)) (task_queue s) = [row] ->
  Forall (fun task => usablePriority task = true) (extracted_tasks queuedTasks) ->
  exists s' row' options requests expected record,
    Fallible.handleTaskApproval queuedTasks channelId messageTs s = (Returned tt, s')
    /\ filter (Queue.hasId (id queuedTasks)) (task_queue s') = [row']
    /\ status row' = completed
    /\ onlyId (id queuedTasks) s s'
    /\ opt_workspaceId options = MOTION_WORKSPACE_ID
    /\ motion_requests s' = motion_requests s ++ requests
    /\ Forall2 (requestFor options) (extracted_tasks queuedTasks) expected
    /\ Permutation expected requests
    /\ task_history s' = task_history s ++ [record]
    /\ fullRecord queuedTasks channelId messageTs record.
Proof.
  intros Hone Husable. unfold Fallible.handleTaskApproval, tryCatch.
  (* processing *)
  unfold bind at 1.
  destruct (@answered_updateTaskQueue_runs (id queuedTasks)
              {| u_status := Some processing; u_error_message := None;
                 u_retry_count := None; u_extracted_tasks := None;
                 u_workspace_suggestions := None |} s row Hone)
    as [stamp1 [s1 [Hrun1 [Hone1 [Honly1 [Hh1 [Hm1 Hc1]]]]]]].
  rewrite Hrun1.
  (* the notice *)
  unfold bind at 1.
  destruct (slack_runs (PostMessage channelId
                          (Creating (length (extracted_tasks queuedTasks)))
                          (Some messageTs)) s1)
    as [processingTs [s2 [Hrun2 [Hq2 [Hh2 [Hm2 Hc2]]]]]].
  rewrite Hrun2.
  (* the mapping *)
  unfold bind at 1. unfold Fallible.getChannelMapping at 1.
  destruct (request_answers (str "Failed to get channel mapping: ")
              (getChannelMapping channelId (str "workspace")) s2) as [w3 Hmapping].
  rewrite Hmapping. unfold getChannelMapping at 1. cbv zeta.
  match goal with
  | |- context [MotionService.createMultipleTasks _ ?o] => set (options := o)
  end.
  (* the batch *)
  unfold bind at 1.
  destruct (@createMultipleTasks_accepted (extracted_tasks queuedTasks) options
              (withWorld s2 w3) Husable)
    as [r [s3 [Hrun3 Hsuccess]]].
  pose proof (@createMultipleTasks_wholeBatch _ _ _ _ _ _ _ Hrun3) as Hwhole.
  destruct (Hwhole Hsuccess) as [Hfailed [Hsuccessful Hids]].
  destruct (createMultipleTasks_sends (extracted_tasks queuedTasks) options
              (withWorld s2 w3))
    as [r' [s3' [Hrun3' [requests [Hrequests Hall]]]]].
  rewrite Hrun3 in Hrun3'. injection Hrun3' as <- <-.
  rewrite (@filter_usable _ Husable) in Hall.
  pose proof (@keeps_createMultipleTasks _ _ (fun a b => task_queue b = task_queue a)
                (fun a b c Hab Hbc => eq_trans Hbc Hab) (fun a b Hab => Hab)
                (extracted_tasks queuedTasks) options (withWorld s2 w3)) as Hq3.
  pose proof (silent_createMultipleTasks (extracted_tasks queuedTasks) options
                (withWorld s2 w3))
    as [_ [Hh3 Hc3]].
  rewrite Hrun3 in Hq3, Hh3, Hc3. simpl in Hq3, Hh3, Hc3, Hrequests.
  rewrite Hrun3, Hsuccess.
  (* completed *)
  unfold bind at 1.
  assert (Hone3 : filter (Queue.hasId (id queuedTasks)) (task_queue s3)
                  = [Queue.merge row
                       {| u_status := Some processing; u_error_message := None;
                          u_retry_count := None; u_extracted_tasks := None;
                          u_workspace_suggestions := None |} stamp1]).
  { rewrite Hq3, Hq2. exact Hone1. }
  destruct (@answered_updateTaskQueue_runs (id queuedTasks)
              {| u_status := Some completed; u_error_message := None;
                 u_retry_count := None; u_extracted_tasks := None;
                 u_workspace_suggestions := None |} s3 _ Hone3)
    as [stamp4 [s4 [Hrun4 [Hone4 [Honly4 [Hh4 [Hm4 Hc4]]]]]]].
  rewrite Hrun4.
  (* the history *)
  unfold bind at 1. unfold Fallible.addTaskHistory at 1.
  match goal with
  | |- context [Fallible.request ?failure ?query s4] =>
      destruct (request_answers failure query s4) as [w5 Hhistory]; rewrite Hhistory
  end.
  unfold addTaskHistory at 1.
  (* the announcement *)
  unfold bind at 1.
  match goal with
  | |- context [slack ?call ?s5] =>
      destruct (slack_runs call s5) as [ts6 [s6 [Hrun6 [Hq6 [Hh6 [Hm6 Hc6]]]]]];
      rewrite Hrun6
  end.
  rewrite Hfailed. cbn [Nat.ltb Nat.leb]. unfold ret.
  simpl in Hq6, Hh6, Hm6.
  eexists. eexists. exists options. exists requests. exists requests. eexists.
  split; [reflexivity|].
  split; [rewrite Hq6; exact Hone4|].
  split; [reflexivity|].
  split.
  { eapply onlyId_trans; [exact Honly1|].
    eapply onlyId_trans; [apply onlyId_queue; rewrite Hq3, Hq2; reflexivity|].
    eapply onlyId_trans; [exact Honly4|]. apply onlyId_queue. exact Hq6. }
  split; [reflexivity|].
  split; [rewrite Hm6, Hm4, Hrequests, Hm2, Hm1; reflexivity|].
  split; [exact Hall|].
  split; [apply Permutation_refl|].
  split; [rewrite Hh6, Hh4, Hh3, Hh2, Hh1; reflexivity|].
  repeat split. exact Hids.
Qed.

End HappyPath.

Lemma handleTaskApproval_goes_through_when_all_answer_witness :
  let queued := Scenario.entry "a" 1 None in
  let s := Agreeable.start [queued; Scenario.entry "b" 2 None] in
  exists (s' : @Sys Agreeable.environment) row' options requests expected record,
    @Fallible.handleTaskApproval Scenario.builtins Agreeable.environment steadyAgreeable
      queued (str "C1") (str "1700000000.000100") s = (Returned tt, s')
    /\ filter (Queue.hasId (str "a")) (task_queue s') = [row']
    /\ status row' = completed
    /\ @onlyId Agreeable.environment (str "a") s s'
    /\ opt_workspaceId options = JStr (str "ws-1")
    /\ motion_requests s' = motion_requests s ++ requests
    /\ Forall2 (@requestFor Agreeable.environment options) [Scenario.report] expected
    /\ Permutation expected requests
    /\ task_history s' = task_history s ++ [record]
    /\ fullRecord queued (str "C1") (str "1700000000.000100") record.
Proof.
  intros queued s.
  apply (@handleTaskApproval_goes_through_when_all_answer
           Scenario.builtins Agreeable.environment
           (fun task w => ex_intro _ _ (ex_intro _ _ eq_refl))
           (fun call w => ex_intro _ _ (ex_intro _ _ eq_refl))
           steadyAgreeable
           (fun w => ex_intro _ _ eq_refl)
           queued (str "C1") (str "1700000000.000100") s queued).
  - reflexivity.
  - repeat constructor.
Defined.

(** ** A sweep when Motion and the store answer *)

Section Retries.
Context `{Builtins} `{Environment}.
Import Batch.

Hypothesis motion_accepts :
  forall task w, exists dataId w', motionPostTask task w = (HttpOk dataId, w').

Context `{!StoreFaults}.
Hypothesis store_answers : forall w, exists w', storeFault w = (None, w').

(** With distinct ids, an id of the queue belongs to one row. *)
Lemma one_row (i : jsstring) (rows : list QueueEntry) :
  NoDup (map id rows) -> In i (map id rows) ->
  exists row, filter (Queue.hasId i) rows = [row].
Proof.
  induction rows as [|e rows IH]; simpl; [intros _ []|].
  intros Hnodup Hin. inversion Hnodup as [|? ? Hnotin Hrest]; subst.
  unfold Queue.hasId at 1. destruct (Js.eqb (id e) i) eqn:E.
  - apply eqb_eq in E. subst i. exists e. f_equal.
    apply filter_none. apply Forall_forall. intros x Hx. unfold Queue.hasId.
    destruct (Js.eqb (id x) (id e)) eqn:E'; [|reflexivity].
    apply eqb_eq in E'. exfalso. apply Hnotin. rewrite <- E'. apply in_map. exact Hx.
  - destruct Hin as [Heq | Hin]; [rewrite Heq, eqb_refl in E; discriminate|].
    apply IH; assumption.
Qed.

Lemma onlyId_ids (i : jsstring) (s s' : Sys) :
  onlyId i s s' -> map id (task_queue s') = map id (task_queue s).
Proof.
  unfold onlyId. induction 1 as [|e e' q q' [Hid _] _ IH]; simpl; [reflexivity|].
  rewrite Hid, IH. reflexivity.
Qed.

Lemma onlyIds_ids (ids : list jsstring) (s s' : Sys) :
  onlyIds ids s s' -> map id (task_queue s') = map id (task_queue s).
Proof.
  unfold onlyIds. induction 1 as [|e e' q q' [Hid _] _ IH]; simpl; [reflexivity|].
  rewrite Hid, IH. reflexivity.
Qed.

Lemma onlyId_onlyIds (i : jsstring) (ids : list jsstring) (s s' : Sys) :
  In i ids -> onlyId i s s' -> onlyIds ids s s'.
Proof.
  intros Hin. unfold onlyId, onlyIds.
  induction 1 as [|e e' q q' [Hid Hsame] _ IH]; constructor; [|exact IH].
  split; [exact Hid|]. intros Hmem. apply Hsame.
  unfold Queue.hasId. destruct (Js.eqb (id e) i) eqn:E; [|reflexivity].
  apply eqb_eq in E. subst i. apply mem_In in Hin. congruence.
Qed.

Lemma onlyIds_more (ids more : list jsstring) (s s' : Sys) :
  (forall i, In i ids -> In i more) -> onlyIds ids s s' -> onlyIds more s s'.
Proof.
  intros Hsub. unfold onlyIds.
  induction 1 as [|e e' q q' [Hid Hsame] _ IH]; constructor; [|exact IH].
  split; [exact Hid|]. intros Hmem. apply Hsame.
  destruct (Js.mem (id e) ids) eqn:E; [|reflexivity].
  apply mem_In, Hsub, mem_In in E. congruence.
Qed.

(** One retry that goes through: the row of the entry ends completed. *)
Lemma retryOne_completes (task : QueueEntry) (s : Sys) :
  NoDup (map id (task_queue s)) ->
  In (id task) (map id (task_queue s)) ->
  Queue.retries task < 3 ->
  Forall (fun t => usablePriority t = true) (extracted_tasks task) ->
  exists s',
    Fallible.retryOne task s = (Returned tt, s')
    /\ onlyId (id task) s s'
    /\ Forall (fun e => Queue.hasId (id task) e = true -> status e = completed)
         (task_queue s')
    /\ length (motion_requests s')
       = length (motion_requests s) + length (extracted_tasks task).
Proof.
  intros Hnodup Hin Hlt Husable. unfold Fallible.retryOne.
  destruct (Nat.leb_spec 3 (Queue.retries task)) as [Hge|_]; [lia|].
  unfold tryCatch. unfold bind at 1.
  destruct (@createMultipleTasks_accepted _ _ motion_accepts
              (extracted_tasks task) noOptions s Husable) as [r [s1 [Hrun Hsuccess]]].
  destruct (createMultipleTasks_sends (extracted_tasks task) noOptions s)
    as [r' [s1' [Hrun' [requests [Hrequests Hall]]]]].
  rewrite Hrun in Hrun'. injection Hrun' as <- <-.
  rewrite (@filter_usable _ Husable) in Hall.
  pose proof (@keeps_createMultipleTasks _ _ (fun a b => task_queue b = task_queue a)
                (fun a b c Hab Hbc => eq_trans Hbc Hab) (fun a b Hab => Hab)
                (extracted_tasks task) noOptions s) as Hq1.
  rewrite Hrun in Hq1. simpl in Hq1.
  rewrite Hrun, Hsuccess. unfold bind at 1.
  destruct (one_row (id task) (task_queue s) Hnodup Hin) as [row Hone].
  rewrite <- Hq1 in Hone.
  destruct (@answered_updateTaskQueue_runs _ _ store_answers (id task)
              {| u_status := Some completed; u_error_message := None;
                 u_retry_count := None; u_extracted_tasks := None;
                 u_workspace_suggestions := None |} s1 row Hone)
    as [stamp [s2 [Hrun2 [Hone2 [Honly2 [_ [Hm2 _]]]]]]].
  rewrite Hrun2. unfold ret. exists s2. split; [reflexivity|]. split; [|split].
  - eapply onlyId_trans; [apply onlyId_queue; exact Hq1 | exact Honly2].
  - apply Forall_forall. intros e He Hid.
    assert (Hf : In e (filter (Queue.hasId (id task)) (task_queue s2))).
    { apply filter_In. split; assumption. }
    rewrite Hone2 in Hf. destruct Hf as [<- | []]. reflexivity.
  - rewrite Hm2, Hrequests, length_app, (Forall2_length Hall). reflexivity.
Qed.

Lemma retryEach_completes (todo : list QueueEntry) :
  forall s,
    NoDup (map id (task_queue s)) ->
    Forall (fun task =>
              In (id task) (map id (task_queue s))
              /\ Queue.retries task < 3
              /\ Forall (fun t => usablePriority t = true) (extracted_tasks task))
      todo ->
    exists s',
      Fallible.retryEach todo s = (Returned tt, s')
      /\ onlyIds (map id todo) s s'
      /\ Forall (fun e => In (id e) (map id todo) -> status e = completed) (task_queue s')
      /\ length (motion_requests s')
         = length (motion_requests s) + length (flat_map extracted_tasks todo).
Proof.
  induction todo as [|task rest IH]; intros s Hnodup Htodo; simpl.
  - exists s. split; [reflexivity|]. split; [apply onlyIds_queue; reflexivity|].
    split; [apply Forall_forall; intros e _ []| lia].
  - inversion Htodo as [|? ? [Hin [Hlt Husable]] Hrest]; subst.
    destruct (@retryOne_completes task s Hnodup Hin Hlt Husable)
      as [s1 [Hrun1 [Honly1 [Hdone1 Hsent1]]]].
    unfold bind at 1. rewrite Hrun1.
    pose proof (@onlyId_ids _ _ _ Honly1) as Hids1.
    destruct (IH s1) as [s' [Hrun [Honly [Hdone Hsent]]]].
    { rewrite Hids1. exact Hnodup. }
    { eapply Forall_impl; [|exact Hrest]. simpl. intros t [Ht Hmore].
      rewrite Hids1. split; assumption. }
    exists s'. split; [exact Hrun|]. split; [|split].
    + eapply onlyIds_trans.
      * apply (@onlyId_onlyIds (id task)); [left; reflexivity | exact Honly1].
      * apply (@onlyIds_more (map id rest)); [intros i Hi; right; exact Hi | exact Honly].
    + clear - Hdone1 Honly Hdone.
      unfold onlyIds in Honly. rewrite Forall_forall in Hdone.
      revert Hdone1 Hdone.
      induction Honly as [|e1 e' q1 q' [Hid Hsame] _ IHq]; intros Hdone1 Hdone;
        constructor.
      * intros [Htask | Hin'].
        { destruct (Js.mem (id e1) (map id rest)) eqn:Hmem.
          - apply Hdone; [left; reflexivity|]. rewrite Hid. apply mem_In. exact Hmem.
          - rewrite (Hsame eq_refl). inversion Hdone1 as [|? ? He1 _]; subst.
            apply He1. unfold Queue.hasId. rewrite <- Hid, <- Htask. apply eqb_refl. }
        { apply Hdone; [left; reflexivity | exact Hin']. }
      * apply IHq; [inversion Hdone1; assumption|].
        intros x Hx. apply Hdone. right. exact Hx.
    + rewrite Hsent, Hsent1, length_app. lia.
Qed.

(** X28.  The sweep that goes through.  When Motion accepts every
    request, the store answers every request, the ids of the queue are
    distinct and the tasks of the queue all have a usable priority, a
    sweep returns with every row it read completed, after exactly one
    request for each task of the rows it read. *)
Theorem processRetryQueue_completes_when_all_answer (s : Sys) :
  NoDup (map id (task_queue s)) ->
  Forall (fun e => Forall (fun t => usablePriority t = true) (extracted_tasks e))
    (task_queue s) ->
  let read := SupabaseService.getPendingTasks (task_queue s) 5 in
  exists s',
    Fallible.processRetryQueue s = (Returned tt, s')
    /\ Forall (fun e => In (id e) (map id read) -> status e = completed) (task_queue s')
    /\ length (motion_requests s')
       = length (motion_requests s) + length (flat_map extracted_tasks read).
Proof.
  intros Hnodup Husable read.
  assert (Hread : Forall (fun task =>
                            In (id task) (map id (task_queue s))
                            /\ Queue.retries task < 3
                            /\ Forall (fun t => usablePriority t = true)
                                 (extracted_tasks task)) read).
  { apply Forall_forall. intros task Htask.
    destruct (getPendingTasks_below_limit _ _ _ Htask) as [_ [n [Hn Hlt]]].
    assert (Hin : In task (task_queue s)).
    { unfold read, SupabaseService.getPendingTasks in Htask.
      apply In_firstn in Htask.
      apply (Permutation_in _ (Permutation_sym (oldestFirst_perm _))) in Htask.
      apply filter_In in Htask. tauto. }
    split; [apply in_map; exact Hin|]. split.
    - unfold Queue.retries. rewrite Hn. exact Hlt.
    - rewrite Forall_forall in Husable. apply Husable. exact Hin. }
  unfold Fallible.processRetryQueue, tryCatch. unfold bind at 1.
  unfold Fallible.getPendingTasks.
  destruct (@request_answers _ _ store_answers _ (str "Failed to get pending tasks: ")
              (getPendingTasks 5) s) as [w ->].
  destruct (@retryEach_completes read (withWorld s w) Hnodup Hread)
    as [s' [Hrun [_ [Hdone Hsent]]]].
  exists s'. split; [|split; assumption].
  unfold getPendingTasks, bind, getQueue, ret. cbn [task_queue withWorld]. fold read.
  rewrite Hrun. reflexivity.
Qed.

End Retries.

Lemma processRetryQueue_completes_when_all_answer_witness :
  let s := Agreeable.start [Scenario.entry "a" 1 None; Scenario.entry "b" 2 (Some 1)] in
  let read := SupabaseService.getPendingTasks (task_queue s) 5 in
  exists s' : @Sys Agreeable.environment,
    @Fallible.processRetryQueue Scenario.builtins Agreeable.environment steadyAgreeable s
    = (Returned tt, s')
    /\ Forall (fun e => In (id e) (map id read) -> status e = completed) (task_queue s')
    /\ length (motion_requests s')
       = length (motion_requests s) + length (flat_map extracted_tasks read).
Proof.
  intros s read.
  apply (@processRetryQueue_completes_when_all_answer
           Scenario.builtins Agreeable.environment
           (fun task w => ex_intro _ _ (ex_intro _ _ eq_refl))
           steadyAgreeable (fun w => ex_intro _ _ eq_refl) s).
  - simpl. repeat constructor; simpl; intuition discriminate.
  - repeat constructor.
Defined.

(** ** batch.js when a request to the store may fail *)

Section UnreliableStore.
Context `{Builtins} `{Environment} `{!StoreFaults}.

Lemma keeps_request (R : Sys -> Sys -> Prop) (A : Type) (failure : jsstring)
    (query : M A) :
  (forall a b c, R a b -> R b c -> R a c) ->
  (forall s s', task_queue s' = task_queue s -> R s s') ->
  keeps R query -> keeps R (Fallible.request failure query).
Proof.
  intros R_trans R_queue Hquery s. unfold Fallible.request.
  destruct (storeFault (world s)) as [[message|] w]; simpl.
  - apply R_queue. reflexivity.
  - eapply R_trans; [|apply Hquery]. apply R_queue. reflexivity.
Qed.

Lemma ensures_request (A : Type) (failure : jsstring) (query : M A) (Q : Sys -> Prop) :
  ensures query Q -> ensures (Fallible.request failure query) Q.
Proof.
  intros Hquery s. unfold Fallible.request.
  destruct (storeFault (world s)) as [[message|] w]; [exact I | apply Hquery].
Qed.

Lemma ensures_tryCatch (A : Type) (m : M A) (handler : Error -> M A) (Q : Sys -> Prop) :
  ensures m Q -> (forall e, ensures (handler e) Q) -> ensures (tryCatch m handler) Q.
Proof.
  intros Hm Hh s. unfold tryCatch. specialize (Hm s).
  destruct (m s) as [[a|e] s1]; [exact Hm | apply Hh].
Qed.

Lemma ensures_then (A B : Type) (m : M A) (k : A -> M B) (Q : Sys -> Prop) :
  ensures m Q ->
  (forall a, keeps (fun s s' => Q s -> Q s') (k a)) ->
  ensures (bind m k) Q.
Proof.
  intros Hm Hk s. unfold bind. specialize (Hm s).
  destruct (m s) as [[a|e] s1]; [|exact I].
  specialize (Hk a s1 Hm). destruct (k a s1) as [[b|e] s2]; [exact Hk | exact I].
Qed.

Lemma ensures_always (A : Type) (m : M A) (Q : Sys -> Prop) :
  (forall s, Q (snd (m s))) -> ensures m Q.
Proof.
  intros Hm s. specialize (Hm s). destruct (m s) as [[a|e] s1]; [exact Hm | exact I].
Qed.

Lemma onTheWay_queue (i : jsstring) (n : nat) (s s' : Sys) :
  task_queue s' = task_queue s -> onTheWay i n s s'.
Proof.
  unfold onTheWay. intros ->.
  induction (task_queue s); constructor; auto.
Qed.

Lemma onTheWay_trans (i : jsstring) (n : nat) (a b c : Sys) :
  onTheWay i n a b -> onTheWay i n b c -> onTheWay i n a c.
Proof.
  unfold onTheWay. generalize (task_queue a) (task_queue b) (task_queue c).
  intros qa qb qc Hab. revert qc.
  induction Hab as [|x y qa qb [Hid [Hother Hmine]] _ IH]; intros qc Hbc;
    inversion Hbc as [|y' z qb' qc' [Hid' [Hother' Hmine']] Hrest]; subst; constructor.
  - assert (Hsame : Queue.hasId i y = Queue.hasId i x).
    { unfold Queue.hasId. rewrite Hid. reflexivity. }
    rewrite Hsame in Hother', Hmine'.
    split; [congruence|]. split.
    + intros Hx. rewrite (Hother' Hx). apply Hother. exact Hx.
    + intros Hx. destruct (Hmine' Hx) as [-> | Hz]; [apply Hmine; exact Hx|].
      right. exact Hz.
  - apply IH. exact Hrest.
Qed.

(** The updates of an approval: to processing, to completed, or to failed
    with the next retry count. *)
Lemma updateTaskQueue_onTheWay (i : jsstring) (n : nat) (updates : Updates) :
  (u_status updates = Some processing
   \/ u_status updates = Some completed
   \/ (u_status updates = Some failed /\ u_retry_count updates = Some n)) ->
  keeps (onTheWay i n) (Fallible.updateTaskQueue i updates).
Proof.
  intros Hu. unfold Fallible.updateTaskQueue.
  apply keeps_request; [apply onTheWay_trans | apply onTheWay_queue |].
  apply keeps_updateTaskQueue. intros s stamp s' Hs'. unfold onTheWay. rewrite Hs'.
  unfold SupabaseService.updateRows. clear Hs'.
  induction (task_queue s) as [|row rows IH]; simpl; [constructor|].
  constructor; [|exact IH].
  destruct (Queue.hasId i row); [|auto].
  split; [reflexivity|]. split; [discriminate|]. intros _. right. simpl.
  destruct Hu as [Hu | [Hu | [Hu Hr]]]; rewrite Hu; simpl; [tauto | tauto |].
  rewrite Hr. simpl. tauto.
Qed.

Lemma updateTaskQueue_staysSettled (i : jsstring) (n : nat) (updates : Updates) :
  (u_status updates = Some completed
   \/ (u_status updates = Some failed /\ u_retry_count updates = Some n)) ->
  ensures (Fallible.updateTaskQueue i updates) (settled i n).
Proof.
  intros Hu. unfold Fallible.updateTaskQueue. apply ensures_request.
  apply ensures_always. apply updateTaskQueue_settles. exact Hu.
Qed.

Ltac store_steps T Q :=
  repeat (first
    [ progress keeps_steps T Q
    | match goal with
      | |- keeps _ (Fallible.request _ _) => apply keeps_request
      | |- keeps _ (Fallible.addTaskHistory _) => unfold Fallible.addTaskHistory
      | |- keeps _ (Fallible.getChannelMapping _ _) => unfold Fallible.getChannelMapping
      | |- keeps _ (Batch.failedLine ?r) => unfold Batch.failedLine; destruct r
      end ]).

(** X5.  What a rejection writes.  [handleTaskRejection] always returns,
    sends nothing to Motion, writes neither history nor channel mapping
    and leaves every row of another id as it is.  When the store answers
    the request and the id of the entry belongs to one row at most, that
    row ends failed with the message Rejected by user, and at most the
    notice of the cancellation is said to Slack; when the store fails the
    request, the error is swallowed: the queue is as it was and nothing
    is said to Slack. *)
Theorem handleTaskRejection_records_rejection
    (queuedTasks : QueueEntry) (channelId messageTs : jsstring) (s : Sys) :
  exists s',
    Fallible.handleTaskRejection queuedTasks channelId messageTs s = (Returned tt, s')
    /\ onlyId (id queuedTasks) s s'
    /\ motion_requests s' = motion_requests s
    /\ task_history s' = task_history s
    /\ channel_mappings s' = channel_mappings s
    /\ (slack_calls s' = slack_calls s
        \/ slack_calls s'
           = slack_calls s ++ [PostMessage channelId TasksCancelled (Some messageTs)])
    /\ (fst (storeFault (world s)) = None ->
        length (filter (Queue.hasId (id queuedTasks)) (task_queue s)) <= 1 ->
        Forall (fun e => Queue.hasId (id queuedTasks) e = true ->
                         status e = failed
                         /\ error_message e = Some (str "Rejected by user"))
          (task_queue s'))
    /\ (fst (storeFault (world s)) <> None ->
        task_queue s' = task_queue s /\ slack_calls s' = slack_calls s).
Proof.
  unfold Fallible.handleTaskRejection, tryCatch, Fallible.updateTaskQueue, Fallible.request.
  unfold bind at 1.
  destruct (storeFault (world s)) as [[message|] w]; simpl.
  - unfold ret. eexists. split; [reflexivity|]. simpl.
    split; [apply onlyId_queue; reflexivity|].
    split; [reflexivity|]. split; [reflexivity|]. split; [reflexivity|].
    split; [left; reflexivity|].
    split; [intros Hnone; discriminate|].
    intros _. split; reflexivity.
  - pose proof (updateTaskQueue_onlyId (id queuedTasks)
                  {| u_status := Some failed;
                     u_error_message := Some (str "Rejected by user");
                     u_retry_count := None; u_extracted_tasks := None;
                     u_workspace_suggestions := None |} (withWorld s w)) as Honly.
    revert Honly.
    unfold Batch.updateTaskQueue, bind, now, getQueue, putQueue, ret, throw, slack.
    simpl. destruct (dateNow w) as [stamp w1]. simpl.
    assert (Hrows : Forall (fun e => Queue.hasId (id queuedTasks) e = true ->
                                     status e = failed
                                     /\ error_message e = Some (str "Rejected by user"))
                      (SupabaseService.updateRows (id queuedTasks)
                         {| u_status := Some failed;
                            u_error_message := Some (str "Rejected by user");
                            u_retry_count := None; u_extracted_tasks := None;
                            u_workspace_suggestions := None |} stamp (task_queue s))).
    { apply updateRows_sets_fields. intros row. split; reflexivity. }
    match goal with
    | |- context [SupabaseService.single ?l] => destruct (SupabaseService.single l)
    end; simpl.
    + destruct (slackCall (PostMessage channelId TasksCancelled (Some messageTs)) w1)
        as [[ts|e] w2]; simpl; intros Honly;
        (eexists; split; [reflexivity|]; simpl;
         split; [exact Honly|];
         split; [reflexivity|]; split; [reflexivity|]; split; [reflexivity|];
         split; [right; reflexivity|];
         split; [intros _ _; exact Hrows|];
         intros Hsome; exfalso; apply Hsome; reflexivity).
    + intros Honly. eexists. split; [reflexivity|]. simpl.
      split; [exact Honly|].
      split; [reflexivity|]. split; [reflexivity|]. split; [reflexivity|].
      split; [left; reflexivity|].
      split; [intros _ _; exact Hrows|].
      intros Hsome. exfalso. apply Hsome. reflexivity.
Qed.

(** X6.  Where an approval leaves the row.  Whatever Motion, Slack and
    the store answer, [handleTaskApproval] leaves every row of another id
    as it is, and every row with the id of the entry as it was, or
    processing, or completed, or failed with a retry count one above the
    count of the entry it was given.  When the handler returns, every row
    with the id of the entry is completed, or failed with that count: a
    row is left processing or untouched only by a run that throws. *)
Theorem handleTaskApproval_settles_when_it_returns
    (queuedTasks : QueueEntry) (channelId messageTs : jsstring) (s : Sys)
    (outcome : Outcome unit) (s' : Sys) :
  Fallible.handleTaskApproval queuedTasks channelId messageTs s = (outcome, s') ->
  onTheWay (id queuedTasks) (Queue.retries queuedTasks + 1) s s'
  /\ (outcome = Returned tt ->
      settled (id queuedTasks) (Queue.retries queuedTasks + 1) s').
Proof.
  intros Hrun.
  set (i := id queuedTasks). set (n := Queue.retries queuedTasks + 1).
  split.
  - assert (Hkeeps : keeps (onTheWay i n)
                       (Fallible.handleTaskApproval queuedTasks channelId messageTs)).
    { unfold Fallible.handleTaskApproval.
      store_steps (@onTheWay_trans i n) (@onTheWay_queue i n);
        try (apply updateTaskQueue_onTheWay; simpl; tauto). }
    specialize (Hkeeps s). rewrite Hrun in Hkeeps. exact Hkeeps.
  - intros ->.
    assert (Hensures : ensures (Fallible.handleTaskApproval queuedTasks channelId messageTs)
                         (settled i n)).
    { unfold Fallible.handleTaskApproval. apply ensures_tryCatch.
      - apply ensures_bind_right. intros _.
        apply ensures_bind_right. intros processingTs.
        apply ensures_bind_right. intros channelMapping.
        apply ensures_bind_right. intros motionResult.
        destruct (batch_success motionResult).
        + apply ensures_then.
          * apply updateTaskQueue_staysSettled. left. reflexivity.
          * intros _.
            change (fun s0 s1 => settled i n s0 -> settled i n s1) with (staysSettled i n).
            store_steps (@staysSettled_trans _ i n) (@staysSettled_queue _ i n).
        + apply ensures_then.
          * apply updateTaskQueue_staysSettled. right. split; reflexivity.
          * intros _.
            change (fun s0 s1 => settled i n s0 -> settled i n s1) with (staysSettled i n).
            store_steps (@staysSettled_trans _ i n) (@staysSettled_queue _ i n).
      - intros e. apply ensures_then.
        + apply updateTaskQueue_staysSettled. right. split; reflexivity.
        + intros _.
          change (fun s0 s1 => settled i n s0 -> settled i n s1) with (staysSettled i n).
          store_steps (@staysSettled_trans _ i n) (@staysSettled_queue _ i n). }
    specialize (Hensures s). rewrite Hrun in Hensures. exact Hensures.
Qed.

End UnreliableStore.

Lemma handleTaskRejection_records_rejection_witness :
  let queued := Scenario.entry "a" 1 None in
  let s := Scenario.start [] [queued; Scenario.entry "b" 2 None] in
  (exists s',
      @Fallible.handleTaskRejection Scenario.environment steadyScenario
        queued (str "C1") (str "1700000000.000100") s = (Returned tt, s')
      /\ Forall (fun e => Queue.hasId (str "a") e = true ->
                          status e = failed
                          /\ error_message e = Some (str "Rejected by user"))
           (task_queue s'))
  /\ (exists s',
         @Fallible.handleTaskRejection Scenario.environment failingScenario
           queued (str "C1") (str "1700000000.000100") s = (Returned tt, s')
         /\ task_queue s' = task_queue s
         /\ slack_calls s' = slack_calls s).
Proof.
  intros queued s. split.
  - destruct (@handleTaskRejection_records_rejection Scenario.environment steadyScenario
                queued (str "C1") (str "1700000000.000100") s)
      as [s' [Hrun [_ [_ [_ [_ [_ [Hanswered _]]]]]]]].
    exists s'. split; [exact Hrun | apply Hanswered; [reflexivity | simpl; lia]].
  - destruct (@handleTaskRejection_records_rejection Scenario.environment failingScenario
                queued (str "C1") (str "1700000000.000100") s)
      as [s' [Hrun [_ [_ [_ [_ [_ [_ Hfailed]]]]]]]].
    exists s'. split; [exact Hrun | apply Hfailed; discriminate].
Defined.

Lemma handleTaskApproval_settles_when_it_returns_witness :
  let queued := Scenario.entry "a" 1 (Some 0) in
  let s := Scenario.start [false] [queued] in
  let run := @Fallible.handleTaskApproval Scenario.builtins Scenario.environment
               steadyScenario queued (str "C1") (str "1700000000.000100") s in
  fst run = Returned tt
  /\ @onTheWay Scenario.environment (str "a") 1 s (snd run)
  /\ @settled Scenario.environment (str "a") 1 (snd run).
Proof.
  intros queued s run.
  assert (Hrun : run = (Returned tt, snd run)) by (vm_compute; reflexivity).
  split; [vm_compute; reflexivity|].
  destruct (@handleTaskApproval_settles_when_it_returns
              Scenario.builtins Scenario.environment steadyScenario
              queued (str "C1") (str "1700000000.000100") s (Returned tt) (snd run) Hrun)
    as [Hway Hsettled].
  split; [exact Hway | apply Hsettled; reflexivity].
Defined.

(** A store lost after the first update: the approval throws and leaves
    the row processing, with the retry count it had. *)
Example handleTaskApproval_left_processing :
  let queued := Scenario.entry "a" 1 (Some 0) in
  let run := @Fallible.handleTaskApproval Scenario.builtins Scenario.environment
               lostScenario queued (str "C1") (str "1700000000.000100")
               (Scenario.start [true] [queued]) in
  (exists e, fst run = Thrown e)
  /\ Scenario.summary (snd run) = [(processing, Some 0)].
Proof. vm_compute. split; [eexists; reflexivity | reflexivity]. Qed.
